(** * menpo.transform.base: the transform composition and alignment protocol

    A shallow embedding of [menpo/transform/base.py].  Python objects live in
    a store and are referred to by reference, so that two names of one
    object see each other's writes; every method of the module is a function
    in a state-and-exception monad over that store.  A method that calls
    [_apply] or [copy.deepcopy], whose recursion follows the objects, takes
    the number of nested calls it may make; with more of them every outcome
    stays what it was.  The abstract methods, which concrete transform
    classes of other modules implement, and the numpy operations the module
    calls are the fields of the class [World]. *)

From stdpp Require Import base gmap list option.

(** ** Python values *)

Definition loc := positive.

(** The exceptions the module raises or lets through. *)
Inductive exn := ValueError | NotImplementedError | AttributeError | TypeError.

(** A call returns a value or raises. *)
Inductive res (A : Type) :=
  | Ret (a : A)
  | Raise (e : exn).
Arguments Ret {A} a.
Arguments Raise {A} e.

(** References are tagged with the kind of object they point to: each kind
    has a store of its own. *)
Inductive val :=
  | VNone
  | VArr (l : loc)      (* numpy.ndarray *)
  | VList (l : loc)     (* list *)
  | VChain (l : loc)    (* TransformChain *)
  | VInst (l : loc)     (* instance of a concrete transform class *)
  | VCloud (l : loc).   (* point cloud, a Transformable *)

#[global] Instance val_eq_dec : EqDecision val.
Proof. solve_decision. Defined.

(** [type(x)], as far as [isinstance] needs it. *)
Inductive pytype (K : Type) :=
  | TyNone | TyNdarray | TyList | TyTransformChain | TyInst (k : K) | TyPointCloud.
Arguments TyNone {K}.
Arguments TyNdarray {K}.
Arguments TyList {K}.
Arguments TyTransformChain {K}.
Arguments TyInst {K} k.
Arguments TyPointCloud {K}.

#[global] Instance pytype_eq_dec {K} `{EqDecision K} : EqDecision (pytype K).
Proof. solve_decision. Defined.

(** [isinstance(x, Transform)]: the chain and every concrete transform class. *)
Definition is_Transform {K} (ty : pytype K) : bool :=
  match ty with
  | TyTransformChain | TyInst _ => true
  | _ => false
  end.

(** ** What the module takes from elsewhere *)

Class World := {
  Arr : Type;       (* contents of an ndarray *)
  Num : Type;       (* a float *)
  Vec : Type;       (* contents of a parameter vector *)
  kwarg : Type;     (* one keyword argument *)
  klass : Type;     (* the concrete transform classes *)
  St : Type;        (* the parameters an instance holds *)

  (* numpy *)
  (** [x[...] = v]: the new contents of [x], [None] when [v] does not
      broadcast to the shape of [x]. *)
  np_setitem_ellipsis : Arr → Arr → option Arr;
  (** [a - b], [None] when the shapes do not broadcast. *)
  np_subtract : Arr → Arr → option Arr;
  (** [np.linalg.norm(a)]: the Frobenius norm. *)
  np_linalg_norm : Arr → Num;
  (** [a.shape[0]] and [a.shape[-1]] of a point array. *)
  shape_n_points : Arr → nat;
  shape_n_dims : Arr → nat;

  (* Transform *)
  (** The primitive [_apply] of a concrete class: a pure map on arrays. *)
  prim_apply : klass → St → list kwarg → Arr → res Arr;
  (** [n_dims] and [n_points] of an instance of a class that does not
      inherit them from [PureAlignment]: [n_dims] is [None], as [Transform]
      has it, unless the class overrides the property; [n_points] is [None]
      where the class has no such attribute. *)
  class_n_dims : klass → St → option nat;
  class_n_points : klass → St → option nat;

  (* ComposableTransform *)
  (** The property [composes_inplace_with] as the test [isinstance] makes
      with it; [None] for a class that is not a [ComposableTransform]. *)
  composes_inplace_with : klass → option (pytype klass → bool);
  (** [_compose_before_inplace]: the new parameters of [self], from its own
      and from the class and parameters of the other transform ([None] when
      that is not an instance of a concrete class). *)
  compose_before_hook : klass → St → option (klass * St) → res St;
  (** [_compose_after_inplace] where the class overrides it; [None] where
      it inherits the one of [VComposableTransform]. *)
  compose_after_hook : klass → option (St → option (klass * St) → res St);

  (* Vectorizable *)
  (** [as_vector()], [None] for a class that is not Vectorizable. *)
  as_vector : klass → St → option Vec;
  update_from_vector : klass → St → Vec → res St;
  (** [from_vector(vector)]: class and parameters of the new instance. *)
  from_vector : klass → St → Vec → res (klass * St);

  (* Alignable *)
  (** [_align] where the class overrides it: the parameters fitted to the
      source and target points. *)
  align_hook : klass → option (Arr → Arr → list kwarg → res St);
  (** [_target_setter]: the parameters refitted to the new target points. *)
  target_setter_hook : klass → St → Arr → Arr → res St;
  (** The parameters of an instance before any fitting. *)
  init_params : klass → St;

  (* PureAlignment *)
  (** The class inherits [n_dims] and [n_points] from [PureAlignment]. *)
  pure_alignment : klass → bool;
}.

Definition Kw `{World} := list kwarg.

(** An instance of a concrete transform class, with the two attributes
    [Alignable] adds. *)
Record inst `{World} := Inst {
  cls : klass;
  params : St;
  _source : val;
  _target : val;
}.
Arguments Inst {_} _ _ _ _.

(** ** The store *)

Record heap `{World} := Heap {
  arrays : gmap loc Arr;
  lists : gmap loc (list val);
  chains : gmap loc val;     (* TransformChain: the attribute [transforms] *)
  insts : gmap loc inst;
  clouds : gmap loc val;     (* point cloud: the attribute [points] *)
}.
Arguments Heap {_} _ _ _ _ _.

Section store.
Context `{W : World}.

Definition empty_heap : heap := Heap ∅ ∅ ∅ ∅ ∅.

Definition set_arrays (f : gmap loc Arr → gmap loc Arr) (h : heap) : heap :=
  Heap (f (arrays h)) (lists h) (chains h) (insts h) (clouds h).
Definition set_lists (f : gmap loc (list val) → gmap loc (list val)) (h : heap) : heap :=
  Heap (arrays h) (f (lists h)) (chains h) (insts h) (clouds h).
Definition set_chains (f : gmap loc val → gmap loc val) (h : heap) : heap :=
  Heap (arrays h) (lists h) (f (chains h)) (insts h) (clouds h).
Definition set_insts (f : gmap loc inst → gmap loc inst) (h : heap) : heap :=
  Heap (arrays h) (lists h) (chains h) (f (insts h)) (clouds h).
Definition set_clouds (f : gmap loc val → gmap loc val) (h : heap) : heap :=
  Heap (arrays h) (lists h) (chains h) (insts h) (f (clouds h)).

(** [h'] keeps every object of [h] as it is. *)
Definition heap_incl (h h' : heap) : Prop :=
  arrays h ⊆ arrays h' ∧ lists h ⊆ lists h' ∧ chains h ⊆ chains h' ∧
  insts h ⊆ insts h' ∧ clouds h ⊆ clouds h'.

(** [v] refers to no object of [h]. *)
Definition fresh_val (h : heap) (v : val) : Prop :=
  match v with
  | VNone => True
  | VArr l => arrays h !! l = None
  | VList l => lists h !! l = None
  | VChain l => chains h !! l = None
  | VInst l => insts h !! l = None
  | VCloud l => clouds h !! l = None
  end.

(** ** The monad: state, exceptions, and [None] when the fuel runs out or
    a reference dangles. *)
Definition M (A : Type) : Type := heap → option (res A * heap).

Definition ret {A} (a : A) : M A := λ h, Some (Ret a, h).
Definition raise {A} (e : exn) : M A := λ h, Some (Raise e, h).
Definition stuck {A} : M A := λ _, None.
Definition bind {A B} (m : M A) (f : A → M B) : M B :=
  λ h, match m h with
       | Some (Ret a, h') => f a h'
       | Some (Raise e, h') => Some (Raise e, h')
       | None => None
       end.
(** [try: m  except AttributeError: handler]. *)
Definition try_except_AttributeError {A} (m handler : M A) : M A :=
  λ h, match m h with
       | Some (Raise AttributeError, h') => handler h'
       | o => o
       end.
Definition lift_res {A} (r : res A) : M A := λ h, Some (r, h).
(** A numpy operation that raises [ValueError] on a shape mismatch. *)
Definition lift_np {A} (o : option A) : M A :=
  match o with Some a => ret a | None => raise ValueError end.
End store.

Declare Scope py_scope.
Delimit Scope py_scope with py.
Notation "'let!' x := m 'in' k" := (bind m (λ x, k))
  (at level 10, x name, m at level 100, k at level 200,
   format "'[v' 'let!'  x  :=  m  'in' '/' k ']'") : py_scope.
Notation "'run!' m 'in' k" := (bind m (λ _, k))
  (at level 10, m at level 100, k at level 200,
   format "'[v' 'run!'  m  'in' '/' k ']'") : py_scope.
Local Open Scope py_scope.

Section objects.
Context `{W : World}.

(** *** Reading, writing and allocating objects *)
Definition get_array (l : loc) : M Arr :=
  λ h, match arrays h !! l with Some a => Some (Ret a, h) | None => None end.
Definition get_list (l : loc) : M (list val) :=
  λ h, match lists h !! l with Some a => Some (Ret a, h) | None => None end.
Definition get_chain (l : loc) : M val :=
  λ h, match chains h !! l with Some a => Some (Ret a, h) | None => None end.
Definition get_inst (l : loc) : M inst :=
  λ h, match insts h !! l with Some a => Some (Ret a, h) | None => None end.
Definition get_cloud (l : loc) : M val :=
  λ h, match clouds h !! l with Some a => Some (Ret a, h) | None => None end.

Definition put_array (l : loc) (a : Arr) : M unit :=
  λ h, Some (Ret tt, set_arrays <[l:=a]> h).
Definition put_list (l : loc) (a : list val) : M unit :=
  λ h, Some (Ret tt, set_lists <[l:=a]> h).
Definition put_chain (l : loc) (a : val) : M unit :=
  λ h, Some (Ret tt, set_chains <[l:=a]> h).
Definition put_inst (l : loc) (a : inst) : M unit :=
  λ h, Some (Ret tt, set_insts <[l:=a]> h).
Definition put_cloud (l : loc) (a : val) : M unit :=
  λ h, Some (Ret tt, set_clouds <[l:=a]> h).

Definition new_array (a : Arr) : M val :=
  λ h, let l := fresh (dom (arrays h)) in Some (Ret (VArr l), set_arrays <[l:=a]> h).
Definition new_list (a : list val) : M val :=
  λ h, let l := fresh (dom (lists h)) in Some (Ret (VList l), set_lists <[l:=a]> h).
Definition new_chain (a : val) : M val :=
  λ h, let l := fresh (dom (chains h)) in Some (Ret (VChain l), set_chains <[l:=a]> h).
Definition new_inst (a : inst) : M val :=
  λ h, let l := fresh (dom (insts h)) in Some (Ret (VInst l), set_insts <[l:=a]> h).
Definition new_cloud (a : val) : M val :=
  λ h, let l := fresh (dom (clouds h)) in Some (Ret (VCloud l), set_clouds <[l:=a]> h).

(** [type(x)]. *)
Definition type_of (x : val) : M (pytype klass) :=
  match x with
  | VNone => ret TyNone
  | VArr _ => ret TyNdarray
  | VList _ => ret TyList
  | VChain _ => ret TyTransformChain
  | VInst i => let! o := get_inst i in ret (TyInst (cls o))
  | VCloud _ => ret TyPointCloud
  end.

(** [reduce(f, seq, init)]. *)
Fixpoint reduce {A B} (f : A → B → M A) (seq : list B) (init : A) : M A :=
  match seq with
  | [] => ret init
  | b :: seq => let! a := f init b in reduce f seq a
  end.
End objects.

(** ** [copy.deepcopy]

    The copy of an object is a new object whose attributes are the copies of
    the object's attributes; the memo maps every object met so far to its
    copy, so a shared object is copied once and a cycle is closed.  The
    parameters of an instance are a value and need no copy. *)
Section deepcopy.
Context `{W : World}.

Definition memo := list (val * val).

Fixpoint memo_get (m : memo) (x : val) : option val :=
  match m with
  | [] => None
  | (k, y) :: m => if decide (k = x) then Some y else memo_get m x
  end.

(** The elements of a list, copied from left to right. *)
Fixpoint deepcopy_items (copy : val → memo → heap → option (val * memo * heap))
    (items : list val) (m : memo) (h : heap) : option (list val * memo * heap) :=
  match items with
  | [] => Some ([], m, h)
  | a :: items =>
      '(a', m1, h1) ← copy a m h;
      '(items', m2, h2) ← deepcopy_items copy items m1 h1;
      Some (a' :: items', m2, h2)
  end.

Fixpoint deepcopy_memo (n : nat) (x : val) (m : memo) (h : heap)
    : option (val * memo * heap) :=
  match n with
  | 0 => None
  | S n =>
    match memo_get m x with
    | Some y => Some (y, m, h)
    | None =>
      match x with
      | VNone => Some (VNone, m, h)
      | VArr l =>
          a ← arrays h !! l;
          let l' := fresh (dom (arrays h)) in
          Some (VArr l', (x, VArr l') :: m, set_arrays <[l':=a]> h)
      | VList l =>
          items ← lists h !! l;
          let l' := fresh (dom (lists h)) in
          '(items', m', h') ← deepcopy_items (deepcopy_memo n) items
                                ((x, VList l') :: m) (set_lists <[l':=[]]> h);
          Some (VList l', m', set_lists <[l':=items']> h')
      | VChain c =>
          t ← chains h !! c;
          let c' := fresh (dom (chains h)) in
          '(t', m', h') ← deepcopy_memo n t
                            ((x, VChain c') :: m) (set_chains <[c':=VNone]> h);
          Some (VChain c', m', set_chains <[c':=t']> h')
      | VInst i =>
          o ← insts h !! i;
          let i' := fresh (dom (insts h)) in
          '(s', m1, h1) ← deepcopy_memo n (_source o) ((x, VInst i') :: m)
                            (set_insts <[i':=Inst (cls o) (params o) VNone VNone]> h);
          '(t', m2, h2) ← deepcopy_memo n (_target o) m1 h1;
          Some (VInst i', m2, set_insts <[i':=Inst (cls o) (params o) s' t']> h2)
      | VCloud c =>
          p ← clouds h !! c;
          let c' := fresh (dom (clouds h)) in
          '(p', m', h') ← deepcopy_memo n p
                            ((x, VCloud c') :: m) (set_clouds <[c':=VNone]> h);
          Some (VCloud c', m', set_clouds <[c':=p']> h')
      end
    end
  end.

(** [deepcopy(x)]. *)
Definition deepcopy (n : nat) (x : val) : M val :=
  λ h, '(y, _, h') ← deepcopy_memo n x [] h; Some (Ret y, h').
End deepcopy.

(** ** The classes of the module

    A method [m] of class [C] is [C_m]; [call_m] is the call [x.m(...)],
    resolved on the class of [x].  A concrete transform class has the methods
    of the interfaces it implements, with [n_dims] as its class has it, and
    a point cloud has [n_dims], [n_points], [points] and the two hooks of
    [Transformable]; neither has any other attribute. *)
Section classes.
Context `{W : World}.

(** *** list *)

(** [l.append(x)]. *)
Definition list_append (l x : val) : M val :=
  match l with
  | VList l => let! items := get_list l in
               run! put_list l (items ++ [x]) in ret VNone
  | _ => raise AttributeError
  end.

(** [l.insert(0, x)]. *)
Definition list_insert_0 (l x : val) : M val :=
  match l with
  | VList l => let! items := get_list l in
               run! put_list l (x :: items) in ret VNone
  | _ => raise AttributeError
  end.

(** *** TransformChain *)

(** [TransformChain(transforms)]: [self.transforms = transforms]. *)
Definition TransformChain_init (transforms : val) : M val :=
  new_chain transforms.

(** [self.transforms.append(transform)]. *)
Definition TransformChain__compose_before_inplace (self : loc) (transform : val) : M val :=
  let! transforms := get_chain self in
  list_append transforms transform.

(** [self.transforms.insert(0, transform)]. *)
Definition TransformChain__compose_after_inplace (self : loc) (transform : val) : M val :=
  let! transforms := get_chain self in
  list_insert_0 transforms transform.

(** [return Transform]. *)
Definition TransformChain_composes_inplace_with : pytype klass → bool :=
  is_Transform.

(** [reduce(lambda x_i, tr: tr._apply(x_i), self.transforms, x)]; the
    keyword arguments are not handed on.  [call tr x_i] is
    [tr._apply(x_i)].  Iterating over an array is not modelled. *)
Definition TransformChain__apply (call : val → val → M val)
    (self : loc) (x : val) (kwargs : Kw) : M val :=
  let! transforms := get_chain self in
  match transforms with
  | VList l => let! items := get_list l in
               reduce (λ x_i tr, call tr x_i) items x
  | VArr _ => stuck
  | _ => raise TypeError
  end.

(** *** [_apply]

    Modelled from the spec: [_apply] of a concrete class, abstract in the
    module, is a pure function that maps the contents of an array to the
    contents of a new array; what it does to another object is not
    modelled. *)
Definition prim__apply (self : loc) (x : val) (kwargs : Kw) : M val :=
  let! o := get_inst self in
  match x with
  | VArr l => let! a := get_array l in
              let! r := lift_res (prim_apply (cls o) (params o) kwargs a) in
              new_array r
  | _ => stuck
  end.

(** [tr._apply(x, **kwargs)]. *)
Fixpoint call__apply (n : nat) (tr x : val) (kwargs : Kw) : M val :=
  match n with
  | 0 => stuck
  | S n =>
    match tr with
    | VChain c => TransformChain__apply (λ tr x_i, call__apply n tr x_i []) c x kwargs
    | VInst i => prim__apply i x kwargs
    | _ => raise AttributeError
    end
  end.

(** *** Transformable *)

(** Modelled from the spec: [_transform_inplace] of a point cloud, which
    the module leaves abstract.  It applies the function to its points,
    stores the result as its points and returns itself. *)
Definition cloud__transform_inplace (self : loc) (transform : val → M val) : M val :=
  let! points := get_cloud self in
  let! r := transform points in
  run! put_cloud self r in
  ret (VCloud self).

(** [x._transform_inplace(transform)]. *)
Definition call__transform_inplace (x : val) (transform : val → M val) : M val :=
  match x with
  | VCloud c => cloud__transform_inplace c transform
  | _ => raise AttributeError
  end.

Definition Transformable__transform (n : nat) (self : loc) (transform : val → M val) : M val :=
  let! copy_of_self := deepcopy n (VCloud self) in
  run! call__transform_inplace copy_of_self transform in
  ret copy_of_self.

(** [x._transform(transform)]. *)
Definition call__transform (n : nat) (x : val) (transform : val → M val) : M val :=
  match x with
  | VCloud c => Transformable__transform n c transform
  | _ => raise AttributeError
  end.

(** [x[...] = v]. *)
Definition setitem_ellipsis (x v : val) : M val :=
  match x with
  | VArr l =>
      match v with
      | VArr r => let! ax := get_array l in
                  let! av := get_array r in
                  let! a := lift_np (np_setitem_ellipsis ax av) in
                  run! put_array l a in ret VNone
      | _ => stuck
      end
  | _ => raise TypeError
  end.

(** *** Transform *)

Definition Transform_apply_inplace (n : nat) (self x : val) (kwargs : Kw) : M val :=
  let transform := λ x_, call__apply n self x_ kwargs in
  try_except_AttributeError
    (run! call__transform_inplace x transform in ret VNone)
    (let! r := call__apply n self x kwargs in setitem_ellipsis x r).

Definition Transform_apply (n : nat) (self x : val) (kwargs : Kw) : M val :=
  let transform := λ x_, call__apply n self x_ kwargs in
  try_except_AttributeError
    (call__transform n x transform)
    (call__apply n self x kwargs).

(** [return TransformChain([self, transform])]. *)
Definition Transform_compose_before (self transform : val) : M val :=
  let! l := new_list [self; transform] in
  TransformChain_init l.

(** [return TransformChain([transform, self])]. *)
Definition Transform_compose_after (self transform : val) : M val :=
  let! l := new_list [transform; self] in
  TransformChain_init l.

(** *** ComposableTransform *)

(** [self.composes_inplace_with]. *)
Definition call_composes_inplace_with (self : val) : M (pytype klass → bool) :=
  match self with
  | VChain _ => ret TransformChain_composes_inplace_with
  | VInst i => let! o := get_inst i in
               match composes_inplace_with (cls o) with
               | Some classes => ret classes
               | None => raise AttributeError
               end
  | _ => raise AttributeError
  end.

(** [isinstance(transform, self.composes_inplace_with)]. *)
Definition isinstance_composes (self transform : val) : M bool :=
  let! classes := call_composes_inplace_with self in
  let! ty := type_of transform in
  ret (classes ty).

(** What a hook of a concrete class sees of the other transform. *)
Definition seen (transform : val) : M (option (klass * St)) :=
  match transform with
  | VInst j => let! o := get_inst j in ret (Some (cls o, params o))
  | _ => ret None
  end.

(** Modelled from the spec: a hook of a concrete class gives [self] the
    parameters of the composed transform and changes nothing else. *)
Definition inst_hook (hook : St → option (klass * St) → res St)
    (self : loc) (transform : val) : M val :=
  let! o := get_inst self in
  let! t := seen transform in
  let! s := lift_res (hook (params o) t) in
  run! put_inst self (Inst (cls o) s (_source o) (_target o)) in
  ret VNone.

(** [self._compose_before_inplace(transform)]. *)
Definition call__compose_before_inplace (self transform : val) : M val :=
  match self with
  | VChain c => TransformChain__compose_before_inplace c transform
  | VInst i => let! o := get_inst i in
               inst_hook (compose_before_hook (cls o)) i transform
  | _ => raise AttributeError
  end.

Definition ComposableTransform_compose_before_inplace (self transform : val) : M val :=
  let! b := isinstance_composes self transform in
  if b : bool then
    run! call__compose_before_inplace self transform in ret VNone
  else raise ValueError.

(** *** Vectorizable, as the module uses it *)

(** Modelled from the spec: [Vectorizable] is defined outside the module;
    [as_vector()] encodes the parameters, [update_from_vector(vector)] gives
    [self] the parameters the vector encodes, [from_vector(vector)] returns
    a new instance.

    [x.as_vector()]. *)
Definition call_as_vector (x : val) : M Vec :=
  match x with
  | VInst i => let! o := get_inst i in
               match as_vector (cls o) (params o) with
               | Some v => ret v
               | None => raise AttributeError
               end
  | _ => raise AttributeError
  end.

(** [self.update_from_vector(vector)]. *)
Definition call_update_from_vector (self : loc) (vector : Vec) : M val :=
  let! o := get_inst self in
  let! s := lift_res (update_from_vector (cls o) (params o) vector) in
  run! put_inst self (Inst (cls o) s (_source o) (_target o)) in
  ret VNone.

(** [self.from_vector(vector)]: a new instance, not an alignment. *)
Definition call_from_vector (self : loc) (vector : Vec) : M val :=
  let! o := get_inst self in
  let! ks := lift_res (from_vector (cls o) (params o) vector) in
  new_inst (Inst ks.1 ks.2 VNone VNone).

(** *** VComposableTransform *)

Definition VComposableTransform_compose_before_from_vector_inplace
    (self : loc) (vector : Vec) : M val :=
  let! b := call_from_vector self vector in
  ComposableTransform_compose_before_inplace (VInst self) b.

(** The vector [as_vector()] returns is a value here, so the [.copy()] of
    the source shows only in that [self_vector] is read before the
    update. *)
Definition VComposableTransform__compose_after_inplace
    (self : loc) (transform : val) : M val :=
  let! self_vector := call_as_vector (VInst self) in
  let! v := call_as_vector transform in
  run! call_update_from_vector self v in
  VComposableTransform_compose_before_from_vector_inplace self self_vector.

(** *** ComposableTransform, continued *)

(** [self._compose_after_inplace(transform)]. *)
Definition call__compose_after_inplace (self transform : val) : M val :=
  match self with
  | VChain c => TransformChain__compose_after_inplace c transform
  | VInst i => let! o := get_inst i in
               match compose_after_hook (cls o) with
               | Some hook => inst_hook hook i transform
               | None => VComposableTransform__compose_after_inplace i transform
               end
  | _ => raise AttributeError
  end.

Definition ComposableTransform_compose_after_inplace (self transform : val) : M val :=
  let! b := isinstance_composes self transform in
  if b : bool then
    run! call__compose_after_inplace self transform in ret VNone
  else raise ValueError.

Definition VComposableTransform_compose_after_from_vector_inplace
    (self : loc) (vector : Vec) : M val :=
  let! b := call_from_vector self vector in
  ComposableTransform_compose_after_inplace (VInst self) b.

Definition ComposableTransform__compose_before (n : nat) (self transform : val) : M val :=
  let! new_transform := deepcopy n self in
  run! call__compose_before_inplace new_transform transform in
  ret new_transform.

Definition ComposableTransform__compose_after (n : nat) (self transform : val) : M val :=
  let! new_transform := deepcopy n self in
  run! call__compose_after_inplace new_transform transform in
  ret new_transform.

Definition ComposableTransform_compose_before (n : nat) (self transform : val) : M val :=
  let! b := isinstance_composes self transform in
  if b : bool then ComposableTransform__compose_before n self transform
  else Transform_compose_before self transform.

Definition ComposableTransform_compose_after (n : nat) (self transform : val) : M val :=
  let! b := isinstance_composes self transform in
  if b : bool then ComposableTransform__compose_after n self transform
  else Transform_compose_after self transform.
End classes.

Section alignment.
Context `{W : World}.

(** *** The point-cloud attributes the module reads *)

(** [x.points]. *)
Definition call_points (x : val) : M val :=
  match x with
  | VCloud c => get_cloud c
  | _ => raise AttributeError
  end.

(** The contents of the point array of [x]. *)
Definition points_array (x : val) : M Arr :=
  let! p := call_points x in
  match p with
  | VArr l => get_array l
  | _ => raise AttributeError
  end.

(** *** [n_dims] and [n_points]

    [Transform.n_dims]: [return None]. *)
Definition Transform_n_dims : M (option nat) := ret None.

(** [x.n_dims], an integer or [None], found within [n] steps from a
    [PureAlignment] to its source.  A point cloud has the last dimension of
    its points; a chain has the [n_dims] of [Transform]; an instance of a
    class that inherits [PureAlignment] has [self.source.n_dims], any other
    instance what its class gives; nothing else has the attribute. *)
Fixpoint n_dims_within (n : nat) (x : val) : M (option nat) :=
  match x with
  | VCloud _ => let! a := points_array x in ret (Some (shape_n_dims a))
  | VChain _ => Transform_n_dims
  | VInst i =>
      let! o := get_inst i in
      if pure_alignment (cls o) then
        match n with
        | 0 => stuck
        | S n => n_dims_within n (_source o)
        end
      else ret (class_n_dims (cls o) (params o))
  | _ => raise AttributeError
  end.

(** [x.n_points]: a point cloud has the first dimension of its points, an
    instance of a class that inherits [PureAlignment] has
    [self.source.n_points], any other instance what its class gives, if
    anything; a chain, as every [Transform], has no such attribute. *)
Fixpoint n_points_within (n : nat) (x : val) : M nat :=
  match x with
  | VCloud _ => let! a := points_array x in ret (shape_n_points a)
  | VInst i =>
      let! o := get_inst i in
      if pure_alignment (cls o) then
        match n with
        | 0 => stuck
        | S n => n_points_within n (_source o)
        end
      else match class_n_points (cls o) (params o) with
           | Some p => ret p
           | None => raise AttributeError
           end
  | _ => raise AttributeError
  end.

(** [x.n_dims] and [x.n_points].  A walk from source to source that ends
    does so within as many steps as the store has instances. *)
Definition call_n_dims (x : val) : M (option nat) :=
  λ h, n_dims_within (size (insts h)) x h.
Definition call_n_points (x : val) : M nat :=
  λ h, n_points_within (size (insts h)) x h.

(** [Transform.n_dims_output]: [return self.n_dims]. *)
Definition Transform_n_dims_output (self : val) : M (option nat) :=
  call_n_dims self.

(** *** Alignable *)

Definition Alignable___init__ (self : loc) : M val :=
  let! o := get_inst self in
  run! put_inst self (Inst (cls o) (params o) VNone VNone) in
  ret VNone.

Definition Alignable__verify_source_and_target (source target : val) : M bool :=
  let! sd := call_n_dims source in
  let! td := call_n_dims target in
  if negb (bool_decide (sd = td)) then raise ValueError
  else
    let! sp := call_n_points source in
    let! tp := call_n_points target in
    if negb (sp =? tp) then raise ValueError
    else ret true.

(** Modelled from the spec: [cls._align(source, target, **kwargs)] of a
    class that overrides it, which fits the parameters to the two point
    arrays and returns a bound transform.  For a class that does not, the
    body of [Alignable._align] is [pass]. *)
Definition call__align (c : klass) (source target : val) (kwargs : Kw) : M val :=
  match align_hook c with
  | None => ret VNone
  | Some fit =>
      let! sa := points_array source in
      let! ta := points_array target in
      let! s := lift_res (fit sa ta kwargs) in
      new_inst (Inst c s source target)
  end.

Definition Alignable_align (c : klass) (source target : val) (kwargs : Kw) : M val :=
  run! Alignable__verify_source_and_target source target in
  call__align c source target kwargs.

Definition Alignable_source (self : loc) : M val :=
  let! o := get_inst self in ret (_source o).

Definition Alignable_target (self : loc) : M val :=
  let! o := get_inst self in ret (_target o).

Definition is_not_None (v : val) : bool :=
  match v with VNone => false | _ => true end.

Definition Alignable_is_alignment_transform (self : loc) : M bool :=
  let! s := Alignable_source self in
  if is_not_None s then
    let! t := Alignable_target self in ret (is_not_None t)
  else ret false.

(** Modelled from the spec: [_target_setter], abstract in the module,
    refits the parameters to the source and the new target and stores the
    new target as the current one. *)
Definition call__target_setter (self : loc) (new_target : val) : M val :=
  let! o := get_inst self in
  let! sa := points_array (_source o) in
  let! ta := points_array new_target in
  let! s := lift_res (target_setter_hook (cls o) (params o) sa ta) in
  run! put_inst self (Inst (cls o) s (_source o) new_target) in
  ret VNone.

(** [self.target = value]. *)
Definition Alignable_target_setter (self : loc) (value : val) : M val :=
  let! b := Alignable_is_alignment_transform self in
  if negb b then raise NotImplementedError
  else
    let! vd := call_n_dims value in
    let! t := Alignable_target self in
    let! td := call_n_dims t in
    if negb (bool_decide (vd = td)) then raise ValueError
    else
      let! vp := call_n_points value in
      let! t := Alignable_target self in
      let! tp := call_n_points t in
      if negb (vp =? tp) then raise ValueError
      else call__target_setter self value.

Definition Alignable_aligned_source (n : nat) (self : loc) : M val :=
  let! b := Alignable_is_alignment_transform self in
  if negb b then raise ValueError
  else
    let! s := Alignable_source self in
    Transform_apply n (VInst self) s [].

(** [a - b] on two arrays. *)
Definition subtract (a b : val) : M Arr :=
  match a, b with
  | VArr la, VArr lb => let! xa := get_array la in
                        let! xb := get_array lb in
                        lift_np (np_subtract xa xb)
  | _, _ => stuck
  end.

Definition Alignable_alignment_error (n : nat) (self : loc) : M Num :=
  let! t := Alignable_target self in
  let! tp := call_points t in
  let! a := Alignable_aligned_source n self in
  let! ap := call_points a in
  let! d := subtract tp ap in
  ret (np_linalg_norm d).

Definition Alignable_from_target (n : nat) (self : loc) (target : val) : M val :=
  let! new_transform := deepcopy n (VInst self) in
  match new_transform with
  | VInst i => run! Alignable_target_setter i target in ret new_transform
  | _ => stuck
  end.

Definition Alignable__sync_target (n : nat) (self : loc) : M val :=
  let! b := Alignable_is_alignment_transform self in
  if b : bool then
    let! s := Alignable_source self in
    let! t := Transform_apply n (VInst self) s [] in
    Alignable_target_setter self t
  else ret VNone.

(** *** PureAlignment *)

Definition PureAlignment___init__ (self : loc) (source target : val) : M val :=
  run! Alignable___init__ self in
  let! b := Alignable__verify_source_and_target source target in
  if b : bool then
    let! o := get_inst self in
    run! put_inst self (Inst (cls o) (params o) source (_target o)) in
    let! o := get_inst self in
    run! put_inst self (Inst (cls o) (params o) (_source o) target) in
    ret VNone
  else ret VNone.

(** [cls(source, target, **kwargs)] for a class that inherits the
    constructor of [PureAlignment], which takes no keyword argument. *)
Definition PureAlignment_new (c : klass) (source target : val) (kwargs : Kw) : M val :=
  match kwargs with
  | [] =>
      let! self := new_inst (Inst c (init_params c) VNone VNone) in
      match self with
      | VInst i => run! PureAlignment___init__ i source target in ret self
      | _ => stuck
      end
  | _ :: _ => raise TypeError
  end.

Definition PureAlignment_n_dims (self : loc) : M (option nat) :=
  let! s := Alignable_source self in call_n_dims s.

Definition PureAlignment_n_points (self : loc) : M nat :=
  let! s := Alignable_source self in call_n_points s.

(** [return cls(source, target, **kwargs)]. *)
Definition PureAlignment_align (c : klass) (source target : val) (kwargs : Kw) : M val :=
  PureAlignment_new c source target kwargs.
End alignment.

(** ** Notions the statements use *)
Section notions.
Context `{W : World}.

(** [x] has the hooks of [Transformable]. *)
Definition has_transform_hook (x : val) : bool :=
  match x with VCloud _ => true | _ => false end.

(** [x] is a transform of the store [h], of type [ty]. *)
Definition transform_in (h : heap) (x : val) (ty : pytype klass) : Prop :=
  type_of x h = Some (Ret ty, h) ∧ is_Transform ty = true.

(** [TransformChain([x1, ..., xn])]: the chain over a new list. *)
Definition chain_of (items : list val) : M val :=
  let! l := new_list items in TransformChain_init l.

(** [x] is a point cloud of the store [h] whose point array holds [a]. *)
Definition cloud_at (h : heap) (x : val) (a : Arr) : Prop :=
  ∃ c p, x = VCloud c ∧ clouds h !! c = Some (VArr p) ∧ arrays h !! p = Some a.

(** One primitive mapping after another. *)
Definition res_bind {A B} (r : res A) (f : A → res B) : res B :=
  match r with Ret a => f a | Raise e => Raise e end.

(** What the default [_compose_after_inplace] of [VComposableTransform]
    relies on in a class [k], in the words of the docstrings: the class is
    vectorizable; [update_from_vector] with the vector of a transform the
    class composes with makes [self] apply as that transform does;
    [from_vector] with the vector of an instance builds a transform the
    class composes with and that applies as the instance does; and after
    [a._compose_before_inplace(b)], [a.apply(p) == b.apply(a_orig.apply(p))]. *)
Record vcomposable_laws (k : klass) : Prop := {
  law_as_vector : ∀ s, is_Some (as_vector k s);
  law_update_from_vector : ∀ classes s k' s' v,
    composes_inplace_with k = Some classes → classes (TyInst k') = true →
    as_vector k' s' = Some v →
    ∃ s1, update_from_vector k s v = Ret s1 ∧
          ∀ kw a, prim_apply k s1 kw a = prim_apply k' s' kw a;
  law_from_vector : ∀ s0 s v,
    as_vector k s = Some v →
    ∃ k2 s2 classes,
      from_vector k s0 v = Ret (k2, s2) ∧
      composes_inplace_with k = Some classes ∧ classes (TyInst k2) = true ∧
      ∀ kw a, prim_apply k2 s2 kw a = prim_apply k s kw a;
  law_compose_before : ∀ classes s k2 s2,
    composes_inplace_with k = Some classes → classes (TyInst k2) = true →
    ∃ s3, compose_before_hook k s (Some (k2, s2)) = Ret s3 ∧
          ∀ kw a, prim_apply k s3 kw a =
                  res_bind (prim_apply k s kw a) (prim_apply k2 s2 kw);
}.

(** The transform at [i] is bound to a source and a target. *)
Definition bound (i : loc) (h : heap) : Prop :=
  ∃ o, insts h !! i = Some o ∧
       is_not_None (_source o) = true ∧ is_not_None (_target o) = true.

(** The two point arrays have the same dimensions and as many points. *)
Definition same_dims_and_points (a b : Arr) : bool :=
  (shape_n_dims a =? shape_n_dims b) && (shape_n_points a =? shape_n_points b).

(** [h'] is [h] with more arrays: the only thing [_apply] does. *)
Definition more_arrays (h h' : heap) : Prop :=
  arrays h ⊆ arrays h' ∧ lists h' = lists h ∧ chains h' = chains h ∧
  insts h' = insts h ∧ clouds h' = clouds h.

(** [h'] is [h] but for the instance at [i] and for new instances. *)
Definition touches_inst (i : loc) (h h' : heap) : Prop :=
  arrays h' = arrays h ∧ lists h' = lists h ∧ chains h' = chains h ∧
  clouds h' = clouds h ∧
  ∀ k o, k ≠ i → insts h !! k = Some o → insts h' !! k = Some o.

(** Every run of [m] relates the store before to the store after. *)
Definition preserves {A} (P : heap → heap → Prop) (m : M A) : Prop :=
  ∀ h r h', m h = Some (r, h') → P h h'.

(** Whatever [m] returns satisfies [Q]. *)
Definition returns {A} (Q : A → Prop) (m : M A) : Prop :=
  ∀ h a h', m h = Some (Ret a, h') → Q a.

(** [v] is [None] or refers to an object of [h]. *)
Definition val_in (h : heap) (v : val) : Prop :=
  match v with
  | VNone => True
  | VArr l => is_Some (arrays h !! l)
  | VList l => is_Some (lists h !! l)
  | VChain l => is_Some (chains h !! l)
  | VInst l => is_Some (insts h !! l)
  | VCloud l => is_Some (clouds h !! l)
  end.

(** No object of [h] refers to an object that [h] does not hold: what every
    store of a Python program is. *)
Definition closed (h : heap) : Prop :=
  (∀ l items, lists h !! l = Some items → Forall (val_in h) items) ∧
  (∀ c t, chains h !! c = Some t → val_in h t) ∧
  (∀ i o, insts h !! i = Some o → val_in h (_source o) ∧ val_in h (_target o)) ∧
  (∀ c p, clouds h !! c = Some p → val_in h p).

(** The references to the objects of [h]. *)
Definition all_objects (h : heap) : list val :=
  (VArr <$> elements (dom (arrays h))) ++
  (VList <$> elements (dom (lists h))) ++
  (VChain <$> elements (dom (chains h))) ++
  (VInst <$> elements (dom (insts h))) ++
  (VCloud <$> elements (dom (clouds h))).

(** [m'] has every outcome [m] has. *)
Definition extends {A} (m m' : M A) : Prop :=
  ∀ h o, m h = Some o → m' h = Some o.

(** Every copy the memo holds is a new object. *)
Definition memo_fresh (h0 : heap) (m : memo) : Prop :=
  Forall (λ kv, fresh_val h0 kv.2) m.

(** The memo of a copy under way: its keys are distinct objects of the
    store the copy started from. *)
Definition memo_ok (h0 : heap) (m : memo) : Prop :=
  NoDup m.*1 ∧ ∀ k, k ∈ m.*1 → k ∈ all_objects h0.

(** With fuel [n], [copy] returns on every object of [h0], from every memo
    that leaves fewer than [n] objects uncopied. *)
Definition copy_returns (h0 : heap) (n : nat)
    (copy : val → memo → heap → option (val * memo * heap)) : Prop :=
  ∀ x m h,
    heap_incl h0 h → memo_ok h0 m → val_in h0 x →
    length (all_objects h0) < n + length m →
    ∃ y m' h', copy x m h = Some (y, m', h') ∧
               heap_incl h0 h' ∧ memo_ok h0 m' ∧ length m ≤ length m'.

(** What holds of a copy made from the store [h0] on. *)
Definition copies_well (h0 : heap)
    (copy : val → memo → heap → option (val * memo * heap)) : Prop :=
  ∀ x m h y m' h',
    heap_incl h0 h → memo_fresh h0 m → copy x m h = Some (y, m', h') →
    heap_incl h0 h' ∧ memo_fresh h0 m' ∧ fresh_val h0 y.
End notions.

(** ** A small world to run the module in

    Integer point arrays, and two concrete classes: translations, which are
    pure alignments, vectorizable, compose with one another natively through
    the [VComposableTransform] default and can be fitted to a target; and
    scalings, which implement [_apply] only. *)
Module Toy.
Inductive toy_klass := Translation | Scale.

#[global] Instance toy_klass_eq_dec : EqDecision toy_klass.
Proof. solve_decision. Defined.

Definition toy_shape (a : list (list Z)) : nat * nat :=
  (length a, match a with [] => 0 | row :: _ => length row end).

Definition same_shape (a b : list (list Z)) : bool :=
  bool_decide (toy_shape a = toy_shape b).

Definition add_row (s row : list Z) : list Z := zip_with Z.add row s.
Definition mul_row (s row : list Z) : list Z := zip_with Z.mul row s.

Definition toy_apply (k : toy_klass) (s : list Z) (kw : list nat)
    (a : list (list Z)) : res (list (list Z)) :=
  match k with
  | Translation => Ret (map (add_row s) a)
  | Scale => Ret (map (mul_row s) a)
  end.

Definition toy_composes (k : toy_klass) : option (pytype toy_klass → bool) :=
  match k with
  | Translation => Some (λ ty, bool_decide (ty = TyInst Translation))
  | Scale => None
  end.

Definition toy_compose_before (k : toy_klass) (s : list Z)
    (t : option (toy_klass * list Z)) : res (list Z) :=
  match k, t with
  | Translation, Some (Translation, s') => Ret (zip_with Z.add s s')
  | _, _ => Raise TypeError
  end.

Definition toy_norm (a : list (list Z)) : Z :=
  Z.sqrt (foldr Z.add 0%Z (map (λ x, (x * x)%Z) (concat a))).

Definition toy_fit (sa ta : list (list Z)) : list Z :=
  match sa, ta with
  | s :: _, t :: _ => zip_with Z.sub t s
  | _, _ => []
  end.

#[global] Instance toy : World := {|
  Arr := list (list Z);
  Num := Z;
  Vec := list Z;
  kwarg := nat;
  klass := toy_klass;
  St := list Z;
  np_setitem_ellipsis := λ x v, if same_shape x v then Some v else None;
  np_subtract := λ a b, if same_shape a b
                        then Some (zip_with (zip_with Z.sub) a b) else None;
  np_linalg_norm := toy_norm;
  shape_n_points := λ a, (toy_shape a).1;
  shape_n_dims := λ a, (toy_shape a).2;
  prim_apply := toy_apply;
  class_n_dims := λ _ _, None;
  class_n_points := λ _ _, None;
  composes_inplace_with := toy_composes;
  compose_before_hook := toy_compose_before;
  compose_after_hook := λ _, None;
  as_vector := λ k s, match k with Translation => Some s | Scale => None end;
  update_from_vector := λ _ _ v, Ret v;
  from_vector := λ k _ v, Ret (k, v);
  align_hook := λ k, match k with
                     | Translation => Some (λ sa ta _, Ret (toy_fit sa ta))
                     | Scale => None
                     end;
  target_setter_hook := λ _ _ sa ta, Ret (toy_fit sa ta);
  init_params := λ _, [];
  pure_alignment := λ k, match k with Translation => true | Scale => false end;
|}.

(** A store with three translations, the last one an alignment of the
    first point cloud to the second, a scaling, and three point clouds:
    two of two points in two dimensions, one of one point in three. *)
Definition h0 : heap :=
  Heap (<[4%positive := [[0; 0; 0]]%Z]>
          (<[3%positive := [[5; 5]; [7; 7]]%Z]>
             (<[2%positive := [[1; 1]; [3; 3]]%Z]>
                (<[1%positive := [[0; 0]; [2; 2]]%Z]> ∅))))
       ∅ ∅
       (<[4%positive := Inst Translation [1; 1]%Z (VCloud 1%positive) (VCloud 2%positive)]>
          (<[3%positive := Inst Scale [2; 2]%Z VNone VNone]>
             (<[2%positive := Inst Translation [10; 20]%Z VNone VNone]>
                (<[1%positive := Inst Translation [1; 2]%Z VNone VNone]> ∅))))
       (<[3%positive := VArr 4%positive]>
          (<[2%positive := VArr 3%positive]> (<[1%positive := VArr 2%positive]> ∅))).
End Toy.

(** ** Notions the further properties use *)
Section more_notions.
Context `{W : World}.

(** The transforms of a list applied from left to right, as a chain over
    the list applies them. *)
Definition apply_items (n : nat) (items : list val) (x : val) : M val :=
  reduce (λ x_i tr, call__apply n tr x_i []) items x.

(** The instance at [i] is of a class that inherits [PureAlignment], and its
    source is [s]. *)
Definition pa_source (h : heap) (i : loc) (s : val) : Prop :=
  ∃ o, insts h !! i = Some o ∧ pure_alignment (cls o) = true ∧ _source o = s.

(** From [x], going from each instance of a class that inherits
    [PureAlignment] to its source, one arrives at [y] through the instances
    [l]. *)
Inductive walk (h : heap) : val → list loc → val → Prop :=
  | walk_here x : walk h x [] x
  | walk_step i s l y :
      pa_source h i s → walk h s l y → walk h (VInst i) (i :: l) y.

(** [x] is no such instance: the walk ends there. *)
Definition walk_end (h : heap) (x : val) : Prop :=
  ∀ i s, x = VInst i → ¬ pa_source h i s.

(** The transform at [i] holds a source and a target that are point clouds
    of the same dimensions with as many points. *)
Definition compatible (i : loc) (h : heap) : Prop :=
  ∃ o sa ta, insts h !! i = Some o ∧ cloud_at h (_source o) sa ∧
             cloud_at h (_target o) ta ∧ same_dims_and_points sa ta = true.

(** [h'] is [h] but for the object [x] and for new objects. *)
Definition writes_only (x : val) (h h' : heap) : Prop :=
  (∀ l a, VArr l ≠ x → arrays h !! l = Some a → arrays h' !! l = Some a) ∧
  lists h ⊆ lists h' ∧ chains h ⊆ chains h' ∧ insts h ⊆ insts h' ∧
  (∀ c p, VCloud c ≠ x → clouds h !! c = Some p → clouds h' !! c = Some p).

(** What the memo of a copy under way holds of the point clouds and the
    arrays of the store [h0] the copy started from: copies, in the store
    [h], with the same contents. *)
Definition memo_keeps_clouds (h0 h : heap) (m : memo) : Prop :=
  ∀ x y, memo_get m x = Some y →
    (∀ a, cloud_at h0 x a → cloud_at h y a) ∧
    (∀ l a, x = VArr l → arrays h0 !! l = Some a →
       ∃ l', y = VArr l' ∧ arrays h !! l' = Some a).

(** [x] is an instance of a concrete class. *)
Definition is_instance (h : heap) (x : val) : Prop :=
  ∃ i, x = VInst i ∧ is_Some (insts h !! i).

(** Every instance of [h] is in [h'] an instance of the same class with the
    same parameters. *)
Definition keeps_params (h h' : heap) : Prop :=
  ∀ j o, insts h !! j = Some o →
    ∃ o', insts h' !! j = Some o' ∧ cls o' = cls o ∧ params o' = params o.

(** If [x] is an instance of [h0], then [y] is in [h] an instance of its
    class with its parameters. *)
Definition inst_copy (h0 h : heap) (x y : val) : Prop :=
  ∀ i o, x = VInst i → insts h0 !! i = Some o →
    ∃ j o', y = VInst j ∧ insts h !! j = Some o' ∧
            cls o' = cls o ∧ params o' = params o.

Definition memo_keeps_params (h0 h : heap) (m : memo) : Prop :=
  ∀ x y, memo_get m x = Some y → inst_copy h0 h x y.

(** What holds of the class and the parameters in a copy made from the
    store [h0] on. *)
Definition copies_params (h0 : heap)
    (copy : val → memo → heap → option (val * memo * heap)) : Prop :=
  ∀ x m h y m' h',
    keeps_params h0 h → memo_keeps_params h0 h m →
    copy x m h = Some (y, m', h') →
    keeps_params h h' ∧ memo_keeps_params h0 h' m' ∧ inst_copy h0 h' x y.
End more_notions.

(** ** More stores of the small world *)
Module ToyStores.
(** The store of the small world with a chain over the first translation
    and the scaling. *)
Definition h_chain : @heap Toy.toy :=
  set_chains <[1%positive:=VList 1%positive]>
    (set_lists <[1%positive:=[VInst 1%positive; VInst 3%positive]]> Toy.h0).

(** The same with an array in the middle of the list. *)
Definition h_broken : @heap Toy.toy :=
  set_chains <[1%positive:=VList 1%positive]>
    (set_lists <[1%positive:=[VInst 1%positive; VArr 1%positive; VInst 3%positive]]>
       Toy.h0).
End ToyStores.

(** ** A second small world

    Numbers for arrays, and one class: the shift by a number up to ten,
    vectorizable, that composes with itself through the default of
    [VComposableTransform] and refuses a composition that would exceed
    ten. *)
Module Capped.
Definition capped_compose_before (s : nat) (t : option (unit * nat)) : res nat :=
  match t with
  | Some (_, s') => if s + s' <=? 10 then Ret (s + s') else Raise ValueError
  | None => Raise TypeError
  end.

Definition capped : World := {|
  Arr := nat;
  Num := nat;
  Vec := nat;
  kwarg := unit;
  klass := unit;
  St := nat;
  np_setitem_ellipsis := λ _ v, Some v;
  np_subtract := λ a b, Some (a - b);
  np_linalg_norm := λ a, a;
  shape_n_points := λ _, 1;
  shape_n_dims := λ _, 1;
  prim_apply := λ _ s _ a, Ret (a + s);
  class_n_dims := λ _ _, None;
  class_n_points := λ _ _, None;
  composes_inplace_with := λ _, Some (λ ty, bool_decide (ty = TyInst ()));
  compose_before_hook := λ _, capped_compose_before;
  compose_after_hook := λ _, None;
  as_vector := λ _ s, Some s;
  update_from_vector := λ _ _ v, Ret v;
  from_vector := λ _ _ v, Ret ((), v);
  align_hook := λ _, None;
  target_setter_hook := λ _ s _ _, Ret s;
  init_params := λ _, 0;
  pure_alignment := λ _, false;
|}.

(** Two shifts, by three and by nine. *)
Definition h0 : @heap capped :=
  Heap ∅ ∅ ∅
       (<[2%positive := @Inst capped () 9 VNone VNone]>
          (<[1%positive := @Inst capped () 3 VNone VNone]> ∅))
       ∅.
End Capped.

(** * Properties *)

(** ** The monad and the store *)
Section monad_facts.
Context `{W : World}.

Lemma bind_ret_r {A} (m : M A) h : bind m ret h = m h.
Proof. unfold bind, ret. destruct (m h) as [[[a|e] h']|]; done. Qed.

Lemma bind_inv {A B} (m : M A) (f : A → M B) h r h' :
  bind m f h = Some (r, h') →
  (∃ a h1, m h = Some (Ret a, h1) ∧ f a h1 = Some (r, h')) ∨
  (∃ e, m h = Some (Raise e, h') ∧ r = Raise e).
Proof.
  unfold bind. destruct (m h) as [[[a|e] h1]|]; intros H; [| |done].
  - left. eauto.
  - right. exists e. by simplify_eq.
Qed.

(** Two continuations that agree on what [m] returns. *)
Lemma bind_ext {A B} (m : M A) (f g : A → M B) h :
  (∀ a h1, m h = Some (Ret a, h1) → f a h1 = g a h1) →
  bind m f h = bind m g h.
Proof.
  intros Hfg. unfold bind. destruct (m h) as [[[a|e] h1]|]; auto.
Qed.

Lemma fresh_lookup {V} (m : gmap loc V) : m !! fresh (dom m) = None.
Proof. apply not_elem_of_dom, is_fresh. Qed.

Lemma insert_fresh_subseteq {V} (m : gmap loc V) v :
  m ⊆ <[fresh (dom m) := v]> m.
Proof. apply insert_subseteq, fresh_lookup. Qed.

#[global] Instance heap_incl_preorder : PreOrder heap_incl.
Proof.
  split.
  - intros h. by repeat split.
  - intros h1 h2 h3 (?&?&?&?&?) (?&?&?&?&?).
    repeat split; etrans; eauto.
Qed.

#[global] Instance more_arrays_preorder : PreOrder more_arrays.
Proof.
  split.
  - intros h. by repeat split.
  - intros h1 h2 h3 (?&?&?&?&?) (?&?&?&?&?).
    repeat split; [etrans; eauto|congruence..].
Qed.

Lemma more_arrays_incl h h' : more_arrays h h' → heap_incl h h'.
Proof.
  intros (?&Hl&Hc&Hi&Hp). unfold heap_incl.
  rewrite Hl, Hc, Hi, Hp. by repeat split.
Qed.

Section preserves.
Context (P : heap → heap → Prop) `{!PreOrder P}.

Lemma preserves_ret {A} (a : A) : preserves P (ret a).
Proof. intros h r h' [= <- <-]. reflexivity. Qed.
Lemma preserves_raise {A} e : preserves P (raise (A:=A) e).
Proof. intros h r h' [= <- <-]. reflexivity. Qed.
Lemma preserves_stuck {A} : preserves P (stuck (A:=A)).
Proof. intros h r h' [=]. Qed.
Lemma preserves_lift_res {A} (x : res A) : preserves P (lift_res x).
Proof. intros h r h' [= <- <-]. reflexivity. Qed.
Lemma preserves_lift_np {A} (x : option A) : preserves P (lift_np x).
Proof. destruct x; [apply preserves_ret|apply preserves_raise]. Qed.

Lemma preserves_bind {A B} (m : M A) (f : A → M B) :
  preserves P m → (∀ a, preserves P (f a)) → preserves P (bind m f).
Proof.
  intros Hm Hf h r h' [(a&h1&H1&H2)|(e&H1&_)]%bind_inv.
  - etrans; [eapply Hm|eapply Hf]; eauto.
  - eapply Hm; eauto.
Qed.

Lemma preserves_try {A} (m handler : M A) :
  preserves P m → preserves P handler →
  preserves P (try_except_AttributeError m handler).
Proof.
  intros Hm Hh h r h'. unfold try_except_AttributeError.
  destruct (m h) as [[[a|e] h1]|] eqn:E; [| |done].
  - intros [= <- <-]. eapply Hm; eauto.
  - destruct e; try (intros [= <- <-]; eapply Hm; eauto).
    intros H. etrans; [eapply Hm|eapply Hh]; eauto.
Qed.

Lemma preserves_reduce {A B} (f : A → B → M A) seq init :
  (∀ a b, preserves P (f a b)) → preserves P (reduce f seq init).
Proof.
  intros Hf. revert init. induction seq as [|b seq IH]; intros init; simpl.
  - apply preserves_ret.
  - apply preserves_bind; auto.
Qed.

Lemma preserves_get_array l : preserves P (get_array l).
Proof. intros h r h'. unfold get_array. destruct (_ !! _); intros [= <- <-]. reflexivity. Qed.
Lemma preserves_get_list l : preserves P (get_list l).
Proof. intros h r h'. unfold get_list. destruct (_ !! _); intros [= <- <-]. reflexivity. Qed.
Lemma preserves_get_chain l : preserves P (get_chain l).
Proof. intros h r h'. unfold get_chain. destruct (_ !! _); intros [= <- <-]. reflexivity. Qed.
Lemma preserves_get_inst l : preserves P (get_inst l).
Proof. intros h r h'. unfold get_inst. destruct (_ !! _); intros [= <- <-]. reflexivity. Qed.
Lemma preserves_get_cloud l : preserves P (get_cloud l).
Proof. intros h r h'. unfold get_cloud. destruct (_ !! _); intros [= <- <-]. reflexivity. Qed.
End preserves.

Lemma returns_bind {A B} (Q : B → Prop) (m : M A) (f : A → M B) :
  (∀ a, returns Q (f a)) → returns Q (bind m f).
Proof.
  intros Hf h b h' [(a&h1&_&H2)|(e&_&?)]%bind_inv; [|done].
  eapply Hf; eauto.
Qed.

Lemma returns_reduce {A B} (Q : A → Prop) (f : A → B → M A) seq init :
  (∀ a b, Q a → returns Q (f a b)) → Q init → returns Q (reduce f seq init).
Proof.
  intros Hf. revert init. induction seq as [|b seq IH]; intros init Hi; simpl.
  - by intros h a h' [= <- <-].
  - intros h a h' [(a1&h1&H1&H2)|(e&_&?)]%bind_inv; [|done].
    eapply IH; [|eauto]. eapply Hf; eauto.
Qed.

Lemma more_arrays_new_array a : preserves more_arrays (new_array a).
Proof.
  intros h r h' [= <- <-]. repeat split; simpl.
  apply insert_fresh_subseteq.
Qed.
End monad_facts.

(** One step of a proof that a computation preserves a relation. *)
Ltac preserves_step :=
  lazymatch goal with
  | |- preserves _ (bind _ _) => apply preserves_bind; [| |intros ?]
  | |- preserves _ (ret _) => apply preserves_ret
  | |- preserves _ (raise _) => apply preserves_raise
  | |- preserves _ stuck => apply preserves_stuck
  | |- preserves _ (lift_res _) => apply preserves_lift_res
  | |- preserves _ (lift_np _) => apply preserves_lift_np
  | |- preserves _ (get_array _) => apply preserves_get_array
  | |- preserves _ (get_list _) => apply preserves_get_list
  | |- preserves _ (get_chain _) => apply preserves_get_chain
  | |- preserves _ (get_inst _) => apply preserves_get_inst
  | |- preserves _ (get_cloud _) => apply preserves_get_cloud
  | |- preserves more_arrays (new_array _) => apply more_arrays_new_array
  | |- preserves _ (try_except_AttributeError _ _) => apply preserves_try
  | |- preserves _ (match ?x with _ => _ end) => destruct x
  end;
  try apply _.

(** ** Applying a transform *)
Section apply_facts.
Context `{W : World}.

Lemma call__apply_more_arrays n tr x kw :
  preserves more_arrays (call__apply n tr x kw).
Proof.
  revert tr x kw. induction n as [|n IH]; intros tr x kw; simpl.
  { preserves_step. }
  destruct tr as [| | |c|i|];
    [preserves_step..|unfold TransformChain__apply|unfold prim__apply|preserves_step].
  - repeat preserves_step.
    apply preserves_reduce; [apply _|]. intros; apply IH.
  - repeat preserves_step.
Qed.

(** Applied to an array, [_apply] returns an array. *)
Lemma call__apply_array n tr kw : ∀ p,
  returns (λ q, ∃ p', q = VArr p') (call__apply n tr (VArr p) kw).
Proof.
  revert tr kw. induction n as [|n IH]; intros tr kw p; simpl.
  { by intros h a h'. }
  destruct tr; try by intros h a h'.
  - unfold TransformChain__apply. apply returns_bind.
    intros [| |l'| | |]; try by intros h a h'.
    apply returns_bind. intros items.
    apply returns_reduce; [|by eauto].
    intros a b [p' ->]. apply IH.
  - unfold prim__apply. apply returns_bind. intros o.
    apply returns_bind. intros a. apply returns_bind. intros r.
    intros h q h' [= <- _]. eauto.
Qed.

(** Without the hook, [apply] is the primitive mapping. *)
Lemma Transform_apply_no_hook n self x kw h :
  has_transform_hook x = false →
  Transform_apply n self x kw h = call__apply n self x kw h.
Proof. by destruct x. Qed.

Lemma Transform_apply_inplace_no_hook n self x kw h :
  has_transform_hook x = false →
  Transform_apply_inplace n self x kw h =
  (let! r := call__apply n self x kw in setitem_ellipsis x r) h.
Proof. by destruct x. Qed.

Lemma chain_of_run items h :
  let l := fresh (dom (lists h)) in
  let c := fresh (dom (chains h)) in
  chain_of items h =
  Some (Ret (VChain c), set_chains <[c:=VList l]> (set_lists <[l:=items]> h)).
Proof. done. Qed.

(** A chain applies the transforms its list holds, from left to right. *)
Lemma chain_apply n c l items x kw h :
  chains h !! c = Some (VList l) → lists h !! l = Some items →
  call__apply (S n) (VChain c) x kw h =
  reduce (λ x_i tr, call__apply n tr x_i []) items x h.
Proof.
  intros Hc Hl. simpl. unfold TransformChain__apply, bind, get_chain, get_list.
  by rewrite Hc, Hl.
Qed.

Lemma chain_of_apply n items x kw h c h1 :
  chain_of items h = Some (Ret c, h1) →
  call__apply (S n) c x kw h1 =
  reduce (λ x_i tr, call__apply n tr x_i []) items x h1.
Proof.
  rewrite chain_of_run. intros [= <- <-].
  eapply chain_apply; simpl; apply lookup_insert_eq.
Qed.

Lemma chain_of_incl items h c h1 :
  chain_of items h = Some (Ret c, h1) →
  heap_incl h h1 ∧ arrays h1 = arrays h ∧ insts h1 = insts h ∧
  clouds h1 = clouds h ∧ fresh_val h c.
Proof.
  rewrite chain_of_run. intros [= <- <-]. simpl.
  repeat split; simpl; try done; try apply insert_fresh_subseteq.
  apply fresh_lookup.
Qed.
End apply_facts.

(** ** Chains *)
Section chain_facts.
Context `{W : World}.

(** The type of an object is read off the instances alone. *)
Lemma type_of_same_insts x h h' :
  insts h' = insts h →
  ∀ ty, type_of x h = Some (Ret ty, h) → type_of x h' = Some (Ret ty, h').
Proof.
  intros Hi ty. destruct x; simpl; unfold ret;
    try (intros [= <-]; done).
  unfold bind, get_inst. rewrite Hi.
  destruct (insts h !! l); [|done]. intros [= <-]. done.
Qed.

(** A chain takes any transform. *)
Lemma chain_isinstance c t ty h :
  transform_in h t ty →
  isinstance_composes (VChain c) t h = Some (Ret true, h).
Proof.
  intros [Hty Htr]. unfold isinstance_composes, bind; simpl.
  unfold ret at 1. rewrite Hty. unfold ret.
  by rewrite <- Htr.
Qed.

Lemma chain_compose_before_inplace c l items t ty h :
  chains h !! c = Some (VList l) → lists h !! l = Some items →
  transform_in h t ty →
  ComposableTransform_compose_before_inplace (VChain c) t h =
  Some (Ret VNone, set_lists <[l:=items ++ [t]]> h).
Proof.
  intros Hc Hl Ht. unfold ComposableTransform_compose_before_inplace, bind.
  rewrite (chain_isinstance _ _ _ _ Ht). simpl.
  unfold TransformChain__compose_before_inplace, bind, get_chain.
  rewrite Hc. simpl. unfold bind, get_list. by rewrite Hl.
Qed.

Lemma chain_compose_after_inplace c l items t ty h :
  chains h !! c = Some (VList l) → lists h !! l = Some items →
  transform_in h t ty →
  ComposableTransform_compose_after_inplace (VChain c) t h =
  Some (Ret VNone, set_lists <[l:=t :: items]> h).
Proof.
  intros Hc Hl Ht. unfold ComposableTransform_compose_after_inplace, bind.
  rewrite (chain_isinstance _ _ _ _ Ht). simpl.
  unfold TransformChain__compose_after_inplace, bind, get_chain.
  rewrite Hc. simpl. unfold bind, get_list. by rewrite Hl.
Qed.

(** Two chains whose lists hold the same transforms apply alike. *)
Lemma chain_apply_same n c1 l1 c2 l2 items x kw h :
  chains h !! c1 = Some (VList l1) → lists h !! l1 = Some items →
  chains h !! c2 = Some (VList l2) → lists h !! l2 = Some items →
  call__apply n (VChain c1) x kw h = call__apply n (VChain c2) x kw h.
Proof.
  intros H1 H2 H3 H4. destruct n; [done|].
  by rewrite (chain_apply _ _ _ _ _ _ _ H1 H2), (chain_apply _ _ _ _ _ _ _ H3 H4).
Qed.

(** After its list became [items], a chain applies as a new
    [TransformChain(items)] does. *)
Lemma chain_behaves_as n c l items x kw h c' h' :
  chains h !! c = Some (VList l) → lists h !! l = Some items →
  chain_of items h = Some (Ret c', h') →
  call__apply n (VChain c) x kw h' = call__apply n c' x kw h'.
Proof.
  intros Hc Hl. rewrite chain_of_run. intros [= <- <-].
  eapply chain_apply_same; simpl.
  - rewrite lookup_insert_ne; [done|].
    intros <-. by rewrite fresh_lookup in Hc.
  - rewrite lookup_insert_ne; [done|].
    intros <-. by rewrite fresh_lookup in Hl.
  - apply lookup_insert_eq.
  - apply lookup_insert_eq.
Qed.
End chain_facts.

Section pair_facts.
Context `{W : World}.

(** The chain over [a] and [b] maps [x] to [b._apply(a._apply(x))],
    whatever keyword arguments it is given. *)
Lemma pair_chain__apply n a b x kw h c h1 :
  chain_of [a; b] h = Some (Ret c, h1) →
  call__apply (S n) c x kw h1 =
  (let! q := call__apply n a x [] in call__apply n b q []) h1.
Proof.
  intros Hc. rewrite (chain_of_apply _ _ _ _ _ _ _ Hc). simpl.
  apply bind_ext. intros q h2 _. apply bind_ret_r.
Qed.

(** On an array it is [b.apply(a.apply(p))]. *)
Lemma pair_chain_apply n a b p h c h1 :
  chain_of [a; b] h = Some (Ret c, h1) →
  Transform_apply (S n) c (VArr p) [] h1 =
  (let! q := Transform_apply n a (VArr p) [] in Transform_apply n b q []) h1.
Proof.
  intros Hc. rewrite Transform_apply_no_hook by done.
  rewrite (pair_chain__apply _ _ _ _ _ _ _ _ Hc).
  unfold bind. rewrite Transform_apply_no_hook by done.
  destruct (call__apply n a (VArr p) [] h1) as [[[q|e] h2]|] eqn:E; [|done..].
  apply call__apply_array in E as [p' ->].
  by rewrite Transform_apply_no_hook.
Qed.
End pair_facts.

(** ** Source and target *)
Section alignment_facts.
Context `{W : World}.

Lemma points_array_cloud h x a :
  cloud_at h x a → points_array x h = Some (Ret a, h).
Proof.
  intros (c & p & -> & Hc & Hp). unfold points_array, bind; simpl.
  unfold get_cloud. rewrite Hc. unfold get_array. by rewrite Hp.
Qed.

(** Reading the points changes nothing, and returns only for a cloud. *)
Lemma points_array_inv h x r h' :
  points_array x h = Some (r, h') →
  h' = h ∧ ∀ a, r = Ret a → cloud_at h x a.
Proof.
  unfold points_array, bind, call_points.
  destruct x as [| | | | |c]; simpl; try (intros [= <- <-]; by split).
  unfold get_cloud. destruct (clouds h !! c) as [p|] eqn:Hc; [|done].
  destruct p as [|p| | | |]; try (intros [= <- <-]; by split).
  unfold get_array. destruct (arrays h !! p) as [a|] eqn:Hp; [|done].
  intros [= <- <-]. split; [done|]. intros a' [= <-]. by exists c, p.
Qed.

Lemma n_dims_within_cloud n h x a :
  cloud_at h x a → n_dims_within n x h = Some (Ret (Some (shape_n_dims a)), h).
Proof.
  intros Hx. pose proof Hx as (c & p & -> & _).
  destruct n; simpl; unfold bind; by rewrite (points_array_cloud _ _ _ Hx).
Qed.

Lemma n_points_within_cloud n h x a :
  cloud_at h x a → n_points_within n x h = Some (Ret (shape_n_points a), h).
Proof.
  intros Hx. pose proof Hx as (c & p & -> & _).
  destruct n; simpl; unfold bind; by rewrite (points_array_cloud _ _ _ Hx).
Qed.

Lemma call_n_dims_cloud h x a :
  cloud_at h x a → call_n_dims x h = Some (Ret (Some (shape_n_dims a)), h).
Proof. apply n_dims_within_cloud. Qed.

Lemma call_n_points_cloud h x a :
  cloud_at h x a → call_n_points x h = Some (Ret (shape_n_points a), h).
Proof. apply n_points_within_cloud. Qed.

(** Two integers are equal as values of [n_dims] when they are equal. *)
Lemma n_dims_eqb (a b : nat) :
  bool_decide (Some a = Some b) = (a =? b).
Proof.
  destruct (a =? b) eqn:E.
  - apply Nat.eqb_eq in E as ->. by apply bool_decide_eq_true.
  - apply Nat.eqb_neq in E. apply bool_decide_eq_false. congruence.
Qed.

(** Looking up [n_dims] or [n_points] changes nothing. *)
Lemma n_dims_within_same n : ∀ x h r h',
  n_dims_within n x h = Some (r, h') → h' = h.
Proof.
  induction n as [|n IH]; intros x h r h'; destruct x as [| | | |i|c]; simpl;
    try (by intros [= <- <-]).
  - unfold bind, get_inst. destruct (insts h !! i) as [o|]; [|done].
    destruct (pure_alignment (cls o)); [done|by intros [= <- <-]].
  - intros [(a & ? & [-> _]%points_array_inv & [= <- <-])
           |(e & [-> _]%points_array_inv & _)]%bind_inv; done.
  - unfold bind, get_inst. destruct (insts h !! i) as [o|]; [|done].
    destruct (pure_alignment (cls o)); [apply IH|by intros [= <- <-]].
  - intros [(a & ? & [-> _]%points_array_inv & [= <- <-])
           |(e & [-> _]%points_array_inv & _)]%bind_inv; done.
Qed.

Lemma n_points_within_same n : ∀ x h r h',
  n_points_within n x h = Some (r, h') → h' = h.
Proof.
  induction n as [|n IH]; intros x h r h'; destruct x as [| | | |i|c]; simpl;
    try (by intros [= <- <-]).
  - unfold bind, get_inst. destruct (insts h !! i) as [o|]; [|done].
    destruct (pure_alignment (cls o)); [done|].
    destruct (class_n_points _ _); by intros [= <- <-].
  - intros [(a & ? & [-> _]%points_array_inv & [= <- <-])
           |(e & [-> _]%points_array_inv & _)]%bind_inv; done.
  - unfold bind, get_inst. destruct (insts h !! i) as [o|]; [|done].
    destruct (pure_alignment (cls o)); [apply IH|].
    destruct (class_n_points _ _); by intros [= <- <-].
  - intros [(a & ? & [-> _]%points_array_inv & [= <- <-])
           |(e & [-> _]%points_array_inv & _)]%bind_inv; done.
Qed.

Lemma call_n_dims_same x h r h' : call_n_dims x h = Some (r, h') → h' = h.
Proof. apply n_dims_within_same. Qed.

Lemma call_n_points_same x h r h' : call_n_points x h = Some (r, h') → h' = h.
Proof. apply n_points_within_same. Qed.

(** [None] has neither attribute. *)
Lemma call_n_dims_not_None x h d h' :
  call_n_dims x h = Some (Ret d, h') → is_not_None x = true.
Proof. destruct x; try done. unfold call_n_dims. by destruct (size _). Qed.

Lemma verify_clouds h source target sa ta :
  cloud_at h source sa → cloud_at h target ta →
  Alignable__verify_source_and_target source target h =
  if same_dims_and_points sa ta then Some (Ret true, h)
  else Some (Raise ValueError, h).
Proof.
  intros Hs Ht. unfold Alignable__verify_source_and_target, bind.
  rewrite (call_n_dims_cloud _ _ _ Hs), (call_n_dims_cloud _ _ _ Ht).
  unfold same_dims_and_points. rewrite n_dims_eqb.
  destruct (shape_n_dims sa =? shape_n_dims ta); simpl; [|done].
  rewrite (call_n_points_cloud _ _ _ Hs), (call_n_points_cloud _ _ _ Ht).
  by destruct (shape_n_points sa =? shape_n_points ta).
Qed.

(** The check reads and never writes; it returns only [True], and only
    for two objects that have the same [n_dims] and the same [n_points]. *)
Lemma verify_inv h source target r h' :
  Alignable__verify_source_and_target source target h = Some (r, h') →
  h' = h ∧
  ∀ b, r = Ret b →
    b = true ∧
    ∃ d p, call_n_dims source h = Some (Ret d, h) ∧
           call_n_dims target h = Some (Ret d, h) ∧
           call_n_points source h = Some (Ret p, h) ∧
           call_n_points target h = Some (Ret p, h).
Proof.
  unfold Alignable__verify_source_and_target.
  intros [(sd & ? & Hsd & Hr)|(e & ->%call_n_dims_same & ->)]%bind_inv; [|done].
  pose proof (call_n_dims_same _ _ _ _ Hsd) as ->.
  apply bind_inv in Hr as [(td & ? & Htd & Hr)|(e & ->%call_n_dims_same & ->)];
    [|done].
  pose proof (call_n_dims_same _ _ _ _ Htd) as ->.
  destruct (bool_decide (sd = td)) eqn:Ed; simpl in Hr;
    [|injection Hr as <- <-; by split].
  apply bool_decide_eq_true in Ed as <-.
  apply bind_inv in Hr as [(sp & ? & Hsp & Hr)|(e & ->%call_n_points_same & ->)];
    [|done].
  pose proof (call_n_points_same _ _ _ _ Hsp) as ->.
  apply bind_inv in Hr as [(tp & ? & Htp & Hr)|(e & ->%call_n_points_same & ->)];
    [|done].
  pose proof (call_n_points_same _ _ _ _ Htp) as ->.
  destruct (sp =? tp) eqn:Ep; simpl in Hr; injection Hr as <- <-;
    (split; [done|]); [|done].
  apply Nat.eqb_eq in Ep as <-.
  intros b [= <-]. split; [done|]. by exists sd, sp.
Qed.

Lemma is_alignment_transform_run h self o :
  insts h !! self = Some o →
  Alignable_is_alignment_transform self h =
  Some (Ret (is_not_None (_source o) && is_not_None (_target o)), h).
Proof.
  intros Ho. unfold Alignable_is_alignment_transform, Alignable_source,
    Alignable_target, bind, get_inst. rewrite Ho. simpl.
  destruct (is_not_None (_source o)); simpl; [|done].
  by rewrite Ho.
Qed.
End alignment_facts.

(** ** Construction and retargeting of an alignment *)
Section pure_alignment_facts.
Context `{W : World}.

Lemma get_inst_inv l h r h1 :
  get_inst l h = Some (r, h1) → h1 = h ∧ ∃ o, r = Ret o ∧ insts h !! l = Some o.
Proof.
  unfold get_inst. destruct (insts h !! l) as [o|]; [|done].
  intros [= <- <-]. eauto.
Qed.

Lemma bound_is_alignment_transform i h :
  bound i h ↔ Alignable_is_alignment_transform i h = Some (Ret true, h).
Proof.
  split.
  - intros (o & Ho & Hs & Ht).
    by rewrite (is_alignment_transform_run _ _ _ Ho), Hs, Ht.
  - intros H. destruct (insts h !! i) as [o|] eqn:Ho.
    + rewrite (is_alignment_transform_run _ _ _ Ho) in H.
      exists o. split; [done|]. injection H as H. by apply andb_prop in H.
    + unfold Alignable_is_alignment_transform, Alignable_source, bind,
        get_inst in H. by rewrite Ho in H.
Qed.

Lemma insert_twice_insts i (o1 o2 : inst) h :
  set_insts <[i:=o2]> (set_insts <[i:=o1]> h) = set_insts <[i:=o2]> h.
Proof. unfold set_insts; simpl. by rewrite insert_insert_eq. Qed.

(** The constructor on an empty keyword dictionary: a blank instance is
    made, the pair is checked, and both are stored. *)
Lemma PureAlignment_new_run c source target h :
  let i := fresh (dom (insts h)) in
  let hb := set_insts <[i:=Inst c (init_params c) VNone VNone]> h in
  PureAlignment_new c source target [] h =
  match Alignable__verify_source_and_target source target hb with
  | Some (Ret _, _) =>
      Some (Ret (VInst i), set_insts <[i:=Inst c (init_params c) source target]> h)
  | Some (Raise e, _) => Some (Raise e, hb)
  | None => None
  end.
Proof.
  intros i hb. unfold PureAlignment_new, bind at 1, new_inst. fold i. fold hb.
  unfold bind at 1, PureAlignment___init__, bind at 1, Alignable___init__.
  unfold bind at 1, get_inst. simpl. rewrite lookup_insert_eq. simpl.
  unfold hb at 1. rewrite insert_twice_insts. fold hb.
  unfold bind at 1.
  destruct (Alignable__verify_source_and_target source target hb)
    as [[[b|e] h1]|] eqn:E; [|by apply verify_inv in E as [-> _]|done].
  apply verify_inv in E as [-> Hb]. destruct (Hb _ eq_refl) as [-> _].
  unfold bind, get_inst; simpl. rewrite lookup_insert_eq. simpl.
  rewrite lookup_insert_eq. simpl.
  unfold hb. by rewrite !insert_twice_insts.
Qed.

(** Retargeting keeps a bound transform bound. *)
Lemma call__target_setter_bound i self value h r h' :
  call__target_setter self value h = Some (r, h') → bound i h → bound i h'.
Proof.
  unfold call__target_setter. intros H.
  apply bind_inv in H as [(o & h1 & Ho & H)|(e & Ho & ->)];
    apply get_inst_inv in Ho as (-> & o' & Heq & Ho); [|done].
  injection Heq as <-.
  apply bind_inv in H as [(sa & h1 & Hs & H)|(e & Hs & ->)];
    apply points_array_inv in Hs as [-> Hs]; [|done].
  apply bind_inv in H as [(va & h1 & Hv & H)|(e & Hv & ->)];
    apply points_array_inv in Hv as [-> Hv]; [|done].
  specialize (Hv _ eq_refl). destruct Hv as (cv & pv & -> & _).
  apply bind_inv in H as [(s & h1 & Hh & H)|(e & Hh & ->)];
    injection Hh as Hh <-; [|done].
  injection H as _ <-.
  intros (oi & Hoi & Hsi & Hti).
  destruct (decide (i = self)) as [->|Hne].
  - eexists. split; [apply lookup_insert_eq|]. simpl.
    split; [|done]. by simplify_eq.
  - exists oi. split; [|done]. simpl. by rewrite lookup_insert_ne.
Qed.

Section readers.
Context (P : heap → heap → Prop) `{!PreOrder P}.

Lemma preserves_call_points x : preserves P (call_points x).
Proof. unfold call_points. repeat preserves_step. Qed.

Lemma preserves_points_array x : preserves P (points_array x).
Proof. unfold points_array, call_points. repeat preserves_step. Qed.

Lemma preserves_call_n_dims x : preserves P (call_n_dims x).
Proof. intros h r h' ->%call_n_dims_same. reflexivity. Qed.

Lemma preserves_call_n_points x : preserves P (call_n_points x).
Proof. intros h r h' ->%call_n_points_same. reflexivity. Qed.

Lemma preserves_Alignable_target self : preserves P (Alignable_target self).
Proof. unfold Alignable_target. repeat preserves_step. Qed.

Lemma preserves_is_alignment_transform self :
  preserves P (Alignable_is_alignment_transform self).
Proof.
  unfold Alignable_is_alignment_transform, Alignable_source.
  repeat first [apply preserves_Alignable_target|preserves_step].
Qed.
End readers.

#[local] Instance keeps_bound_preorder i :
  PreOrder (λ h h' : heap, bound i h → bound i h').
Proof. split; [by intros h|]. intros h1 h2 h3 H12 H23 ?. auto. Qed.

Lemma Alignable_target_setter_bound i self value :
  preserves (λ h h', bound i h → bound i h') (Alignable_target_setter self value).
Proof.
  unfold Alignable_target_setter.
  repeat first
    [ apply keeps_bound_preorder
    | apply preserves_is_alignment_transform
    | apply preserves_Alignable_target
    | apply preserves_call_n_dims
    | apply preserves_call_n_points
    | by intros h r h'; apply call__target_setter_bound
    | preserves_step ].
Qed.
End pure_alignment_facts.

(** ** Applying a transform to a point cloud *)
Section cloud_facts.
Context `{W : World}.

(** The copy of a point cloud: a new cloud over a new array. *)
Lemma deepcopy_cloud n c p a h :
  clouds h !! c = Some (VArr p) → arrays h !! p = Some a →
  let c' := fresh (dom (clouds h)) in
  let p' := fresh (dom (arrays h)) in
  deepcopy (S (S n)) (VCloud c) h =
  Some (Ret (VCloud c'),
        Heap (<[p':=a]> (arrays h)) (lists h) (chains h) (insts h)
             (<[c':=VArr p']> (<[c':=VNone]> (clouds h)))).
Proof.
  intros Hc Hp c' p'. unfold deepcopy.
  cbn [deepcopy_memo memo_get]. rewrite Hc. cbn [mbind option_bind].
  destruct (decide (VCloud c = VArr p)) as [?|_]; [done|].
  cbn [set_clouds arrays]. rewrite Hp. reflexivity.
Qed.

(** [apply] on a point cloud: the copy, with the primitive mapping of the
    points as its points. *)
Lemma Transform_apply_cloud n self o c p a r kw h :
  insts h !! self = Some o →
  clouds h !! c = Some (VArr p) → arrays h !! p = Some a →
  prim_apply (cls o) (params o) kw a = Ret r →
  let c' := fresh (dom (clouds h)) in
  let p' := fresh (dom (arrays h)) in
  let p'' := fresh (dom (<[p':=a]> (arrays h))) in
  Transform_apply (S (S n)) (VInst self) (VCloud c) kw h =
  Some (Ret (VCloud c'),
        Heap (<[p'':=r]> (<[p':=a]> (arrays h))) (lists h) (chains h) (insts h)
             (<[c':=VArr p'']> (<[c':=VArr p']> (<[c':=VNone]> (clouds h))))).
Proof.
  intros Ho Hc Hp Hr c' p' p''.
  unfold Transform_apply, try_except_AttributeError, call__transform,
    Transformable__transform.
  unfold bind at 1. rewrite (deepcopy_cloud _ _ _ _ _ Hc Hp).
  fold c' p'. cbn [call__transform_inplace cloud__transform_inplace].
  unfold cloud__transform_inplace, bind, get_cloud. cbn [clouds].
  rewrite lookup_insert_eq.
  cbn [call__apply]. unfold prim__apply, bind, get_inst, get_array.
  cbn [insts arrays]. rewrite Ho. cbn [arrays]. rewrite lookup_insert_eq, Hr.
  reflexivity.
Qed.

Lemma aligned_source_bound n self o h :
  insts h !! self = Some o →
  is_not_None (_source o) && is_not_None (_target o) = true →
  Alignable_aligned_source n self h =
  Transform_apply n (VInst self) (_source o) [] h.
Proof.
  intros Ho Hb. unfold Alignable_aligned_source. unfold bind at 1.
  rewrite (is_alignment_transform_run _ _ _ Ho), Hb. simpl.
  unfold Alignable_source, bind, get_inst. by rewrite Ho.
Qed.

Lemma Alignable_target_setter_unbound self o value h :
  insts h !! self = Some o →
  is_not_None (_source o) && is_not_None (_target o) = false →
  Alignable_target_setter self value h = Some (Raise NotImplementedError, h).
Proof.
  intros Ho Hb. unfold Alignable_target_setter. unfold bind at 1.
  by rewrite (is_alignment_transform_run _ _ _ Ho), Hb.
Qed.

Lemma aligned_source_unbound n self o h :
  insts h !! self = Some o →
  is_not_None (_source o) && is_not_None (_target o) = false →
  Alignable_aligned_source n self h = Some (Raise ValueError, h).
Proof.
  intros Ho Hb. unfold Alignable_aligned_source. unfold bind at 1.
  by rewrite (is_alignment_transform_run _ _ _ Ho), Hb.
Qed.
End cloud_facts.

(** ** Running the methods of an instance *)
Section instance_facts.
Context `{W : World}.

Lemma bind_run {A B} (m : M A) (f : A → M B) h a h1 :
  m h = Some (Ret a, h1) → bind m f h = f a h1.
Proof. unfold bind. by intros ->. Qed.

Lemma call_as_vector_run i o v h :
  insts h !! i = Some o → as_vector (cls o) (params o) = Some v →
  call_as_vector (VInst i) h = Some (Ret v, h).
Proof.
  intros Ho Hv. unfold call_as_vector, bind, get_inst. by rewrite Ho, Hv.
Qed.

Lemma call_update_from_vector_run i o v s h :
  insts h !! i = Some o → update_from_vector (cls o) (params o) v = Ret s →
  call_update_from_vector i v h =
  Some (Ret VNone, set_insts <[i:=Inst (cls o) s (_source o) (_target o)]> h).
Proof.
  intros Ho Hs. unfold call_update_from_vector, bind, get_inst.
  by rewrite Ho, Hs.
Qed.

Lemma call_from_vector_run i o v k2 s2 h :
  insts h !! i = Some o → from_vector (cls o) (params o) v = Ret (k2, s2) →
  call_from_vector i v h =
  Some (Ret (VInst (fresh (dom (insts h)))),
        set_insts <[fresh (dom (insts h)):=Inst k2 s2 VNone VNone]> h).
Proof.
  intros Ho Hs. unfold call_from_vector, bind, get_inst.
  by rewrite Ho, Hs.
Qed.

Lemma type_of_inst i o h :
  insts h !! i = Some o → type_of (VInst i) h = Some (Ret (TyInst (cls o)), h).
Proof. intros Ho. unfold type_of, bind, get_inst. by rewrite Ho. Qed.

Lemma isinstance_composes_inst i o classes t ty h :
  insts h !! i = Some o → composes_inplace_with (cls o) = Some classes →
  type_of t h = Some (Ret ty, h) →
  isinstance_composes (VInst i) t h = Some (Ret (classes ty), h).
Proof.
  intros Ho Hc Ht. unfold isinstance_composes.
  erewrite bind_run.
  2:{ unfold call_composes_inplace_with.
      erewrite bind_run by (unfold get_inst; by rewrite Ho). by rewrite Hc. }
  by erewrite bind_run by exact Ht.
Qed.

Lemma inst_hook_run hook i o tl j s h :
  insts h !! i = Some o → insts h !! tl = Some j →
  hook (params o) (Some (cls j, params j)) = Ret s →
  inst_hook hook i (VInst tl) h =
  Some (Ret VNone, set_insts <[i:=Inst (cls o) s (_source o) (_target o)]> h).
Proof.
  intros Ho Hj Hs. unfold inst_hook.
  erewrite bind_run by (unfold get_inst; by rewrite Ho).
  erewrite bind_run.
  2:{ unfold seen. by erewrite bind_run by (unfold get_inst; by rewrite Hj). }
  by erewrite bind_run by (by rewrite Hs).
Qed.

Lemma call__compose_before_inplace_inst i o tl j s h :
  insts h !! i = Some o → insts h !! tl = Some j →
  compose_before_hook (cls o) (params o) (Some (cls j, params j)) = Ret s →
  call__compose_before_inplace (VInst i) (VInst tl) h =
  Some (Ret VNone, set_insts <[i:=Inst (cls o) s (_source o) (_target o)]> h).
Proof.
  intros Ho Hj Hs. unfold call__compose_before_inplace.
  erewrite bind_run by (unfold get_inst; by rewrite Ho).
  by apply inst_hook_run with j.
Qed.

(** On an array, [apply] of an instance is its primitive mapping. *)
Lemma Transform_apply_inst_array n i o p a kw h :
  insts h !! i = Some o → arrays h !! p = Some a →
  Transform_apply (S n) (VInst i) (VArr p) kw h =
  (let! r := lift_res (prim_apply (cls o) (params o) kw a) in new_array r) h.
Proof.
  intros Ho Hp. rewrite Transform_apply_no_hook by done. simpl.
  unfold prim__apply, bind, get_inst, get_array. by rewrite Ho, Hp.
Qed.
End instance_facts.

(** ** The translations of the small world keep the laws *)
Lemma zip_with_add_assoc (row s s2 : list Z) :
  zip_with Z.add row (zip_with Z.add s s2) =
  zip_with Z.add (zip_with Z.add row s) s2.
Proof.
  revert s s2. induction row as [|x row IH]; intros [|y s] [|z s2];
    simpl; try done.
  f_equal; [lia|apply IH].
Qed.

Lemma toy_translation_laws : vcomposable_laws (W:=Toy.toy) Toy.Translation.
Proof.
  split.
  - intros s. by eexists.
  - intros classes s k' s' v [= <-] Hk' Hv. simpl in *.
    apply bool_decide_eq_true in Hk'. injection Hk' as ->.
    injection Hv as ->. by exists v.
  - intros s0 s v [= ->]. eexists Toy.Translation, v, _. by split_and!.
  - intros classes s k2 s2 [= <-] Hk2. simpl in *.
    apply bool_decide_eq_true in Hk2. injection Hk2 as ->.
    eexists. split; [done|]. intros kw a. simpl. f_equal.
    rewrite map_map. apply map_ext. intros row.
    unfold Toy.add_row. apply zip_with_add_assoc.
Qed.

(** ** [deepcopy] writes to new objects only *)
Section deepcopy_facts.
Context `{W : World}.

Lemma subseteq_alloc {V} (m0 m : gmap loc V) v :
  m0 ⊆ m → m0 ⊆ <[fresh (dom m):=v]> m ∧ m0 !! fresh (dom m) = None.
Proof.
  intros Hsub. split.
  - etrans; [exact Hsub|apply insert_fresh_subseteq].
  - eapply lookup_weaken_None; [apply fresh_lookup|exact Hsub].
Qed.

Lemma subseteq_write {V} (m0 m : gmap loc V) l v :
  m0 !! l = None → m0 ⊆ m → m0 ⊆ <[l:=v]> m.
Proof. intros. by apply insert_subseteq_r. Qed.

Lemma memo_get_fresh h0 m x y :
  memo_fresh h0 m → memo_get m x = Some y → fresh_val h0 y.
Proof.
  induction 1 as [|[k v] m Hv _ IH]; simpl; [done|].
  case_decide; [by intros [= <-]|done].
Qed.

Lemma deepcopy_items_well h0 copy items :
  copies_well h0 copy →
  ∀ m h items' m' h',
    heap_incl h0 h → memo_fresh h0 m →
    deepcopy_items copy items m h = Some (items', m', h') →
    heap_incl h0 h' ∧ memo_fresh h0 m'.
Proof.
  intros Hcopy. induction items as [|a items IH]; intros m h items' m' h' Hh Hm; simpl.
  { by intros [= <- <- <-]. }
  destruct (copy a m h) as [[[a' m1] h1]|] eqn:Ea; [|done]. simpl.
  destruct (Hcopy _ _ _ _ _ _ Hh Hm Ea) as (Hh1 & Hm1 & _).
  destruct (deepcopy_items copy items m1 h1) as [[[its m2] h2]|] eqn:Ei; [|done].
  simpl. intros [= <- <- <-]. by eapply IH.
Qed.

Lemma deepcopy_memo_well h0 n : copies_well h0 (deepcopy_memo n).
Proof.
  induction n as [|n IH]; intros x m h y m' h' Hh Hm; simpl; [done|].
  destruct (memo_get m x) as [y0|] eqn:Eg.
  { intros [= <- <- <-]. split_and!; try done. by eapply memo_get_fresh. }
  destruct Hh as (Ha & Hl & Hc & Hi & Hp).
  destruct x as [|l|l|c|i|c].
  - by intros [= <- <- <-].
  - destruct (arrays h !! l) as [a|]; [|done]. simpl. intros [= <- <- <-].
    destruct (subseteq_alloc _ _ a Ha) as [Ha' Hf].
    split_and!; [by split_and!|by constructor|done].
  - destruct (lists h !! l) as [items|]; [|done]. simpl.
    destruct (subseteq_alloc _ _ [] Hl) as [Hl' Hf].
    destruct (deepcopy_items _ _ _ _) as [[[items' m1] h1]|] eqn:Ei; [|done].
    simpl. intros [= <- <- <-].
    eapply (deepcopy_items_well h0) in Ei as [(Ha1 & Hl1 & Hc1 & Hi1 & Hp1) Hm1];
      [|exact IH|by split_and!|by constructor].
    split_and!; [|done|done]. split_and!; try done. simpl.
    by apply subseteq_write.
  - destruct (chains h !! c) as [t|]; [|done]. simpl.
    destruct (subseteq_alloc _ _ VNone Hc) as [Hc' Hf].
    destruct (deepcopy_memo n t _ _) as [[[t' m1] h1]|] eqn:Et; [|done].
    simpl. intros [= <- <- <-].
    eapply IH in Et as ((Ha1 & Hl1 & Hc1 & Hi1 & Hp1) & Hm1 & _);
      [|by split_and!|by constructor].
    split_and!; [|done|done]. split_and!; try done. simpl.
    by apply subseteq_write.
  - destruct (insts h !! i) as [o|]; [|done]. simpl.
    destruct (subseteq_alloc _ _ (Inst (cls o) (params o) VNone VNone) Hi)
      as [Hi' Hf].
    destruct (deepcopy_memo n (_source o) _ _) as [[[s' m1] h1]|] eqn:Es; [|done].
    simpl.
    eapply IH in Es as (Hh1 & Hm1 & _); [|by split_and!|by constructor].
    destruct (deepcopy_memo n (_target o) _ _) as [[[t' m2] h2]|] eqn:Et; [|done].
    simpl. intros [= <- <- <-].
    eapply IH in Et as ((Ha2 & Hl2 & Hc2 & Hi2 & Hp2) & Hm2 & _); [|done..].
    split_and!; [|done|done]. split_and!; try done. simpl.
    by apply subseteq_write.
  - destruct (clouds h !! c) as [p|]; [|done]. simpl.
    destruct (subseteq_alloc _ _ VNone Hp) as [Hp' Hf].
    destruct (deepcopy_memo n p _ _) as [[[p' m1] h1]|] eqn:Et; [|done].
    simpl. intros [= <- <- <-].
    eapply IH in Et as ((Ha1 & Hl1 & Hc1 & Hi1 & Hp1) & Hm1 & _);
      [|by split_and!|by constructor].
    split_and!; [|done|done]. split_and!; try done. simpl.
    by apply subseteq_write.
Qed.

(** [deepcopy] changes no object and returns a new one. *)
Lemma deepcopy_new n x h r h' :
  deepcopy n x h = Some (r, h') →
  ∃ y, r = Ret y ∧ heap_incl h h' ∧ fresh_val h y.
Proof.
  unfold deepcopy.
  destruct (deepcopy_memo n x [] h) as [[[y m] h1]|] eqn:E; [|done].
  simpl. intros [= <- <-]. exists y. split; [done|].
  eapply deepcopy_memo_well in E as (? & _ & ?); [done|done|constructor].
Qed.

(** The copy of a chain is a new chain over a new object. *)
Lemma deepcopy_chain n c h r h' :
  deepcopy n (VChain c) h = Some (r, h') →
  ∃ c' t', r = Ret (VChain c') ∧ chains h !! c' = None ∧
           chains h' !! c' = Some t' ∧ fresh_val h t' ∧ heap_incl h h'.
Proof.
  intros E. pose proof (deepcopy_new _ _ _ _ _ E) as (y & -> & Hincl & _).
  revert E. unfold deepcopy. destruct n as [|n]; [done|]. simpl.
  destruct (chains h !! c) as [t|]; [|done]. simpl.
  destruct (deepcopy_memo n t _ _) as [[[t' m1] h1]|] eqn:Et; [|done].
  simpl. intros [= <- <-].
  eapply (deepcopy_memo_well h) in Et as (_ & _ & Hf).
  - eexists _, t'. split_and!; [done|apply fresh_lookup| |done|done].
    simpl. apply lookup_insert_eq.
  - split_and!; try done. simpl. apply insert_fresh_subseteq.
  - constructor; [|constructor]. simpl. apply fresh_lookup.
Qed.

(** The copy of an instance is a new instance of its class, with its
    parameters. *)
Lemma deepcopy_inst n i h r h' :
  deepcopy n (VInst i) h = Some (r, h') →
  ∃ i' o s' t', r = Ret (VInst i') ∧ insts h !! i = Some o ∧
                insts h !! i' = None ∧
                insts h' !! i' = Some (Inst (cls o) (params o) s' t') ∧
                heap_incl h h'.
Proof.
  intros E. pose proof (deepcopy_new _ _ _ _ _ E) as (y & -> & Hincl & _).
  revert E. unfold deepcopy. destruct n as [|n]; [done|]. simpl.
  destruct (insts h !! i) as [o|]; [|done]. simpl.
  destruct (deepcopy_memo n (_source o) _ _) as [[[s' m1] h1]|]; [|done].
  simpl.
  destruct (deepcopy_memo n (_target o) _ _) as [[[t' m2] h2]|]; [|done].
  simpl. intros [= <- <-].
  eexists _, o, s', t'. split_and!; [done|done|apply fresh_lookup| |done].
  simpl. apply lookup_insert_eq.
Qed.
End deepcopy_facts.

(** ** Composition in place writes to the receiver only *)
Section inplace_facts.
Context `{W : World}.

#[global] Instance touches_inst_preorder i : PreOrder (touches_inst i).
Proof.
  split.
  - intros h. by split_and!.
  - intros h1 h2 h3 (?&?&?&?&H12) (?&?&?&?&H23).
    split_and!; try congruence. intros k o Hk Ho. by apply H23, H12.
Qed.

Lemma touches_put_inst i o : preserves (touches_inst i) (put_inst i o).
Proof.
  intros h r h' [= <- <-]. split_and!; try done.
  intros k ok Hk Hok. simpl. by rewrite lookup_insert_ne.
Qed.

Lemma touches_new_inst i o : preserves (touches_inst i) (new_inst o).
Proof.
  intros h r h' [= <- <-]. split_and!; try done.
  intros k ok Hk Hok. simpl. rewrite lookup_insert_ne; [done|].
  intros <-. by rewrite fresh_lookup in Hok.
Qed.

Lemma touches_inst_incl i h0 h h' :
  insts h0 !! i = None → heap_incl h0 h → touches_inst i h h' → heap_incl h0 h'.
Proof.
  intros Hi (Ha & Hl & Hc & Hin & Hp) (Ea & El & Ec & Ep & Hk).
  unfold heap_incl. rewrite Ea, El, Ec, Ep. split_and!; try done.
  apply map_subseteq_spec. intros k o Ho. apply Hk.
  - intros ->. by rewrite Hi in Ho.
  - by eapply lookup_weaken.
Qed.

Section readers.
Context (P : heap → heap → Prop) `{!PreOrder P}.

Lemma preserves_type_of x : preserves P (type_of x).
Proof. destruct x; simpl; repeat preserves_step. Qed.

Lemma preserves_seen x : preserves P (seen x).
Proof. destruct x; simpl; repeat preserves_step. Qed.

Lemma preserves_call_as_vector x : preserves P (call_as_vector x).
Proof. destruct x; simpl; repeat preserves_step. Qed.

Lemma preserves_call_composes_inplace_with x :
  preserves P (call_composes_inplace_with x).
Proof. destruct x; simpl; repeat preserves_step. Qed.

Lemma preserves_isinstance_composes x t : preserves P (isinstance_composes x t).
Proof.
  unfold isinstance_composes.
  repeat first [apply preserves_call_composes_inplace_with
               |apply preserves_type_of|preserves_step].
Qed.
End readers.

Ltac touches_step i :=
  first
    [ apply (touches_put_inst i) | apply (touches_new_inst i)
    | apply preserves_seen | apply preserves_call_as_vector
    | apply preserves_isinstance_composes
    | preserves_step ];
  try apply _.

Lemma touches_inst_hook hook i t : preserves (touches_inst i) (inst_hook hook i t).
Proof. unfold inst_hook. repeat touches_step i. Qed.

Lemma touches_call_before i t :
  preserves (touches_inst i) (call__compose_before_inplace (VInst i) t).
Proof.
  unfold call__compose_before_inplace.
  repeat first [apply touches_inst_hook|touches_step i].
Qed.

Lemma touches_compose_before_inplace i t :
  preserves (touches_inst i) (ComposableTransform_compose_before_inplace (VInst i) t).
Proof.
  unfold ComposableTransform_compose_before_inplace.
  repeat first [apply touches_call_before|touches_step i].
Qed.

Lemma touches_default_after i t :
  preserves (touches_inst i) (VComposableTransform__compose_after_inplace i t).
Proof.
  unfold VComposableTransform__compose_after_inplace,
    VComposableTransform_compose_before_from_vector_inplace,
    call_update_from_vector, call_from_vector.
  repeat first [apply touches_compose_before_inplace|touches_step i].
Qed.

Lemma touches_call_after i t :
  preserves (touches_inst i) (call__compose_after_inplace (VInst i) t).
Proof.
  unfold call__compose_after_inplace.
  repeat first [apply touches_inst_hook|apply touches_default_after
               |touches_step i].
Qed.

(** The hooks of a chain write to its list only. *)
Lemma chain_hooks_incl h0 c t' t h r h' :
  heap_incl h0 h → chains h !! c = Some t' → fresh_val h0 t' →
  TransformChain__compose_before_inplace c t h = Some (r, h') ∨
  TransformChain__compose_after_inplace c t h = Some (r, h') →
  heap_incl h0 h'.
Proof.
  intros Hincl Hc Hf.
  unfold TransformChain__compose_before_inplace,
    TransformChain__compose_after_inplace, bind, get_chain. rewrite Hc.
  destruct t' as [| |l| | |]; simpl; try (by intros [[= <- <-]|[= <- <-]]).
  unfold bind, get_list. destruct (lists h !! l) as [items|]; [|by intros [|]].
  simpl. destruct Hincl as (?&?&?&?&?).
  intros [[= <- <-]|[= <- <-]]; split_and!; try done; simpl;
    by apply subseteq_write.
Qed.

(** The native combine changes no object and returns a new one. *)
Lemma native_combine_incl n (before : bool) self t h r h' :
  (let! new_transform := deepcopy n self in
   run! (if before then call__compose_before_inplace new_transform t
         else call__compose_after_inplace new_transform t) in
   ret new_transform) h = Some (r, h') →
  heap_incl h h' ∧ ∀ v, r = Ret v → fresh_val h v.
Proof.
  intros [(new & h1 & Hcopy & Hrest)|(e & Hcopy & _)]%bind_inv;
    [|by apply deepcopy_new in Hcopy as (? & ? & _)].
  pose proof (deepcopy_new _ _ _ _ _ Hcopy) as (y & [= <-] & Hincl & Hfresh).
  assert (heap_incl h h') as Hfinal; [|split; [done|]].
  2:{ apply bind_inv in Hrest as [(u & h2 & _ & [= <- <-])|(e & _ & ->)];
        [by intros v [= <-]|done]. }
  assert (∀ r2 h2,
            (if before then call__compose_before_inplace new t
             else call__compose_after_inplace new t) h1 = Some (r2, h2) →
            heap_incl h h2) as Hhook.
  { intros r2 h2. destruct self as [| | |c|i|].
    - revert Hcopy. unfold deepcopy. destruct n; [done|]. simpl.
      intros [= <- <-]. destruct before; by intros [= <- <-].
    - revert Hcopy. unfold deepcopy. destruct n; [done|]. simpl.
      destruct (arrays h !! l); [|done]. simpl. intros [= <- <-].
      destruct before; by intros [= <- <-].
    - assert (∃ l', new = VList l') as [l' ->].
      { revert Hcopy. unfold deepcopy. destruct n; [done|]. simpl.
        destruct (lists h !! l); [|done]. simpl.
        destruct (deepcopy_items _ _ _ _) as [[[? ?] ?]|]; [|done].
        simpl. intros [= <- <-]. eauto. }
      destruct before; by intros [= <- <-].
    - apply deepcopy_chain in Hcopy as (c' & t' & [= ->] & _ & Hc' & Hf & _).
      intros Hrun. eapply (chain_hooks_incl h c' t' t h1); [done..|].
      destruct before; [left|right]; exact Hrun.
    - apply deepcopy_inst in Hcopy as (i' & o & s' & t' & [= ->] & _ & Hi' & _ & _).
      intros Hrun. eapply (touches_inst_incl i' h h1); [done..|].
      destruct before;
        [eapply touches_call_before|eapply touches_call_after]; exact Hrun.
    - assert (∃ c', new = VCloud c') as [c' ->].
      { revert Hcopy. unfold deepcopy. destruct n; [done|]. simpl.
        destruct (clouds h !! l); [|done]. simpl.
        destruct (deepcopy_memo _ _ _ _) as [[[? ?] ?]|]; [|done].
        simpl. intros [= <- <-]. eauto. }
      destruct before; by intros [= <- <-]. }
  apply bind_inv in Hrest as [(u & h2 & Hrun & [= _ <-])|(e & Hrun & _)];
    by eapply Hhook.
Qed.
End inplace_facts.

(** ** More fuel changes no outcome *)
Section fuel_facts.
Context `{W : World}.

Lemma extends_refl {A} (m : M A) : extends m m.
Proof. by intros h o. Qed.

Lemma extends_stuck {A} (m : M A) : extends stuck m.
Proof. by intros h o. Qed.

Lemma extends_bind {A B} (m m' : M A) (f f' : A → M B) :
  extends m m' → (∀ a, extends (f a) (f' a)) →
  extends (bind m f) (bind m' f').
Proof.
  intros Hm Hf h o. unfold bind.
  destruct (m h) as [[[a|e] h1]|] eqn:E; [| |done];
    rewrite (Hm _ _ E); [apply Hf|done].
Qed.

Lemma extends_try {A} (m m' k k' : M A) :
  extends m m' → extends k k' →
  extends (try_except_AttributeError m k) (try_except_AttributeError m' k').
Proof.
  intros Hm Hk h o. unfold try_except_AttributeError.
  destruct (m h) as [[[a|e] h1]|] eqn:E; [| |done];
    rewrite (Hm _ _ E); [done|]. destruct e; auto.
Qed.

Lemma extends_reduce {A B} (f f' : A → B → M A) seq init :
  (∀ a b, extends (f a b) (f' a b)) →
  extends (reduce f seq init) (reduce f' seq init).
Proof.
  intros Hf. revert init. induction seq as [|b seq IH]; intros init; simpl.
  - apply extends_refl.
  - apply extends_bind; auto.
Qed.

Lemma call__apply_fuel n tr x kw :
  extends (call__apply n tr x kw) (call__apply (S n) tr x kw).
Proof.
  revert tr x kw. induction n as [|n IH]; intros tr x kw.
  { apply extends_stuck. }
  change (call__apply (S (S n)) tr x kw) with
    (match tr with
     | VChain c => TransformChain__apply (λ tr x_i, call__apply (S n) tr x_i []) c x kw
     | VInst i => prim__apply i x kw
     | _ => raise AttributeError
     end).
  change (call__apply (S n) tr x kw) with
    (match tr with
     | VChain c => TransformChain__apply (λ tr x_i, call__apply n tr x_i []) c x kw
     | VInst i => prim__apply i x kw
     | _ => raise AttributeError
     end).
  destruct tr; try apply extends_refl.
  unfold TransformChain__apply. apply extends_bind; [apply extends_refl|].
  intros [| |l'| | |]; try apply extends_refl.
  apply extends_bind; [apply extends_refl|]. intros items.
  apply extends_reduce. intros a b. apply IH.
Qed.

Lemma deepcopy_items_fuel copy copy' items m h o :
  (∀ x m h o, copy x m h = Some o → copy' x m h = Some o) →
  deepcopy_items copy items m h = Some o →
  deepcopy_items copy' items m h = Some o.
Proof.
  intros Hc. revert m h o. induction items as [|a items IH]; intros m h o; simpl.
  { done. }
  destruct (copy a m h) as [[[a' m1] h1]|] eqn:Ea; [|done].
  rewrite (Hc _ _ _ _ Ea). simpl.
  destruct (deepcopy_items copy items m1 h1) as [[[its m2] h2]|] eqn:Ei; [|done].
  by rewrite (IH _ _ _ Ei).
Qed.

Lemma deepcopy_memo_fuel n x m h o :
  deepcopy_memo n x m h = Some o → deepcopy_memo (S n) x m h = Some o.
Proof.
  revert x m h o. induction n as [|n IH]; intros x m h o; [done|].
  change (deepcopy_memo (S (S n)) x m h) with
    (match memo_get m x with
     | Some y => Some (y, m, h)
     | None =>
       match x with
       | VNone => Some (VNone, m, h)
       | VArr l =>
           a ← arrays h !! l;
           let l' := fresh (dom (arrays h)) in
           Some (VArr l', (x, VArr l') :: m, set_arrays <[l':=a]> h)
       | VList l =>
           items ← lists h !! l;
           let l' := fresh (dom (lists h)) in
           '(items', m', h') ← deepcopy_items (deepcopy_memo (S n)) items
                                 ((x, VList l') :: m) (set_lists <[l':=[]]> h);
           Some (VList l', m', set_lists <[l':=items']> h')
       | VChain c =>
           t ← chains h !! c;
           let c' := fresh (dom (chains h)) in
           '(t', m', h') ← deepcopy_memo (S n) t
                             ((x, VChain c') :: m) (set_chains <[c':=VNone]> h);
           Some (VChain c', m', set_chains <[c':=t']> h')
       | VInst i =>
           o ← insts h !! i;
           let i' := fresh (dom (insts h)) in
           '(s', m1, h1) ← deepcopy_memo (S n) (_source o) ((x, VInst i') :: m)
                             (set_insts <[i':=Inst (cls o) (params o) VNone VNone]> h);
           '(t', m2, h2) ← deepcopy_memo (S n) (_target o) m1 h1;
           Some (VInst i', m2, set_insts <[i':=Inst (cls o) (params o) s' t']> h2)
       | VCloud c =>
           p ← clouds h !! c;
           let c' := fresh (dom (clouds h)) in
           '(p', m', h') ← deepcopy_memo (S n) p
                             ((x, VCloud c') :: m) (set_clouds <[c':=VNone]> h);
           Some (VCloud c', m', set_clouds <[c':=p']> h')
       end
     end).
  intros H. cbn [deepcopy_memo] in H.
  destruct (memo_get m x); [done|].
  destruct x as [|l|l|c|i|c]; try done.
  - destruct (lists h !! l) as [items|]; [|done]. cbn [mbind option_bind] in *.
    destruct (deepcopy_items (deepcopy_memo n) _ _ _)
      as [[[items' m1] h1]|] eqn:Ei; [|done].
    by rewrite (deepcopy_items_fuel _ (deepcopy_memo (S n)) _ _ _ _ IH Ei).
  - destruct (chains h !! c) as [t|]; [|done]. cbn [mbind option_bind] in *.
    destruct (deepcopy_memo n t _ _) as [[[t' m1] h1]|] eqn:Et; [|done].
    by rewrite (IH _ _ _ _ Et).
  - destruct (insts h !! i) as [oi|]; [|done]. cbn [mbind option_bind] in *.
    destruct (deepcopy_memo n (_source oi) _ _) as [[[s' m1] h1]|] eqn:Es; [|done].
    rewrite (IH _ _ _ _ Es). cbn [mbind option_bind] in *.
    destruct (deepcopy_memo n (_target oi) _ _) as [[[t' m2] h2]|] eqn:Et; [|done].
    by rewrite (IH _ _ _ _ Et).
  - destruct (clouds h !! c) as [p|]; [|done]. cbn [mbind option_bind] in *.
    destruct (deepcopy_memo n p _ _) as [[[p' m1] h1]|] eqn:Et; [|done].
    by rewrite (IH _ _ _ _ Et).
Qed.

Lemma deepcopy_fuel n x : extends (deepcopy n x) (deepcopy (S n) x).
Proof.
  intros h o. unfold deepcopy.
  destruct (deepcopy_memo n x [] h) as [[[y m] h1]|] eqn:E; [|done].
  by rewrite (deepcopy_memo_fuel _ _ _ _ _ E).
Qed.

Lemma Transform_apply_fuel n self x kw :
  extends (Transform_apply n self x kw) (Transform_apply (S n) self x kw).
Proof.
  unfold Transform_apply. apply extends_try; [|apply call__apply_fuel].
  destruct x; try apply extends_refl.
  unfold call__transform, Transformable__transform.
  apply extends_bind; [apply deepcopy_fuel|]. intros copy.
  apply extends_bind; [|intros; apply extends_refl].
  destruct copy; try apply extends_refl.
  unfold call__transform_inplace, cloud__transform_inplace.
  apply extends_bind; [apply extends_refl|]. intros points.
  apply extends_bind; [apply call__apply_fuel|]. intros; apply extends_refl.
Qed.
End fuel_facts.

(** ** [deepcopy] returns on a closed store *)
Section termination_facts.
Context `{W : World}.

Lemma elem_of_all_objects h x :
  x ∈ all_objects h ↔ x ≠ VNone ∧ val_in h x.
Proof.
  unfold all_objects. rewrite !elem_of_app, !list_elem_of_fmap.
  setoid_rewrite elem_of_elements. setoid_rewrite elem_of_dom.
  split.
  - intros [(l&->&?)|[(l&->&?)|[(l&->&?)|[(l&->&?)|(l&->&?)]]]]; by split.
  - intros [Hx Hin]. destruct x; [done|..]; simpl in Hin; eauto 10.
Qed.

Lemma memo_ok_length h0 m : memo_ok h0 m → length m ≤ length (all_objects h0).
Proof.
  intros [Hnd Hsub]. rewrite <- (length_fmap fst m).
  apply submseteq_length, NoDup_submseteq; auto.
Qed.

Lemma memo_get_None m x : memo_get m x = None → x ∉ m.*1.
Proof.
  induction m as [|[k y] m IH]; simpl; [by intros _ ?%elem_of_nil|].
  case_decide; [done|]. intros Hm. apply not_elem_of_cons. auto.
Qed.

Lemma memo_ok_cons h0 m x y :
  memo_ok h0 m → memo_get m x = None → x ≠ VNone → val_in h0 x →
  memo_ok h0 ((x, y) :: m).
Proof.
  intros [Hnd Hsub] Hget Hx Hin. split; simpl.
  - constructor; [by apply memo_get_None|done].
  - intros k [->|Hk]%elem_of_cons; [|by apply Hsub].
    by apply elem_of_all_objects.
Qed.

Lemma deepcopy_items_returns h0 n copy items :
  copy_returns h0 n copy →
  ∀ m h,
    heap_incl h0 h → memo_ok h0 m → Forall (val_in h0) items →
    length (all_objects h0) < n + length m →
    ∃ items' m' h', deepcopy_items copy items m h = Some (items', m', h') ∧
                    heap_incl h0 h' ∧ memo_ok h0 m' ∧ length m ≤ length m'.
Proof.
  intros Hcopy. induction items as [|a items IH]; intros m h Hh Hm Hitems Hn.
  { exists [], m, h. by split_and!. }
  apply Forall_cons_1 in Hitems as [Ha Hitems].
  destruct (Hcopy a m h Hh Hm Ha Hn) as (a' & m1 & h1 & Ea & Hh1 & Hm1 & Hl1).
  destruct (IH m1 h1 Hh1 Hm1 Hitems) as (its & m2 & h2 & Ei & Hh2 & Hm2 & Hl2);
    [lia|].
  exists (a' :: its), m2, h2. simpl. rewrite Ea. simpl. rewrite Ei. simpl.
  split_and!; [done..|lia].
Qed.

Lemma deepcopy_memo_returns h0 n :
  closed h0 → copy_returns h0 n (deepcopy_memo n).
Proof.
  intros (Cl & Cc & Ci & Cp).
  induction n as [|n IH]; intros x m h Hh Hm Hx Hn.
  { apply memo_ok_length in Hm. lia. }
  cbn [deepcopy_memo]. destruct (memo_get m x) as [y|] eqn:Eg.
  { exists y, m, h. by split_and!. }
  pose proof Hh as (Ha & Hl & Hc & Hi & Hp).
  destruct x as [|l|l|c|i|c]; simpl in Hx.
  - exists VNone, m, h. by split_and!.
  - destruct Hx as [a Hx]. rewrite (lookup_weaken _ _ _ _ Hx Ha). simpl.
    destruct (subseteq_alloc _ _ a Ha) as [Ha' Hf].
    eexists _, _, _. split; [done|]. split_and!.
    + by split_and!.
    + apply memo_ok_cons; [done..|]. simpl. eauto.
    + simpl. lia.
  - destruct Hx as [items Hx]. rewrite (lookup_weaken _ _ _ _ Hx Hl). simpl.
    destruct (subseteq_alloc _ _ [] Hl) as [Hl' Hf].
    edestruct (deepcopy_items_returns h0 n (deepcopy_memo n) items IH
                 ((VList l, VList (fresh (dom (lists h)))) :: m)
                 (set_lists <[fresh (dom (lists h)):=[]]> h))
      as (items' & m1 & h1 & Ei & (Ha1 & Hl1 & Hc1 & Hi1 & Hp1) & Hm1 & Hlen);
      [by split_and!| |by eapply Cl| |].
    { apply memo_ok_cons; [done..|]. simpl. eauto. }
    { simpl. lia. }
    rewrite Ei. simpl. eexists _, _, _. split; [done|]. split_and!.
    + split_and!; try done. simpl. by apply subseteq_write.
    + done.
    + simpl in Hlen. lia.
  - destruct Hx as [t Hx]. rewrite (lookup_weaken _ _ _ _ Hx Hc). simpl.
    destruct (subseteq_alloc _ _ VNone Hc) as [Hc' Hf].
    edestruct (IH t ((VChain c, VChain (fresh (dom (chains h)))) :: m)
                 (set_chains <[fresh (dom (chains h)):=VNone]> h))
      as (t' & m1 & h1 & Et & (Ha1 & Hl1 & Hc1 & Hi1 & Hp1) & Hm1 & Hlen);
      [by split_and!| |by eapply Cc| |].
    { apply memo_ok_cons; [done..|]. simpl. eauto. }
    { simpl. lia. }
    rewrite Et. simpl. eexists _, _, _. split; [done|]. split_and!.
    + split_and!; try done. simpl. by apply subseteq_write.
    + done.
    + simpl in Hlen. lia.
  - destruct Hx as [o Hx]. rewrite (lookup_weaken _ _ _ _ Hx Hi). simpl.
    destruct (Ci _ _ Hx) as [Hsrc Htgt].
    destruct (subseteq_alloc _ _ (Inst (cls o) (params o) VNone VNone) Hi)
      as [Hi' Hf].
    edestruct (IH (_source o) ((VInst i, VInst (fresh (dom (insts h)))) :: m)
                 (set_insts <[fresh (dom (insts h)):=
                                Inst (cls o) (params o) VNone VNone]> h))
      as (s' & m1 & h1 & Es & Hh1 & Hm1 & Hlen1);
      [by split_and!| |done| |].
    { apply memo_ok_cons; [done..|]. simpl. eauto. }
    { simpl. lia. }
    rewrite Es. simpl.
    edestruct (IH (_target o) m1 h1)
      as (t' & m2 & h2 & Et & (Ha2 & Hl2 & Hc2 & Hi2 & Hp2) & Hm2 & Hlen2);
      [exact Hh1|exact Hm1|done| |].
    { simpl in Hlen1. lia. }
    rewrite Et. simpl. eexists _, _, _. split; [done|]. split_and!.
    + split_and!; try done. simpl. by apply subseteq_write.
    + done.
    + simpl in Hlen1. lia.
  - destruct Hx as [p Hx]. rewrite (lookup_weaken _ _ _ _ Hx Hp). simpl.
    destruct (subseteq_alloc _ _ VNone Hp) as [Hp' Hf].
    edestruct (IH p ((VCloud c, VCloud (fresh (dom (clouds h)))) :: m)
                 (set_clouds <[fresh (dom (clouds h)):=VNone]> h))
      as (p' & m1 & h1 & Et & (Ha1 & Hl1 & Hc1 & Hi1 & Hp1) & Hm1 & Hlen);
      [by split_and!| |by eapply Cp| |].
    { apply memo_ok_cons; [done..|]. simpl. eauto. }
    { simpl. lia. }
    rewrite Et. simpl. eexists _, _, _. split; [done|]. split_and!.
    + split_and!; try done. simpl. by apply subseteq_write.
    + done.
    + simpl in Hlen. lia.
Qed.

(** On a closed store [deepcopy] returns, with fuel for one call more than
    there are objects. *)
Lemma deepcopy_returns h x :
  closed h → val_in h x →
  ∃ y h', deepcopy (S (length (all_objects h))) x h = Some (Ret y, h').
Proof.
  intros Hcl Hx.
  destruct (deepcopy_memo_returns h (S (length (all_objects h))) Hcl x [] h)
    as (y & m' & h' & E & _); [done| |done|simpl; lia|].
  { split; [constructor|]. by intros k ?%elem_of_nil. }
  exists y, h'. unfold deepcopy. by rewrite E.
Qed.
End termination_facts.

(** ** A run in the small world *)

(** The native combine of a chain: the copy is a chain over a new list
    with copies of the two transforms and the third transform itself, and
    it applies them in that order. *)
Example native_combine_of_a_chain :
  ∃ h',
    (let! c := chain_of [VInst 1%positive; VInst 3%positive] in
     let! d := ComposableTransform_compose_before 4 c (VInst 2%positive) in
     let! r := Transform_apply 2 d (VArr 1%positive) [] in
     ret (c, d, r)) Toy.h0 =
    Some (Ret (VChain 1%positive, VChain 2%positive, VArr 7%positive), h') ∧
    lists h' !! 1%positive = Some [VInst 1%positive; VInst 3%positive] ∧
    lists h' !! 2%positive =
      Some [VInst 5%positive; VInst 6%positive; VInst 2%positive] ∧
    arrays h' !! 1%positive = Some [[0; 0]; [2; 2]]%Z ∧
    arrays h' !! 7%positive = Some [[12; 24]; [16; 28]]%Z.
Proof. eexists. split_and!; [vm_compute; reflexivity|reflexivity..]. Qed.

(** Translation by [(1, 2)] before, respectively after, scaling by
    [(2, 2)], on the points [(0, 0)] and [(2, 2)]. *)
Example compose_before_in_the_small_world :
  ∃ c h1 r h2,
    Transform_compose_before (VInst 1%positive) (VInst 3%positive) Toy.h0 =
      Some (Ret c, h1) ∧
    Transform_apply 2 c (VArr 1%positive) [] h1 = Some (Ret (VArr r), h2) ∧
    arrays h2 !! r = Some [[2; 4]; [6; 8]]%Z ∧
    arrays h2 !! 1%positive = Some [[0; 0]; [2; 2]]%Z.
Proof.
  eexists _, _, _, _.
  split_and!; [reflexivity|vm_compute; reflexivity|reflexivity..].
Qed.

Example compose_after_in_the_small_world :
  ∃ c h1 r h2,
    Transform_compose_after (VInst 1%positive) (VInst 3%positive) Toy.h0 =
      Some (Ret c, h1) ∧
    Transform_apply 2 c (VArr 1%positive) [] h1 = Some (Ret (VArr r), h2) ∧
    arrays h2 !! r = Some [[1; 2]; [5; 6]]%Z.
Proof.
  eexists _, _, _, _.
  split_and!; [reflexivity|vm_compute; reflexivity|reflexivity].
Qed.

(** A chain that holds itself applies without end: with whatever fuel,
    [_apply] has no outcome.  This is why [_apply] takes fuel. *)
Lemma chain_in_itself_no_outcome n x kw (h : heap) :
  chains h !! 1%positive = Some (VList 1%positive) →
  lists h !! 1%positive = Some [VInst 1%positive; VChain 1%positive] →
  insts h !! 1%positive = Some (Inst Toy.Translation [1; 2]%Z VNone VNone) →
  call__apply n (VChain 1%positive) x kw h = None.
Proof.
  revert x kw h. induction n as [|n IH]; intros x kw h Hc Hl Hi; [done|].
  rewrite (chain_apply n _ _ _ x kw h Hc Hl). simpl. unfold bind at 1.
  destruct (call__apply n (VInst 1%positive) x _ h) as [[[q|e] h1]|] eqn:E;
    [| |done].
  - pose proof (call__apply_more_arrays _ _ _ _ _ _ _ E) as (_ & El & Ec & Ei & _).
    unfold bind. rewrite IH; [done|by rewrite Ec|by rewrite El|by rewrite Ei].
  - exfalso. destruct n; [done|]. cbn [call__apply] in E.
    unfold prim__apply, bind, get_inst in E. unfold loc in *.
    rewrite Hi in E.
    destruct x as [|p| | | |]; try done.
    unfold get_array in E. by destruct (arrays h !! p).
Qed.

Example chain_in_itself n x kw :
  (let! c := chain_of [VInst 1%positive] in
   run! ComposableTransform_compose_before_inplace c c in
   call__apply n c x kw) Toy.h0 = None.
Proof.
  assert (∃ h, (let! c := chain_of [VInst 1%positive] in
                run! ComposableTransform_compose_before_inplace c c in
                ret c) Toy.h0 = Some (Ret (VChain 1%positive), h) ∧
               chains h !! 1%positive = Some (VList 1%positive) ∧
               lists h !! 1%positive =
                 Some [VInst 1%positive; VChain 1%positive] ∧
               insts h !! 1%positive =
                 Some (Inst Toy.Translation [1; 2]%Z VNone VNone))
    as (h & Hrun & Hc & Hl & Hi).
  { eexists. split_and!; [vm_compute; reflexivity|reflexivity..]. }
  revert Hrun. unfold bind.
  destruct (chain_of _ _) as [[[c|?] h1]|]; [|done..].
  destruct (ComposableTransform_compose_before_inplace c c h1)
    as [[[?|?] h2]|]; [|done..].
  intros [= -> ->]. by apply chain_in_itself_no_outcome.
Qed.

(** ** Chains over any list *)
Section long_chain_facts.
Context `{W : World}.

Lemma reduce_app {A B} (f : A → B → M A) xs ys init h :
  reduce f (xs ++ ys) init h = (let! q := reduce f xs init in reduce f ys q) h.
Proof.
  revert init h. induction xs as [|b xs IH]; intros init h; [done|].
  simpl. unfold bind in *. destruct (f init b h) as [[[a|e] h1]|]; [|done..].
  apply IH.
Qed.

Lemma chain_apply_items n c l items x kw h :
  chains h !! c = Some (VList l) → lists h !! l = Some items →
  call__apply (S n) (VChain c) x kw h = apply_items n items x h.
Proof. apply chain_apply. Qed.

Lemma apply_items_more_arrays n items x :
  preserves more_arrays (apply_items n items x).
Proof.
  apply preserves_reduce; [apply _|]. intros. apply call__apply_more_arrays.
Qed.

(** A chain that is an element of its own list returns from no call. *)
Lemma chain_in_own_list n : ∀ c l items x kw h v h',
  chains h !! c = Some (VList l) → lists h !! l = Some items →
  VChain c ∈ items →
  call__apply n (VChain c) x kw h ≠ Some (Ret v, h').
Proof.
  induction n as [|n IH]; intros c l items x kw h v h' Hc Hl Hin; [done|].
  rewrite (chain_apply_items _ _ _ _ _ _ _ Hc Hl).
  apply list_elem_of_split in Hin as (pre & post & ->).
  unfold apply_items. rewrite reduce_app.
  intros [(q & h1 & Hpre & Hrest)|(e & _ & [=])]%bind_inv.
  pose proof (apply_items_more_arrays n pre x _ _ _ Hpre) as (_ & El & Ec & _).
  simpl in Hrest.
  apply bind_inv in Hrest as [(q2 & h2 & Hself & _)|(e & _ & [=])].
  eapply (IH c l (pre ++ VChain c :: post)); [| | |exact Hself].
  - by rewrite Ec.
  - by rewrite El.
  - set_solver.
Qed.
End long_chain_facts.

(** ** What [apply] and [apply_inplace] write *)
Section write_facts.
Context `{W : World}.

Lemma preserves_weaken {A} (P Q : heap → heap → Prop) (m : M A) :
  (∀ h h', P h h' → Q h h') → preserves P m → preserves Q m.
Proof. intros HPQ Hm h r h' Hrun. by eapply HPQ, Hm. Qed.

#[global] Instance writes_only_preorder x : PreOrder (writes_only x).
Proof.
  split.
  - intros h. by split_and!.
  - intros h1 h2 h3 (Ha & Hl & Hc & Hi & Hp) (Ha' & Hl' & Hc' & Hi' & Hp').
    split_and!; try (by etrans); eauto.
Qed.

Lemma more_arrays_writes_only x h h' : more_arrays h h' → writes_only x h h'.
Proof.
  intros (Ha & El & Ec & Ei & Ep). unfold writes_only.
  rewrite El, Ec, Ei, Ep. split_and!; try done.
  intros l a _ Hl. by eapply lookup_weaken.
Qed.

Lemma writes_only_put_cloud c r : preserves (writes_only (VCloud c)) (put_cloud c r).
Proof.
  intros h u h' [= <- <-]. split_and!; try done.
  intros k p Hk Hp. simpl. rewrite lookup_insert_ne; [done|congruence].
Qed.

Lemma writes_only_put_array l a : preserves (writes_only (VArr l)) (put_array l a).
Proof.
  intros h u h' [= <- <-]. split_and!; try done.
  intros k p Hk Hp. simpl. rewrite lookup_insert_ne; [done|congruence].
Qed.

Lemma writes_only_call__apply y n tr x kw :
  preserves (writes_only y) (call__apply n tr x kw).
Proof.
  eapply preserves_weaken; [apply more_arrays_writes_only|].
  apply call__apply_more_arrays.
Qed.

Lemma Transform_apply_inplace_writes_only n self x kw :
  preserves (writes_only x) (Transform_apply_inplace n self x kw).
Proof.
  unfold Transform_apply_inplace. apply preserves_try; [apply _| |].
  - destruct x; simpl; repeat preserves_step.
    unfold cloud__transform_inplace.
    repeat first [apply writes_only_call__apply|apply writes_only_put_cloud
                 |preserves_step].
  - apply preserves_bind; [apply _|apply writes_only_call__apply|].
    intros r. destruct x; simpl;
      repeat first [apply writes_only_put_array|preserves_step].
Qed.

Lemma get_cloud_inv c h r h1 :
  get_cloud c h = Some (r, h1) →
  h1 = h ∧ ∃ p, r = Ret p ∧ clouds h !! c = Some p.
Proof.
  unfold get_cloud. destruct (clouds h !! c) as [p|]; [|done].
  intros [= <- <-]. eauto.
Qed.

(** The copy of a point cloud is a point cloud. *)
Lemma deepcopy_cloud_is_cloud n c h y h1 :
  deepcopy n (VCloud c) h = Some (Ret y, h1) →
  ∃ c', y = VCloud c' ∧ clouds h !! c' = None ∧ heap_incl h h1.
Proof.
  intros E. pose proof (deepcopy_new _ _ _ _ _ E) as (y' & [= <-] & Hincl & Hf).
  revert E Hf. unfold deepcopy. destruct n as [|n]; [done|]. simpl.
  destruct (clouds h !! c); [|done]. simpl.
  destruct (deepcopy_memo _ _ _ _) as [[[? ?] ?]|]; [|done].
  simpl. intros [= <- <-] Hf. eauto.
Qed.

(** [_transform] writes to the copy only. *)
Lemma call__transform_incl n x f :
  (∀ y, preserves more_arrays (f y)) →
  preserves heap_incl (call__transform n x f).
Proof.
  intros Hf h r h' Hrun. destruct x as [| | | | |c]; simpl in Hrun;
    try (injection Hrun as <- <-; reflexivity).
  unfold Transformable__transform in Hrun.
  apply bind_inv in Hrun as [(y & h1 & Hcopy & Hrest)|(e & Hcopy & _)];
    [|by apply deepcopy_new in Hcopy as (? & ? & _)].
  apply deepcopy_cloud_is_cloud in Hcopy as (c' & -> & Hc' & Hincl).
  assert (∀ r2 h2, cloud__transform_inplace c' f h1 = Some (r2, h2) →
                   heap_incl h h2) as Hhook.
  { intros r2 h2. unfold cloud__transform_inplace.
    intros [(p & ? & [-> _]%get_cloud_inv & Hr)|(e & (_ & ? & [=] & _)%get_cloud_inv & _)]%bind_inv.
    apply bind_inv in Hr as [(q & h3 & Hq & Hr)|(e & Hq & _)].
    2:{ etrans; [exact Hincl|]. by eapply more_arrays_incl, Hf. }
    apply Hf in Hq as Hm. apply more_arrays_incl in Hm as Hm'.
    assert (heap_incl h h3) as (?&?&?&?&?) by (by etrans).
    apply bind_inv in Hr as [(u & h4 & [= _ <-] & [= _ <-])|(e & [=] & _)].
    split_and!; try done. simpl. by apply subseteq_write. }
  simpl in Hrest.
  apply bind_inv in Hrest as [(u & h2 & Hrun & [= _ <-])|(e & Hrun & _)];
    by eapply Hhook.
Qed.

Lemma Transform_apply_incl n self x kw :
  preserves heap_incl (Transform_apply n self x kw).
Proof.
  unfold Transform_apply. apply preserves_try; [apply _| |].
  - apply call__transform_incl. intros y. apply call__apply_more_arrays.
  - eapply preserves_weaken; [apply more_arrays_incl|].
    apply call__apply_more_arrays.
Qed.
End write_facts.

(** ** Chains of chains *)
Section nesting_facts.
Context `{W : World}.

Lemma chain_of_lookup items h v h1 :
  chain_of items h = Some (Ret v, h1) →
  ∃ c l, v = VChain c ∧ chains h1 !! c = Some (VList l) ∧
         lists h1 !! l = Some items ∧ heap_incl h h1.
Proof.
  intros E. pose proof (chain_of_incl _ _ _ _ E) as (Hincl & _).
  rewrite chain_of_run in E. injection E as <- <-.
  eexists _, _. split_and!; [done|apply lookup_insert_eq|apply lookup_insert_eq|done].
Qed.

Lemma pair_chain_lookup n c l a b x kw h :
  chains h !! c = Some (VList l) → lists h !! l = Some [a; b] →
  call__apply (S n) (VChain c) x kw h =
  (let! q := call__apply n a x [] in call__apply n b q []) h.
Proof.
  intros Hc Hl. rewrite (chain_apply _ _ _ _ _ _ _ Hc Hl). simpl.
  apply bind_ext. intros q h1 _. apply bind_ret_r.
Qed.

(** Three transforms in a row, and the two chains of a chain and a
    transform that hold them. *)
Lemma nested_chains_apply n a b c x kw h cab lab cl ll cbc lbc cr lr o :
  chains h !! cab = Some (VList lab) → lists h !! lab = Some [a; b] →
  chains h !! cl = Some (VList ll) → lists h !! ll = Some [VChain cab; c] →
  chains h !! cbc = Some (VList lbc) → lists h !! lbc = Some [b; c] →
  chains h !! cr = Some (VList lr) → lists h !! lr = Some [a; VChain cbc] →
  (let! q := call__apply n a x [] in
   let! q' := call__apply n b q [] in
   call__apply n c q' []) h = Some o →
  call__apply (S (S n)) (VChain cl) x kw h = Some o ∧
  call__apply (S (S n)) (VChain cr) x kw h = Some o.
Proof.
  intros Hcab Hlab Hcl Hll Hcbc Hlbc Hcr Hlr Hseq. split.
  - rewrite (pair_chain_lookup (S n) cl ll _ _ x kw h Hcl Hll).
    unfold bind at 1.
    rewrite (pair_chain_lookup n cab lab _ _ x [] h Hcab Hlab).
    revert Hseq. unfold bind.
    destruct (call__apply n a x [] h) as [[[q|e] h1]|]; [| |done].
    + destruct (call__apply n b q [] h1) as [[[q'|e] h2]|]; [| |done].
      * apply call__apply_fuel.
      * done.
    + done.
  - rewrite (pair_chain_lookup (S n) cr lr _ _ x kw h Hcr Hlr).
    revert Hseq. unfold bind at 1 3.
    destruct (call__apply n a x [] h) as [[[q|e] h1]|] eqn:Ea; [| |done].
    + rewrite (call__apply_fuel _ _ _ _ _ _ Ea).
      pose proof (call__apply_more_arrays _ _ _ _ _ _ _ Ea) as (_ & El & Ec & _).
      rewrite (pair_chain_lookup n cbc lbc b c q [] h1);
        [|by rewrite Ec|by rewrite El].
      done.
    + by rewrite (call__apply_fuel _ _ _ _ _ _ Ea).
Qed.
End nesting_facts.

(** ** What a failed composition in place leaves behind *)
Section failure_facts.
Context `{W : World}.

#[global] Instance same_heap_preorder : PreOrder (λ h h' : heap, h' = h).
Proof. split; [done|]. by intros h1 h2 h3 -> ->. Qed.

Lemma call_as_vector_same x h r h1 : call_as_vector x h = Some (r, h1) → h1 = h.
Proof. apply (preserves_call_as_vector (λ h h' : heap, h' = h)). Qed.

Lemma isinstance_composes_same x t h r h1 :
  isinstance_composes x t h = Some (r, h1) → h1 = h.
Proof. apply (preserves_isinstance_composes (λ h h' : heap, h' = h)). Qed.

Lemma seen_same x h r h1 : seen x h = Some (r, h1) → h1 = h.
Proof. apply (preserves_seen (λ h h' : heap, h' = h)). Qed.

(** A hook of a concrete class that raises has written nothing. *)
Lemma inst_hook_raise hook i t h e h' :
  inst_hook hook i t h = Some (Raise e, h') → h' = h.
Proof.
  unfold inst_hook.
  intros [(o & ? & [-> _]%get_inst_inv & Hr)|(e' & [-> _]%get_inst_inv & _)]%bind_inv;
    [|done].
  apply bind_inv in Hr as [(s & ? & ->%seen_same & Hr)|(e' & ->%seen_same & _)];
    [|done].
  apply bind_inv in Hr as [(s' & ? & Hl & Hr)|(e' & Hl & _)].
  - apply bind_inv in Hr as [(u & ? & _ & [=])|(e' & [=] & _)].
  - unfold lift_res in Hl. by injection Hl as _ <-.
Qed.

Lemma compose_before_inplace_raise i t h e h' :
  ComposableTransform_compose_before_inplace (VInst i) t h = Some (Raise e, h') →
  h' = h.
Proof.
  unfold ComposableTransform_compose_before_inplace.
  intros [(b & ? & ->%isinstance_composes_same & Hr)
         |(e' & ->%isinstance_composes_same & _)]%bind_inv; [|done].
  destruct b; [|by injection Hr as _ <-].
  apply bind_inv in Hr as [(u & ? & _ & [=])|(e' & Hr & _)].
  simpl in Hr.
  apply bind_inv in Hr as [(o & ? & [-> _]%get_inst_inv & Hr)
                          |(e'' & [-> _]%get_inst_inv & _)]; [|done].
  by eapply inst_hook_raise.
Qed.

Lemma call_from_vector_inv self v h r h1 :
  call_from_vector self v h = Some (r, h1) →
  ∃ o, insts h !! self = Some o ∧
    match from_vector (cls o) (params o) v with
    | Ret ks => r = Ret (VInst (fresh (dom (insts h)))) ∧
                h1 = set_insts <[fresh (dom (insts h)):=Inst ks.1 ks.2 VNone VNone]> h
    | Raise e => r = Raise e ∧ h1 = h
    end.
Proof.
  unfold call_from_vector, bind, get_inst, lift_res, new_inst.
  destruct (insts h !! self) as [o|]; [|done]. simpl. intros Hrun.
  exists o. split; [done|]. revert Hrun.
  destruct (from_vector _ _ _) as [ks|e]; by intros [= <- <-].
Qed.

(** [compose_before_from_vector_inplace] that raises has at most added the
    instance built from the vector. *)
Lemma compose_before_from_vector_raise self v h e h' :
  VComposableTransform_compose_before_from_vector_inplace self v h =
    Some (Raise e, h') →
  ∀ o, insts h !! self = Some o → insts h' !! self = Some o.
Proof.
  unfold VComposableTransform_compose_before_from_vector_inplace.
  intros [(b & h1 & Hfrom & Hr)|(e' & Hfrom & _)]%bind_inv o Ho.
  - apply compose_before_inplace_raise in Hr as ->.
    apply call_from_vector_inv in Hfrom as (o' & _ & Hfrom).
    destruct (from_vector _ _ _); destruct Hfrom as [_ ->]; [|done].
    simpl. rewrite lookup_insert_ne; [done|].
    intros Heq. pose proof (fresh_lookup (insts h)) as Hf.
    rewrite Heq in Hf. by rewrite Hf in Ho.
  - apply call_from_vector_inv in Hfrom as (o' & _ & Hfrom).
    destruct (from_vector _ _ _); destruct Hfrom as [? ->]; done.
Qed.
End failure_facts.

(** ** Composition with a transform given as a vector *)
Section vector_facts.
Context `{W : World}.

Lemma fresh_inst_ne (h : heap) i o : insts h !! i = Some o → fresh (dom (insts h)) ≠ i.
Proof.
  intros Ho Heq. pose proof (fresh_lookup (insts h)) as Hf.
  rewrite Heq in Hf. by rewrite Hf in Ho.
Qed.

Lemma call_update_from_vector_inv self v h r h1 :
  call_update_from_vector self v h = Some (r, h1) →
  ∃ o, insts h !! self = Some o ∧
    match update_from_vector (cls o) (params o) v with
    | Ret s => r = Ret VNone ∧
               h1 = set_insts <[self:=Inst (cls o) s (_source o) (_target o)]> h
    | Raise e => r = Raise e ∧ h1 = h
    end.
Proof.
  unfold call_update_from_vector, bind, get_inst, lift_res, put_inst.
  destruct (insts h !! self) as [o|]; [|done]. simpl. intros Hrun.
  exists o. split; [done|]. revert Hrun.
  destruct (update_from_vector _ _ _) as [s|e]; by intros [= <- <-].
Qed.

(** [compose_before_from_vector_inplace] with the vector of the parameters
    [sb], in a class that keeps the laws. *)
Lemma compose_before_from_vector_run self o sb v h :
  vcomposable_laws (cls o) → insts h !! self = Some o →
  as_vector (cls o) sb = Some v →
  ∃ classes k2 s2 s3,
    composes_inplace_with (cls o) = Some classes ∧
    from_vector (cls o) (params o) v = Ret (k2, s2) ∧
    classes (TyInst k2) = true ∧
    (∀ kw a, prim_apply k2 s2 kw a = prim_apply (cls o) sb kw a) ∧
    VComposableTransform_compose_before_from_vector_inplace self v h =
      Some (Ret VNone,
            set_insts <[self:=Inst (cls o) s3 (_source o) (_target o)]>
              (set_insts <[fresh (dom (insts h)):=Inst k2 s2 VNone VNone]> h)) ∧
    ∀ kw a, prim_apply (cls o) s3 kw a =
            res_bind (prim_apply (cls o) (params o) kw a) (prim_apply (cls o) sb kw).
Proof.
  intros L Ho Hv.
  destruct (law_from_vector _ L (params o) _ _ Hv)
    as (k2 & s2 & classes & Hfrom & Hcl & Hadm & Hs2).
  destruct (law_compose_before _ L classes (params o) k2 s2 Hcl Hadm)
    as (s3 & Hhook & Hs3).
  set (inew := fresh (dom (insts h))).
  set (h2 := set_insts <[inew:=Inst k2 s2 VNone VNone]> h).
  assert (inew ≠ self) as Hne by (by eapply fresh_inst_ne).
  assert (insts h2 !! self = Some o) as Hself2.
  { unfold h2; simpl. by rewrite lookup_insert_ne. }
  assert (insts h2 !! inew = Some (Inst k2 s2 VNone VNone)) as Hnew2.
  { unfold h2; simpl. apply lookup_insert_eq. }
  exists classes, k2, s2, s3. split_and!; try done.
  - unfold VComposableTransform_compose_before_from_vector_inplace.
    erewrite bind_run by (by eapply call_from_vector_run).
    fold inew. fold h2.
    unfold ComposableTransform_compose_before_inplace.
    erewrite bind_run.
    2:{ eapply isinstance_composes_inst; [exact Hself2|exact Hcl|].
        by eapply type_of_inst. }
    simpl. rewrite Hadm.
    erewrite bind_run.
    2:{ eapply call__compose_before_inplace_inst; [exact Hself2|exact Hnew2|].
        exact Hhook. }
    done.
  - intros kw a. rewrite Hs3.
    destruct (prim_apply (cls o) (params o) kw a); simpl; [apply Hs2|done].
Qed.

(** The default [_compose_after_inplace], in a class that keeps the laws,
    with a transform of a vectorizable class the receiver composes with. *)
Lemma default_compose_after_run self tl o j classes h :
  vcomposable_laws (cls o) →
  insts h !! self = Some o → insts h !! tl = Some j →
  composes_inplace_with (cls o) = Some classes →
  classes (TyInst (cls j)) = true →
  is_Some (as_vector (cls j) (params j)) →
  ∃ s h',
    VComposableTransform__compose_after_inplace self (VInst tl) h =
      Some (Ret VNone, h') ∧
    insts h' !! self = Some (Inst (cls o) s (_source o) (_target o)) ∧
    (∀ kw a, prim_apply (cls o) s kw a =
             res_bind (prim_apply (cls j) (params j) kw a)
                      (prim_apply (cls o) (params o) kw)) ∧
    touches_inst self h h'.
Proof.
  intros L Ho Hj Hcl Hadm [vt Hvt].
  destruct (law_as_vector _ L (params o)) as [va Hva].
  destruct (law_update_from_vector _ L classes (params o) _ _ _ Hcl Hadm Hvt)
    as (s1 & Hupd & Hs1).
  set (o1 := Inst (cls o) s1 (_source o) (_target o)).
  set (h1 := set_insts <[self:=o1]> h).
  assert (insts h1 !! self = Some o1) as Ho1 by apply lookup_insert_eq.
  destruct (compose_before_from_vector_run self o1 (params o) va h1 L Ho1 Hva)
    as (classes' & k2 & s2 & s3 & _ & _ & _ & _ & Hrun & Hs3).
  match type of Hrun with _ = Some (_, ?hh) => set (h3 := hh) in * end.
  exists s3, h3.
  assert (VComposableTransform__compose_after_inplace self (VInst tl) h =
          Some (Ret VNone, h3)) as E.
  { unfold VComposableTransform__compose_after_inplace.
    erewrite bind_run by (by eapply call_as_vector_run).
    erewrite bind_run by (by eapply call_as_vector_run).
    erewrite bind_run by (by eapply call_update_from_vector_run).
    exact Hrun. }
  split_and!; [exact E|apply lookup_insert_eq| |by eapply touches_default_after].
  intros kw a. rewrite Hs3. simpl. rewrite Hs1.
  by destruct (prim_apply (cls j) (params j) kw a).
Qed.
End vector_facts.

Section vector_frame_facts.
Context `{W : World}.

Ltac touches_step i :=
  first
    [ apply (touches_put_inst i) | apply (touches_new_inst i)
    | apply preserves_seen | apply preserves_call_as_vector
    | apply preserves_isinstance_composes
    | preserves_step ];
  try apply _.

Lemma touches_before_from_vector i v :
  preserves (touches_inst i)
    (VComposableTransform_compose_before_from_vector_inplace i v).
Proof.
  unfold VComposableTransform_compose_before_from_vector_inplace, call_from_vector.
  repeat first [apply touches_compose_before_inplace|touches_step i].
Qed.

Lemma touches_compose_after_inplace i t :
  preserves (touches_inst i) (ComposableTransform_compose_after_inplace (VInst i) t).
Proof.
  unfold ComposableTransform_compose_after_inplace.
  repeat first [apply touches_call_after|touches_step i].
Qed.

Lemma touches_after_from_vector i v :
  preserves (touches_inst i)
    (VComposableTransform_compose_after_from_vector_inplace i v).
Proof.
  unfold VComposableTransform_compose_after_from_vector_inplace, call_from_vector.
  repeat first [apply touches_compose_after_inplace|touches_step i].
Qed.
End vector_frame_facts.

(** ** [n_dims] and [n_points] through the sources

    The number of steps [call_n_dims] and [call_n_points] allow is enough:
    a walk from source to source that ends passes no instance twice. *)
Section walk_facts.
Context `{W : World}.

Lemma pa_source_agree h i s s' : pa_source h i s → pa_source h i s' → s = s'.
Proof. intros (o & Ho & _ & <-) (o' & Ho' & _ & <-). congruence. Qed.

Lemma walk_end_or h x : (∃ i s, x = VInst i ∧ pa_source h i s) ∨ walk_end h x.
Proof.
  destruct x as [| | | |i|]; try (right; by intros ? ? [=]).
  destruct (insts h !! i) as [o|] eqn:Ho.
  - destruct (pure_alignment (cls o)) eqn:Hp.
    + left. exists i, (_source o). split; [done|]. by exists o.
    + right. intros ? s [= <-] (o' & Ho' & Hp' & _). congruence.
  - right. intros ? s [= <-] (o' & Ho' & _). congruence.
Qed.

(** A walk that ends is the only one from where it starts. *)
Lemma walk_agree h x l y :
  walk h x l y → walk_end h y →
  ∀ l' y', walk h x l' y' → walk_end h y' → l' = l.
Proof.
  induction 1 as [x|i s l y Hs _ IH]; intros Hy l' y' Hw' Hy'.
  - destruct Hw' as [|i s l' y' Hs _]; [done|]. by destruct (Hy i s eq_refl).
  - inversion Hw' as [|i' s' l'' y'' Hs' Hw'']; subst.
    + by destruct (Hy' i s eq_refl).
    + rewrite (pa_source_agree _ _ _ _ Hs' Hs) in Hw''.
      f_equal. by eapply IH.
Qed.

(** From an instance on the walk, the rest of the walk. *)
Lemma walk_from h x l y i :
  walk h x l y → i ∈ l →
  ∃ l1 l2, l = l1 ++ i :: l2 ∧ walk h (VInst i) (i :: l2) y.
Proof.
  induction 1 as [x|j s l y Hs Hw IH]; [by intros ?%elem_of_nil|].
  intros [->|Hin]%elem_of_cons.
  - exists [], l. split; [done|]. by eapply walk_step.
  - destruct (IH Hin) as (l1 & l2 & -> & Hw').
    exists (j :: l1), l2. by split.
Qed.

Lemma walk_NoDup h x l y : walk h x l y → walk_end h y → NoDup l.
Proof.
  induction 1 as [x|i s l y Hs Hw IH]; intros Hy; [constructor|].
  constructor; [|by apply IH].
  intros Hin. destruct (walk_from _ _ _ _ _ Hw Hin) as (l1 & l2 & -> & Hw').
  inversion Hw' as [|i' s' l'' y'' Hs' Hw'']; subst.
  rewrite (pa_source_agree _ _ _ _ Hs' Hs) in Hw''.
  pose proof (walk_agree _ _ _ _ Hw Hy _ _ Hw'' Hy) as Heq.
  apply (f_equal length) in Heq. rewrite length_app in Heq. simpl in Heq. lia.
Qed.

Lemma walk_insts h x l y : walk h x l y → ∀ i, i ∈ l → is_Some (insts h !! i).
Proof.
  induction 1 as [x|j s l y (o & Ho & _) _ IH]; [by intros ? ?%elem_of_nil|].
  intros i [->|Hin]%elem_of_cons; [by eexists|by apply IH].
Qed.

Lemma walk_length h x l y :
  walk h x l y → walk_end h y → length l ≤ size (insts h).
Proof.
  intros Hw Hy. rewrite <- size_dom. unfold size, set_size. simpl.
  apply submseteq_length, NoDup_submseteq; [by eapply walk_NoDup|].
  intros i Hi. apply elem_of_elements, elem_of_dom. by eapply walk_insts.
Qed.

(** A lookup that goes from an instance of a [PureAlignment] class to its
    source, one step at a time, and reads where the walk ends. *)
Section lookup.
Context {A : Type} (f : nat → val → M A).
Hypothesis f_step : ∀ n i s h, pa_source h i s → f (S n) (VInst i) h = f n s h.
Hypothesis f_none : ∀ i s h, pa_source h i s → f 0 (VInst i) h = None.
Hypothesis f_end : ∀ n x h, walk_end h x → f n x h = f 0 x h.

Lemma lookup_walk n : ∀ x h o,
  f n x h = Some o →
  ∃ l y, walk h x l y ∧ walk_end h y ∧ f 0 y h = Some o.
Proof.
  induction n as [|n IH]; intros x h o Hf.
  - destruct (walk_end_or h x) as [(i & s & -> & Hs)|Hend].
    + by rewrite (f_none _ _ _ Hs) in Hf.
    + exists [], x. split_and!; [constructor|done|done].
  - destruct (walk_end_or h x) as [(i & s & -> & Hs)|Hend].
    + rewrite (f_step _ _ _ _ Hs) in Hf.
      destruct (IH _ _ _ Hf) as (l & y & Hw & Hy & Ho).
      exists (i :: l), y. split_and!; [by econstructor|done|done].
    + exists [], x. split_and!; [constructor|done|]. by rewrite <- (f_end (S n)).
Qed.

Lemma walk_lookup h x l y :
  walk h x l y → ∀ k, f (length l + k) x h = f k y h.
Proof.
  induction 1 as [x|i s l y Hs _ IH]; intros k; [done|].
  simpl. rewrite (f_step _ _ _ _ Hs). apply IH.
Qed.

(** Whatever some number of steps gives, the steps the store allows give. *)
Lemma lookup_enough n x h o :
  f n x h = Some o → f (size (insts h)) x h = Some o.
Proof.
  intros (l & y & Hw & Hy & Ho)%lookup_walk.
  pose proof (walk_length _ _ _ _ Hw Hy) as Hlen.
  replace (size (insts h)) with (length l + (size (insts h) - length l)) by lia.
  by rewrite (walk_lookup _ _ _ _ Hw), f_end.
Qed.

(** On an instance of a [PureAlignment] class the lookup is the lookup on
    its source. *)
Lemma lookup_source i s h :
  pa_source h i s →
  f (size (insts h)) (VInst i) h = f (size (insts h)) s h.
Proof.
  intros Hs.
  destruct (f (size (insts h)) s h) as [o|] eqn:E.
  - apply (lookup_enough (S (size (insts h)))). by rewrite (f_step _ _ _ _ Hs).
  - destruct (f (size (insts h)) (VInst i) h) as [o|] eqn:E'; [|done].
    destruct (size (insts h)) as [|m] eqn:Hm.
    + by rewrite (f_none _ _ _ Hs) in E'.
    + rewrite (f_step _ _ _ _ Hs) in E'.
      apply lookup_enough in E'. rewrite Hm in E'. congruence.
Qed.
End lookup.

Lemma n_dims_within_step n i s h :
  pa_source h i s → n_dims_within (S n) (VInst i) h = n_dims_within n s h.
Proof.
  intros (o & Ho & Hp & <-). simpl. unfold bind, get_inst. by rewrite Ho, Hp.
Qed.

Lemma n_dims_within_none i s h :
  pa_source h i s → n_dims_within 0 (VInst i) h = None.
Proof.
  intros (o & Ho & Hp & <-). simpl. unfold bind, get_inst. by rewrite Ho, Hp.
Qed.

Lemma n_dims_within_end n x h :
  walk_end h x → n_dims_within n x h = n_dims_within 0 x h.
Proof.
  intros Hend. destruct n; [done|]. destruct x as [| | | |i|]; try done.
  simpl. unfold bind, get_inst. destruct (insts h !! i) as [o|] eqn:Ho; [|done].
  destruct (pure_alignment (cls o)) eqn:Hp; [|done].
  destruct (Hend i (_source o) eq_refl). by exists o.
Qed.

Lemma n_points_within_step n i s h :
  pa_source h i s → n_points_within (S n) (VInst i) h = n_points_within n s h.
Proof.
  intros (o & Ho & Hp & <-). simpl. unfold bind, get_inst. by rewrite Ho, Hp.
Qed.

Lemma n_points_within_none i s h :
  pa_source h i s → n_points_within 0 (VInst i) h = None.
Proof.
  intros (o & Ho & Hp & <-). simpl. unfold bind, get_inst. by rewrite Ho, Hp.
Qed.

Lemma n_points_within_end n x h :
  walk_end h x → n_points_within n x h = n_points_within 0 x h.
Proof.
  intros Hend. destruct n; [done|]. destruct x as [| | | |i|]; try done.
  simpl. unfold bind, get_inst. destruct (insts h !! i) as [o|] eqn:Ho; [|done].
  destruct (pure_alignment (cls o)) eqn:Hp; [|done].
  destruct (Hend i (_source o) eq_refl). by exists o.
Qed.

(** [x.n_dims] and [x.n_points] on an instance of a class that inherits
    [PureAlignment] are the properties of [PureAlignment]. *)
Lemma call_n_dims_pure_alignment i o h :
  insts h !! i = Some o → pure_alignment (cls o) = true →
  call_n_dims (VInst i) h = PureAlignment_n_dims i h.
Proof.
  intros Ho Hp.
  assert (PureAlignment_n_dims i h = call_n_dims (_source o) h) as ->.
  { unfold PureAlignment_n_dims, Alignable_source, bind, get_inst.
    by rewrite Ho. }
  apply (lookup_source n_dims_within n_dims_within_step n_dims_within_none
           n_dims_within_end).
  by exists o.
Qed.

Lemma call_n_points_pure_alignment i o h :
  insts h !! i = Some o → pure_alignment (cls o) = true →
  call_n_points (VInst i) h = PureAlignment_n_points i h.
Proof.
  intros Ho Hp.
  assert (PureAlignment_n_points i h = call_n_points (_source o) h) as ->.
  { unfold PureAlignment_n_points, Alignable_source, bind, get_inst.
    by rewrite Ho. }
  apply (lookup_source n_points_within n_points_within_step n_points_within_none
           n_points_within_end).
  by exists o.
Qed.

(** More steps than the store allows give nothing more. *)
Lemma n_dims_within_enough n x h o :
  n_dims_within n x h = Some o → call_n_dims x h = Some o.
Proof.
  apply (lookup_enough n_dims_within n_dims_within_step n_dims_within_none
           n_dims_within_end).
Qed.

Lemma n_points_within_enough n x h o :
  n_points_within n x h = Some o → call_n_points x h = Some o.
Proof.
  apply (lookup_enough n_points_within n_points_within_step n_points_within_none
           n_points_within_end).
Qed.

(** Of a chain, and of an instance of any other class. *)
Lemma call_n_dims_chain c h : call_n_dims (VChain c) h = Some (Ret None, h).
Proof. unfold call_n_dims. by destruct (size _). Qed.

Lemma call_n_points_chain c h :
  call_n_points (VChain c) h = Some (Raise AttributeError, h).
Proof. unfold call_n_points. by destruct (size _). Qed.

Lemma call_n_dims_other i o h :
  insts h !! i = Some o → pure_alignment (cls o) = false →
  call_n_dims (VInst i) h = Some (Ret (class_n_dims (cls o) (params o)), h).
Proof.
  intros Ho Hp. unfold call_n_dims.
  destruct (size _); simpl; unfold bind, get_inst; by rewrite Ho, Hp.
Qed.
End walk_facts.

(** ** Retargeting *)
Section retarget_facts.
Context `{W : World}.

Lemma cloud_at_agree h x a b : cloud_at h x a → cloud_at h x b → a = b.
Proof.
  intros (c & p & -> & Hc & Hp) (c' & p' & [= <-] & Hc' & Hp'). congruence.
Qed.

Lemma cloud_at_incl h h' x a : heap_incl h h' → cloud_at h x a → cloud_at h' x a.
Proof.
  intros (Ha & _ & _ & _ & Hp) (c & p & -> & Hc & Hpa).
  exists c, p. split_and!; [done|by eapply lookup_weaken..].
Qed.

Lemma cloud_at_same h h' x a :
  arrays h' = arrays h → clouds h' = clouds h → cloud_at h x a → cloud_at h' x a.
Proof.
  intros Ea Ep (c & p & -> & Hc & Hpa). exists c, p. by rewrite Ea, Ep.
Qed.

Lemma cloud_at_not_None h x a : cloud_at h x a → is_not_None x = true.
Proof. by intros (c & p & -> & _). Qed.

Lemma points_array_not_cloud h x :
  (∀ a, ¬ cloud_at h x a) →
  points_array x h = None ∨ ∃ e, points_array x h = Some (Raise e, h).
Proof.
  intros Hno. destruct (points_array x h) as [[[a|e] h1]|] eqn:E; [| |by left].
  - apply points_array_inv in E as [-> Hc]. exfalso. eapply Hno. by apply Hc.
  - apply points_array_inv in E as [-> _]. right. eauto.
Qed.

Lemma same_dims_and_points_trans a b c :
  same_dims_and_points a b = true → same_dims_and_points b c = true →
  same_dims_and_points a c = true.
Proof.
  unfold same_dims_and_points.
  rewrite !andb_true_iff, !Nat.eqb_eq. intros [-> ->] [-> ->]. done.
Qed.

Lemma same_dims_and_points_sym a b :
  same_dims_and_points a b = same_dims_and_points b a.
Proof.
  unfold same_dims_and_points.
  by rewrite (Nat.eqb_sym (shape_n_dims a)), (Nat.eqb_sym (shape_n_points a)).
Qed.

(** [_target_setter] on point clouds. *)
Lemma call__target_setter_run self o value sa va h :
  insts h !! self = Some o →
  cloud_at h (_source o) sa → cloud_at h value va →
  call__target_setter self value h =
  match target_setter_hook (cls o) (params o) sa va with
  | Ret s => Some (Ret VNone,
                   set_insts <[self:=Inst (cls o) s (_source o) value]> h)
  | Raise e => Some (Raise e, h)
  end.
Proof.
  intros Ho Hs Hv. unfold call__target_setter.
  unfold bind at 1. unfold get_inst. rewrite Ho.
  erewrite bind_run by (by apply points_array_cloud).
  erewrite bind_run by (by apply points_array_cloud).
  unfold bind, lift_res. by destruct (target_setter_hook _ _ _ _).
Qed.

(** The setter of [target] on a transform bound to point clouds. *)
Lemma Alignable_target_setter_run self o value sa ta va h :
  insts h !! self = Some o →
  cloud_at h (_source o) sa → cloud_at h (_target o) ta → cloud_at h value va →
  Alignable_target_setter self value h =
  if same_dims_and_points va ta then
    match target_setter_hook (cls o) (params o) sa va with
    | Ret s => Some (Ret VNone,
                     set_insts <[self:=Inst (cls o) s (_source o) value]> h)
    | Raise e => Some (Raise e, h)
    end
  else Some (Raise ValueError, h).
Proof.
  intros Ho Hs Ht Hv. unfold Alignable_target_setter.
  unfold bind at 1. rewrite (is_alignment_transform_run _ _ _ Ho).
  rewrite (cloud_at_not_None _ _ _ Hs), (cloud_at_not_None _ _ _ Ht). simpl.
  assert (Alignable_target self h = Some (Ret (_target o), h)) as Etgt.
  { unfold Alignable_target, bind, get_inst. by rewrite Ho. }
  erewrite bind_run by (by apply call_n_dims_cloud).
  erewrite bind_run by exact Etgt.
  erewrite bind_run by (by apply call_n_dims_cloud).
  unfold same_dims_and_points. rewrite n_dims_eqb.
  destruct (shape_n_dims va =? shape_n_dims ta); simpl; [|done].
  erewrite bind_run by (by apply call_n_points_cloud).
  erewrite bind_run by exact Etgt.
  erewrite bind_run by (by apply call_n_points_cloud).
  destruct (shape_n_points va =? shape_n_points ta); simpl; [|done].
  by apply call__target_setter_run.
Qed.

(** The setter writes to the transform only, and only when it returns. *)
Lemma Alignable_target_setter_inv self value h r h' :
  Alignable_target_setter self value h = Some (r, h') →
  match r with
  | Ret _ => ∃ o s va, insts h !! self = Some o ∧ cloud_at h value va ∧
                       h' = set_insts <[self:=Inst (cls o) s (_source o) value]> h
  | Raise _ => h' = h
  end.
Proof.
  unfold Alignable_target_setter.
  intros [(b & ? & Hb & Hr)|(e & Hb & ->)]%bind_inv.
  2:{ by eapply (preserves_is_alignment_transform (λ h h' : heap, h' = h)). }
  apply (preserves_is_alignment_transform (λ h h' : heap, h' = h)) in Hb as ->.
  destruct b; simpl in Hr; [|by injection Hr as <- <-].
  apply bind_inv in Hr as [(vd & ? & Hvd & Hr)|(e & Hvd & ->)].
  2:{ by eapply (preserves_call_n_dims (λ h h' : heap, h' = h)). }
  apply (preserves_call_n_dims (λ h h' : heap, h' = h)) in Hvd as ->.
  apply bind_inv in Hr as [(t & ? & Ht & Hr)|(e & Ht & ->)].
  2:{ by eapply (preserves_Alignable_target (λ h h' : heap, h' = h)). }
  apply (preserves_Alignable_target (λ h h' : heap, h' = h)) in Ht as ->.
  apply bind_inv in Hr as [(td & ? & Htd & Hr)|(e & Htd & ->)].
  2:{ by eapply (preserves_call_n_dims (λ h h' : heap, h' = h)). }
  apply (preserves_call_n_dims (λ h h' : heap, h' = h)) in Htd as ->.
  destruct (negb (bool_decide (vd = td))); [by injection Hr as <- <-|].
  apply bind_inv in Hr as [(vp & ? & Hvp & Hr)|(e & Hvp & ->)].
  2:{ by eapply (preserves_call_n_points (λ h h' : heap, h' = h)). }
  apply (preserves_call_n_points (λ h h' : heap, h' = h)) in Hvp as ->.
  apply bind_inv in Hr as [(t2 & ? & Ht2 & Hr)|(e & Ht2 & ->)].
  2:{ by eapply (preserves_Alignable_target (λ h h' : heap, h' = h)). }
  apply (preserves_Alignable_target (λ h h' : heap, h' = h)) in Ht2 as ->.
  apply bind_inv in Hr as [(tp & ? & Htp & Hr)|(e & Htp & ->)].
  2:{ by eapply (preserves_call_n_points (λ h h' : heap, h' = h)). }
  apply (preserves_call_n_points (λ h h' : heap, h' = h)) in Htp as ->.
  destruct (negb (vp =? tp)); [by injection Hr as <- <-|].
  revert Hr. unfold call__target_setter.
  intros [(o & ? & [-> (? & [= <-] & Ho)]%get_inst_inv & Hr)
         |(e & [-> (? & [=] & _)]%get_inst_inv & _)]%bind_inv.
  apply bind_inv in Hr as [(sa & ? & Hsa & Hr)|(e & Hsa & ->)].
  2:{ by apply points_array_inv in Hsa as [-> _]. }
  apply points_array_inv in Hsa as [-> _].
  apply bind_inv in Hr as [(va & ? & Hva & Hr)|(e & Hva & ->)].
  2:{ by apply points_array_inv in Hva as [-> _]. }
  apply points_array_inv in Hva as [-> Hva].
  apply bind_inv in Hr as [(s & ? & Hs & Hr)|(e & Hs & ->)].
  2:{ unfold lift_res in Hs. by injection Hs as _ <-. }
  unfold lift_res in Hs. injection Hs as _ <-.
  apply bind_inv in Hr as [(u & ? & [= _ <-] & [= <- <-])|(e & [=] & _)].
  exists o, s, va. split_and!; [done|by apply Hva|done].
Qed.
End retarget_facts.

Section compatible_facts.
Context `{W : World}.

Lemma compatible_dims i h :
  compatible i h →
  ∃ o sa ta, insts h !! i = Some o ∧
    cloud_at h (_source o) sa ∧ cloud_at h (_target o) ta ∧
    shape_n_dims sa = shape_n_dims ta ∧ shape_n_points sa = shape_n_points ta ∧
    PureAlignment_n_dims i h = Some (Ret (Some (shape_n_dims ta)), h) ∧
    PureAlignment_n_points i h = Some (Ret (shape_n_points ta), h).
Proof.
  intros (o & sa & ta & Ho & Hs & Ht & Hsame).
  apply andb_true_iff in Hsame as [Hd%Nat.eqb_eq Hp%Nat.eqb_eq].
  exists o, sa, ta. split_and!; try done.
  - unfold PureAlignment_n_dims, Alignable_source.
    unfold bind at 1. unfold bind at 1. unfold get_inst. rewrite Ho. simpl.
    rewrite <- Hd. by apply call_n_dims_cloud.
  - unfold PureAlignment_n_points, Alignable_source.
    unfold bind at 1. unfold bind at 1. unfold get_inst. rewrite Ho. simpl.
    rewrite <- Hp. by apply call_n_points_cloud.
Qed.

Lemma PureAlignment_new_compatible c source target sa ta kw h v h' :
  cloud_at h source sa → cloud_at h target ta →
  PureAlignment_new c source target kw h = Some (Ret v, h') →
  ∃ i, v = VInst i ∧ insts h !! i = None ∧ compatible i h' ∧
       h' = set_insts <[i:=Inst c (init_params c) source target]> h.
Proof.
  intros Hs Ht. destruct kw; [|done]. rewrite PureAlignment_new_run.
  set (i := fresh (dom (insts h))).
  set (hb := set_insts _ h).
  rewrite (verify_clouds hb source target sa ta);
    [|by eapply (cloud_at_same h)..].
  destruct (same_dims_and_points sa ta) eqn:Hsame; [|done].
  intros [= <- <-].
  exists i. split_and!; [done|apply fresh_lookup| |done].
  exists (Inst c (init_params c) source target), sa, ta.
  split_and!; [apply lookup_insert_eq| | |done];
    by eapply (cloud_at_same h).
Qed.
End compatible_facts.

(** ** The copy of an alignment *)
Section copy_alignment_facts.
Context `{W : World}.

Lemma memo_keeps_clouds_incl h0 h h' m :
  heap_incl h h' → memo_keeps_clouds h0 h m → memo_keeps_clouds h0 h' m.
Proof.
  intros Hincl Hm x y Hg. destruct (Hm x y Hg) as [Hc Ha]. split.
  - intros a Hx. eapply cloud_at_incl; [exact Hincl|]. by apply Hc.
  - intros l a -> Hl. destruct (Ha l a eq_refl Hl) as (l' & -> & Hl').
    exists l'. split; [done|]. destruct Hincl as (Harr & _).
    by eapply lookup_weaken.
Qed.

(** The copy of a point cloud of [h0], at any point of a copy under way: a
    point cloud with the same contents. *)
Lemma deepcopy_memo_cloud h0 n x a m h :
  heap_incl h0 h → memo_keeps_clouds h0 h m → cloud_at h0 x a →
  ∃ y m' h',
    deepcopy_memo (S (S n)) x m h = Some (y, m', h') ∧
    heap_incl h h' ∧ memo_keeps_clouds h0 h' m' ∧ cloud_at h' y a ∧
    insts h' = insts h ∧
    (memo_get m x = None → fresh_val h y).
Proof.
  intros Hincl Hm Hcloud.
  pose proof Hcloud as (c & p & -> & Hc0 & Hp0).
  cbn [deepcopy_memo]. destruct (memo_get m (VCloud c)) as [y|] eqn:Eg.
  { exists y, m, h. split_and!; [done|reflexivity|done| |done|done].
    by eapply Hm. }
  pose proof Hincl as (Harr & _ & _ & _ & Hcl).
  assert (clouds h !! c = Some (VArr p)) as Hc by (by eapply lookup_weaken).
  assert (arrays h !! p = Some a) as Hp by (by eapply lookup_weaken).
  rewrite Hc. cbn [mbind option_bind memo_get].
  destruct (decide (VCloud c = VArr p)) as [?|_]; [done|].
  set (c' := fresh (dom (clouds h))).
  assert (clouds h !! c' = None) as Hc' by apply fresh_lookup.
  destruct (memo_get m (VArr p)) as [y|] eqn:Eg2.
  - destruct (Hm _ _ Eg2) as [_ HA].
    destruct (HA p a eq_refl Hp0) as (l' & -> & Hl').
    cbn [mbind option_bind].
    set (h' := set_clouds <[c':=VArr l']> (set_clouds <[c':=VNone]> h)).
    assert (heap_incl h h') as Hincl'.
    { unfold h'. split_and!; try done. simpl.
      apply subseteq_write; [done|]. by apply insert_subseteq. }
    assert (cloud_at h' (VCloud c') a) as Hnew.
    { exists c', l'. split_and!; [done|apply lookup_insert_eq|done]. }
    eexists _, _, h'. split_and!; [reflexivity|done| |done|done|done].
    intros x y. cbn [memo_get]. case_decide as Hx.
    + intros [= <-]. subst x. split; [|done].
      intros a' Ha'. by rewrite <- (cloud_at_agree _ _ _ _ Hcloud Ha').
    + intros Hg. by eapply (memo_keeps_clouds_incl h0 h).
  - cbn [set_clouds arrays]. rewrite Hp. cbn [mbind option_bind].
    set (l' := fresh (dom (arrays h))).
    assert (arrays h !! l' = None) as Hl' by apply fresh_lookup.
    set (h' := set_clouds <[c':=VArr l']> _).
    assert (heap_incl h h') as Hincl'.
    { unfold h'. split_and!; try done; simpl.
      - by apply insert_subseteq.
      - apply subseteq_write; [done|]. by apply insert_subseteq. }
    assert (cloud_at h' (VCloud c') a) as Hnew.
    { exists c', l'. split_and!; [done|apply lookup_insert_eq|apply lookup_insert_eq]. }
    eexists _, _, h'. split_and!; [reflexivity|done| |done|done|done].
    intros x y. cbn [memo_get]. case_decide as Hx.
    + intros [= <-]. subst x. split; [by intros a' (? & ? & [=] & _)|].
      intros l a' [= <-] Ha'. exists l'. split; [done|].
      replace a' with a by congruence. apply lookup_insert_eq.
    + case_decide as Hx'.
      * intros [= <-]. subst x. split; [|done].
        intros a' Ha'. by rewrite <- (cloud_at_agree _ _ _ _ Hcloud Ha').
      * intros Hg. by eapply (memo_keeps_clouds_incl h0 h).
Qed.

Lemma deepcopy_memo_inst_step n i m h o :
  memo_get m (VInst i) = None → insts h !! i = Some o →
  deepcopy_memo (S n) (VInst i) m h =
  let i' := fresh (dom (insts h)) in
  '(s', m1, h1) ← deepcopy_memo n (_source o) ((VInst i, VInst i') :: m)
                    (set_insts <[i':=Inst (cls o) (params o) VNone VNone]> h);
  '(t', m2, h2) ← deepcopy_memo n (_target o) m1 h1;
  Some (VInst i', m2, set_insts <[i':=Inst (cls o) (params o) s' t']> h2).
Proof. intros Hg Ho. simpl. by rewrite Hg, Ho. Qed.

(** The copy of a transform bound to point clouds: a new transform of the
    same class and parameters, bound to point clouds with the same
    contents; the source of the copy is a new object. *)
Lemma deepcopy_alignment n self o sa ta h :
  insts h !! self = Some o →
  cloud_at h (_source o) sa → cloud_at h (_target o) ta →
  ∃ i' s' t' h',
    deepcopy (S (S (S n))) (VInst self) h = Some (Ret (VInst i'), h') ∧
    insts h !! i' = None ∧ heap_incl h h' ∧
    insts h' !! i' = Some (Inst (cls o) (params o) s' t') ∧
    cloud_at h' s' sa ∧ cloud_at h' t' ta ∧ fresh_val h s'.
Proof.
  intros Ho Hs Ht. unfold deepcopy.
  rewrite (deepcopy_memo_inst_step (S (S n)) self [] h o eq_refl Ho).
  cbv zeta.
  set (i' := fresh (dom (insts h))).
  assert (insts h !! i' = None) as Hi' by apply fresh_lookup.
  set (ha := set_insts <[i':=Inst (cls o) (params o) VNone VNone]> h).
  set (m0 := [(VInst self, VInst i')]).
  assert (heap_incl h ha) as Hincl0.
  { unfold ha. split_and!; try done. simpl. by apply insert_subseteq. }
  assert (memo_keeps_clouds h ha m0) as Hm0.
  { intros x y. unfold m0. cbn [memo_get]. case_decide as Hx; [|done].
    intros [= <-]. subst x. split; [by intros a (? & ? & [=] & _)|done]. }
  destruct (deepcopy_memo_cloud h n _ sa m0 ha Hincl0 Hm0 Hs)
    as (s' & m1 & h1 & E1 & Hincl1 & Hm1 & Hs1 & Hi1 & Hf1).
  rewrite E1. cbn [mbind option_bind].
  assert (heap_incl h h1) as Hincl01 by (by etrans).
  destruct (deepcopy_memo_cloud h n _ ta m1 h1 Hincl01 Hm1 Ht)
    as (t' & m2 & h2 & E2 & Hincl2 & Hm2 & Ht2 & Hi2 & _).
  rewrite E2. cbn [mbind option_bind].
  set (h' := set_insts _ h2).
  assert (heap_incl h h2) as (?&?&?&?&?) by (by etrans).
  exists i', s', t', h'. split_and!; [done|done| |apply lookup_insert_eq| | |].
  - unfold h'. split_and!; try done. simpl. by apply subseteq_write.
  - eapply (cloud_at_same h2); [done..|]. by eapply cloud_at_incl.
  - by eapply (cloud_at_same h2).
  - assert (fresh_val ha s') as Hf.
    { apply Hf1. unfold m0. cbn [memo_get]. case_decide as Hx; [|done].
      destruct Hs as (? & ? & Es & _). by rewrite Es in Hx. }
    destruct Hs1 as (? & ? & -> & _). exact Hf.
Qed.

Lemma deepcopy_items_keeps_None copy items :
  (∀ x m h y m' h', copy x m h = Some (y, m', h') →
     memo_get m VNone = None → memo_get m' VNone = None) →
  ∀ m h items' m' h',
    deepcopy_items copy items m h = Some (items', m', h') →
    memo_get m VNone = None → memo_get m' VNone = None.
Proof.
  intros Hcopy. induction items as [|a items IH]; intros m h items' m' h'; simpl.
  { by intros [= <- <- <-]. }
  destruct (copy a m h) as [[[a' m1] h1]|] eqn:Ea; [|done]. simpl.
  destruct (deepcopy_items copy items m1 h1) as [[[its m2] h2]|] eqn:Ei; [|done].
  simpl. intros [= <- <- <-] Hm. eapply IH; [exact Ei|]. by eapply Hcopy.
Qed.

(** [None] is never a key of the memo. *)
Lemma deepcopy_memo_keeps_None n : ∀ x m h y m' h',
  deepcopy_memo n x m h = Some (y, m', h') →
  memo_get m VNone = None → memo_get m' VNone = None.
Proof.
  induction n as [|n IH]; intros x m h y m' h'; simpl; [done|].
  destruct (memo_get m x) as [y0|] eqn:Eg; [by intros [= <- <- <-]|].
  destruct x as [|l|l|c|i|c].
  - by intros [= <- <- <-].
  - destruct (arrays h !! l) as [a|]; [|done]. simpl. intros [= <- <- <-] Hm.
    simpl. by try case_decide.
  - destruct (lists h !! l) as [items|]; [|done]. simpl.
    destruct (deepcopy_items _ _ _ _) as [[[items' m1] h1]|] eqn:Ei; [|done].
    simpl. intros [= <- <- <-] Hm.
    eapply deepcopy_items_keeps_None; [exact IH|exact Ei|].
    simpl. by try case_decide.
  - destruct (chains h !! c) as [t|]; [|done]. simpl.
    destruct (deepcopy_memo n t _ _) as [[[t' m1] h1]|] eqn:Et; [|done].
    simpl. intros [= <- <- <-] Hm. eapply IH; [exact Et|].
    simpl. by try case_decide.
  - destruct (insts h !! i) as [o|]; [|done]. simpl.
    destruct (deepcopy_memo n (_source o) _ _) as [[[s' m1] h1]|] eqn:Es; [|done].
    simpl.
    destruct (deepcopy_memo n (_target o) _ _) as [[[t' m2] h2]|] eqn:Et; [|done].
    simpl. intros [= <- <- <-] Hm. eapply IH; [exact Et|].
    eapply IH; [exact Es|]. simpl. by try case_decide.
  - destruct (clouds h !! c) as [p|]; [|done]. simpl.
    destruct (deepcopy_memo n p _ _) as [[[p' m1] h1]|] eqn:Et; [|done].
    simpl. intros [= <- <- <-] Hm. eapply IH; [exact Et|].
    simpl. by try case_decide.
Qed.

Lemma deepcopy_memo_None n m h y m' h' :
  deepcopy_memo n VNone m h = Some (y, m', h') →
  memo_get m VNone = None → y = VNone.
Proof.
  destruct n; [done|]. simpl. intros E Hm. rewrite Hm in E. by injection E as <-.
Qed.

(** The copy of a transform that is not an alignment is not one. *)
Lemma deepcopy_unbound n self o h y h1 :
  insts h !! self = Some o →
  is_not_None (_source o) && is_not_None (_target o) = false →
  deepcopy n (VInst self) h = Some (Ret y, h1) →
  ∃ i' o', y = VInst i' ∧ insts h !! i' = None ∧ insts h1 !! i' = Some o' ∧
           is_not_None (_source o') && is_not_None (_target o') = false ∧
           heap_incl h h1.
Proof.
  intros Ho Hb E.
  pose proof (deepcopy_new _ _ _ _ _ E) as (? & _ & Hincl & _).
  revert E. unfold deepcopy. destruct n as [|n]; [done|]. simpl.
  rewrite Ho. simpl.
  destruct (deepcopy_memo n (_source o) _ _) as [[[s' m1] h2]|] eqn:Es; [|done].
  simpl.
  destruct (deepcopy_memo n (_target o) _ _) as [[[t' m2] h3]|] eqn:Et; [|done].
  simpl. intros [= <- <-].
  eexists _, _. split_and!; [done|apply fresh_lookup|apply lookup_insert_eq| |done].
  simpl.
  assert (memo_get [(VInst self, VInst (fresh (dom (insts h))))] VNone = None) as Hm0
    by (simpl; by try case_decide).
  apply andb_false_iff in Hb as [Hb|Hb].
  - destruct (_source o); try done.
    by rewrite (deepcopy_memo_None _ _ _ _ _ _ Es Hm0).
  - destruct (_target o); try done.
    rewrite (deepcopy_memo_None _ _ _ _ _ _ Et); [apply andb_false_r|].
    by eapply deepcopy_memo_keeps_None.
Qed.
End copy_alignment_facts.

(** The store of the small world is closed. *)
Lemma toy_h0_closed : closed Toy.h0.
Proof.
  split_and!; intros k v Hk; simpl in Hk.
  - by rewrite lookup_empty in Hk.
  - by rewrite lookup_empty in Hk.
  - repeat (apply lookup_insert_Some in Hk as [[<- <-]|[? Hk]];
            [by split; simpl; try eexists|]).
    by rewrite lookup_empty in Hk.
  - repeat (apply lookup_insert_Some in Hk as [[<- <-]|[? Hk]];
            [by simpl; eexists|]).
    by rewrite lookup_empty in Hk.
Qed.

(** ** The copy of a chain of concrete transforms applies as the chain *)
Section copy_chain_facts.
Context `{W : World}.

#[global] Instance keeps_params_preorder : PreOrder keeps_params.
Proof.
  split.
  - intros h j o Ho. by exists o.
  - intros h1 h2 h3 H12 H23 j o Ho.
    destruct (H12 j o Ho) as (o2 & Ho2 & Ec & Ep).
    destruct (H23 j o2 Ho2) as (o3 & Ho3 & Ec' & Ep').
    exists o3. split_and!; [done|congruence..].
Qed.

Lemma keeps_params_same h h' : insts h' = insts h → keeps_params h h'.
Proof. intros E j o Ho. exists o. by rewrite E. Qed.

Lemma keeps_params_alloc (h : heap) o :
  keeps_params h (set_insts <[fresh (dom (insts h)):=o]> h).
Proof.
  intros j oj Hj. exists oj. split; [|done]. simpl.
  rewrite lookup_insert_ne; [done|]. by apply fresh_inst_ne in Hj.
Qed.

Lemma keeps_params_write (h : heap) i o s t :
  insts h !! i = Some o →
  keeps_params h (set_insts <[i:=Inst (cls o) (params o) s t]> h).
Proof.
  intros Ho j oj Hj. simpl. destruct (decide (j = i)) as [->|Hne].
  - rewrite lookup_insert_eq. eexists. split; [done|].
    rewrite Ho in Hj. injection Hj as <-. done.
  - exists oj. by rewrite lookup_insert_ne.
Qed.

Lemma inst_copy_mono h0 h h' x y :
  keeps_params h h' → inst_copy h0 h x y → inst_copy h0 h' x y.
Proof.
  intros Hk Hc i o Hx Ho. destruct (Hc i o Hx Ho) as (j & o' & -> & Hj & Ec & Ep).
  destruct (Hk j o' Hj) as (o'' & Hj' & Ec' & Ep').
  exists j, o''. split_and!; [done|done|congruence..].
Qed.

Lemma memo_keeps_params_mono h0 h h' m :
  keeps_params h h' → memo_keeps_params h0 h m → memo_keeps_params h0 h' m.
Proof. intros Hk Hm x y Hg. eapply inst_copy_mono; [exact Hk|]. by apply Hm. Qed.

(** A memo with one more object that is not an instance. *)
Lemma memo_keeps_params_cons h0 h m k v :
  (∀ i, k ≠ VInst i) → memo_keeps_params h0 h m →
  memo_keeps_params h0 h ((k, v) :: m).
Proof.
  intros Hk Hm x y. cbn [memo_get]. case_decide as Hx; [|apply Hm].
  intros _ i o -> _. by destruct (Hk i).
Qed.

Lemma deepcopy_items_params h0 copy items :
  copies_params h0 copy →
  ∀ m h items' m' h',
    keeps_params h0 h → memo_keeps_params h0 h m →
    deepcopy_items copy items m h = Some (items', m', h') →
    keeps_params h h' ∧ memo_keeps_params h0 h' m' ∧
    Forall2 (inst_copy h0 h') items items'.
Proof.
  intros Hcopy. induction items as [|a items IH]; intros m h items' m' h' Hh Hm; simpl.
  { intros [= <- <- <-]. split_and!; [reflexivity|done|constructor]. }
  destruct (copy a m h) as [[[a' m1] h1]|] eqn:Ea; [|done]. simpl.
  destruct (Hcopy _ _ _ _ _ _ Hh Hm Ea) as (Hh1 & Hm1 & Ha).
  destruct (deepcopy_items copy items m1 h1) as [[[its m2] h2]|] eqn:Ei; [|done].
  simpl. intros [= <- <- <-].
  destruct (IH _ _ _ _ _ (transitivity Hh Hh1) Hm1 Ei) as (Hh2 & Hm2 & Hits).
  split_and!; [by etrans|done|]. constructor; [|done].
  by eapply inst_copy_mono.
Qed.

Lemma deepcopy_memo_params h0 n : copies_params h0 (deepcopy_memo n).
Proof.
  induction n as [|n IH]; intros x m h y m' h' Hh Hm; simpl; [done|].
  destruct (memo_get m x) as [y0|] eqn:Eg.
  { intros [= <- <- <-]. split_and!; [reflexivity|done|by apply Hm]. }
  destruct x as [|l|l|c|i|c].
  - intros [= <- <- <-]. split_and!; [reflexivity|done|by intros ? ? [=]].
  - destruct (arrays h !! l) as [a|]; [|done]. simpl. intros [= <- <- <-].
    split_and!; [by apply keeps_params_same| |by intros ? ? [=]].
    apply memo_keeps_params_cons; [done|].
    eapply memo_keeps_params_mono; [|exact Hm]. by apply keeps_params_same.
  - destruct (lists h !! l) as [items|]; [|done]. simpl.
    destruct (deepcopy_items _ _ _ _) as [[[items' m1] h1]|] eqn:Ei; [|done].
    simpl. intros [= <- <- <-].
    eapply (deepcopy_items_params h0) in Ei as (Hh1 & Hm1 & _); [|exact IH| |].
    + split_and!; [|eapply memo_keeps_params_mono; [|exact Hm1];
                    by apply keeps_params_same|by intros ? ? [=]].
      etrans; [|etrans; [exact Hh1|]]; by apply keeps_params_same.
    + etrans; [exact Hh|]. by apply keeps_params_same.
    + apply memo_keeps_params_cons; [done|].
      eapply memo_keeps_params_mono; [|exact Hm]. by apply keeps_params_same.
  - destruct (chains h !! c) as [t|]; [|done]. simpl.
    destruct (deepcopy_memo n t _ _) as [[[t' m1] h1]|] eqn:Et; [|done].
    simpl. intros [= <- <- <-].
    eapply IH in Et as (Hh1 & Hm1 & _).
    + split_and!; [|eapply memo_keeps_params_mono; [|exact Hm1];
                    by apply keeps_params_same|by intros ? ? [=]].
      etrans; [|etrans; [exact Hh1|]]; by apply keeps_params_same.
    + etrans; [exact Hh|]. by apply keeps_params_same.
    + apply memo_keeps_params_cons; [done|].
      eapply memo_keeps_params_mono; [|exact Hm]. by apply keeps_params_same.
  - destruct (insts h !! i) as [o|] eqn:Ho; [|done]. simpl.
    set (i' := fresh (dom (insts h))).
    set (ha := set_insts <[i':=Inst (cls o) (params o) VNone VNone]> h).
    assert (keeps_params h ha) as Hha by apply keeps_params_alloc.
    assert (insts ha !! i' = Some (Inst (cls o) (params o) VNone VNone)) as Hi'
      by apply lookup_insert_eq.
    assert (memo_keeps_params h0 ha ((VInst i, VInst i') :: m)) as Hma.
    { intros x0 y0. cbn [memo_get]. case_decide as Hx.
      - intros [= <-] k ok Hk Hok. subst x0. injection Hk as <-.
        destruct (Hh _ _ Hok) as (o1 & Ho1 & Ec & Ep).
        rewrite Ho in Ho1. injection Ho1 as <-.
        eexists i', _. split_and!; [done|exact Hi'|done..].
      - intros Hg. eapply inst_copy_mono; [exact Hha|]. by apply Hm. }
    destruct (deepcopy_memo n (_source o) _ _) as [[[s' m1] h1]|] eqn:Es; [|done].
    simpl.
    eapply IH in Es as (Hh1 & Hm1 & _); [|by etrans|exact Hma].
    destruct (deepcopy_memo n (_target o) _ _) as [[[t' m2] h2]|] eqn:Et; [|done].
    simpl. intros [= <- <- <-].
    eapply IH in Et as (Hh2 & Hm2 & _);
      [|by repeat (etrans; [eassumption|])|exact Hm1].
    assert (keeps_params ha h2) as Ha2 by (by etrans).
    destruct (Ha2 _ _ Hi') as (o2 & Ho2 & Ec2 & Ep2). simpl in Ec2, Ep2.
    assert (keeps_params h2
              (set_insts <[i':=Inst (cls o) (params o) s' t']> h2)) as Hlast.
    { rewrite <- Ec2, <- Ep2. by apply keeps_params_write. }
    split_and!.
    + by repeat (etrans; [eassumption|]).
    + by eapply memo_keeps_params_mono.
    + intros k ok [= <-] Hok.
      destruct (Hh _ _ Hok) as (o1 & Ho1 & Ec & Ep).
      rewrite Ho in Ho1. injection Ho1 as <-.
      eexists i', _. split_and!; [done|apply lookup_insert_eq|done..].
  - destruct (clouds h !! c) as [p|]; [|done]. simpl.
    destruct (deepcopy_memo n p _ _) as [[[p' m1] h1]|] eqn:Et; [|done].
    simpl. intros [= <- <- <-].
    eapply IH in Et as (Hh1 & Hm1 & _).
    + split_and!; [|eapply memo_keeps_params_mono; [|exact Hm1];
                    by apply keeps_params_same|by intros ? ? [=]].
      etrans; [|etrans; [exact Hh1|]]; by apply keeps_params_same.
    + etrans; [exact Hh|]. by apply keeps_params_same.
    + apply memo_keeps_params_cons; [done|].
      eapply memo_keeps_params_mono; [|exact Hm]. by apply keeps_params_same.
Qed.

(** The copy of a chain over a list: a new chain over a new list of the
    copies. *)
Lemma deepcopy_chain_over_list n c l items h d h1 :
  chains h !! c = Some (VList l) → lists h !! l = Some items →
  deepcopy n (VChain c) h = Some (Ret d, h1) →
  ∃ c' l' items',
    d = VChain c' ∧ chains h !! c' = None ∧ lists h !! l' = None ∧
    chains h1 !! c' = Some (VList l') ∧ lists h1 !! l' = Some items' ∧
    Forall2 (inst_copy h h1) items items' ∧ heap_incl h h1.
Proof.
  intros Hc Hl E.
  pose proof (deepcopy_new _ _ _ _ _ E) as (? & _ & Hincl & _).
  revert E. unfold deepcopy. destruct n as [|n]; [done|].
  cbn [deepcopy_memo memo_get]. rewrite Hc. cbn [mbind option_bind].
  set (c' := fresh (dom (chains h))).
  destruct n as [|n]; [done|]. cbn [deepcopy_memo memo_get].
  destruct (decide (VChain c = VList l)) as [?|_]; [done|].
  cbn [set_chains lists]. rewrite Hl. cbn [mbind option_bind].
  set (l' := fresh (dom (lists h))).
  destruct (deepcopy_items _ _ _ _) as [[[items' m1] h2]|] eqn:Ei; [|done].
  cbn [mbind option_bind]. intros [= <- <-].
  eapply (deepcopy_items_params h) in Ei as (Hh2 & _ & Hits);
    [|apply deepcopy_memo_params|by apply keeps_params_same|].
  2:{ apply memo_keeps_params_cons; [done|].
      apply memo_keeps_params_cons; [done|]. by intros ? ? [=]. }
  exists c', l', items'.
  split_and!; [done|apply fresh_lookup|apply fresh_lookup|apply lookup_insert_eq
              |apply lookup_insert_eq| |done].
  eapply Forall2_impl; [|exact Hits]. intros a b Hab.
  eapply inst_copy_mono; [|exact Hab]. by apply keeps_params_same.
Qed.

Lemma call__apply_same_params n i j o o' x kw h :
  insts h !! i = Some o → insts h !! j = Some o' →
  cls o' = cls o → params o' = params o →
  call__apply n (VInst j) x kw h = call__apply n (VInst i) x kw h.
Proof.
  intros Hi Hj Ec Ep. destruct n; [done|]. simpl.
  unfold prim__apply, bind, get_inst. rewrite Hi, Hj.
  destruct x; try done. by rewrite Ec, Ep.
Qed.

(** The copies of concrete transforms apply as the transforms do. *)
Lemma apply_items_copies n h0 h1 items items' :
  Forall2 (inst_copy h0 h1) items items' → Forall (is_instance h0) items →
  insts h0 ⊆ insts h1 →
  ∀ x h, insts h = insts h1 →
    apply_items n items' x h = apply_items n items x h.
Proof.
  induction 1 as [|a a' items items' Ha _ IH]; intros Hall Hsub x h Eh; [done|].
  apply Forall_cons_1 in Hall as [(i & -> & [o Ho]) Hall].
  destruct (Ha i o eq_refl Ho) as (j & o' & -> & Hj & Ec & Ep).
  assert (insts h1 !! i = Some o) as Hi by (by eapply lookup_weaken).
  unfold apply_items. cbn [reduce]. unfold bind.
  rewrite (call__apply_same_params n i j o o' x [] h); [|by rewrite Eh..|done|done].
  destruct (call__apply n (VInst i) x [] h) as [[[q|e] h2]|] eqn:Hq; [|done..].
  apply call__apply_more_arrays in Hq as (_ & _ & _ & Ei & _).
  apply IH; [done|done|congruence].
Qed.
End copy_chain_facts.

Lemma toy_h_chain_closed : closed ToyStores.h_chain.
Proof.
  split_and!; intros k v Hk; simpl in Hk.
  - apply lookup_insert_Some in Hk as [[<- <-]|[? Hk]];
      [|by rewrite lookup_empty in Hk].
    repeat constructor; by simpl; eexists.
  - apply lookup_insert_Some in Hk as [[<- <-]|[? Hk]];
      [|by rewrite lookup_empty in Hk].
    by simpl; eexists.
  - repeat (apply lookup_insert_Some in Hk as [[<- <-]|[? Hk]];
            [by split; simpl; try eexists|]).
    by rewrite lookup_empty in Hk.
  - repeat (apply lookup_insert_Some in Hk as [[<- <-]|[? Hk]];
            [by simpl; eexists|]).
    by rewrite lookup_empty in Hk.
Qed.

(** * The claims *)

(** C1.  [a.compose_before(b)] and [a.compose_after(b)] of [Transform] build
    a chain; no object of the store is changed by either call, so neither
    [a] nor [b] is; on every coordinate array [p] the first chain gives what
    [b.apply(a.apply(p))] gives and the second what [a.apply(b.apply(p))]
    gives: the same array at the same place, or the same exception, and one
    level of calls more. *)
Theorem chain_composition_contract `{W : World}
    (a b : val) (p : loc) (n : nat) (h : heap) :
  (∃ c h1,
     Transform_compose_before a b h = Some (Ret c, h1) ∧
     heap_incl h h1 ∧ arrays h1 = arrays h ∧ insts h1 = insts h ∧
     clouds h1 = clouds h ∧
     Transform_apply (S n) c (VArr p) [] h1 =
     (let! q := Transform_apply n a (VArr p) [] in Transform_apply n b q []) h1) ∧
  (∃ c h1,
     Transform_compose_after a b h = Some (Ret c, h1) ∧
     heap_incl h h1 ∧ arrays h1 = arrays h ∧ insts h1 = insts h ∧
     clouds h1 = clouds h ∧
     Transform_apply (S n) c (VArr p) [] h1 =
     (let! q := Transform_apply n b (VArr p) [] in Transform_apply n a q []) h1).
Proof.
  split.
  - destruct (chain_of [a; b] h) as [[[c|e] h1]|] eqn:E;
      try (by rewrite chain_of_run in E).
    exists c, h1. split; [exact E|].
    destruct (chain_of_incl _ _ _ _ E) as (?&?&?&?&?).
    split_and!; try done. by apply pair_chain_apply with h.
  - destruct (chain_of [b; a] h) as [[[c|e] h1]|] eqn:E;
      try (by rewrite chain_of_run in E).
    exists c, h1. split; [exact E|].
    destruct (chain_of_incl _ _ _ _ E) as (?&?&?&?&?).
    split_and!; try done. by apply pair_chain_apply with h.
Qed.

(** C10.  The empty chain is the identity: [TransformChain([])] applied to
    an array [x], with any keyword arguments, returns [x] itself and leaves
    the store as it is; so does its [_apply] on any object. *)
Theorem empty_chain_identity `{W : World}
    (x : loc) (y : val) (kw : Kw) (n : nat) (h : heap) :
  ∃ c h1,
    chain_of [] h = Some (Ret c, h1) ∧
    Transform_apply (S n) c (VArr x) kw h1 = Some (Ret (VArr x), h1) ∧
    call__apply (S n) c y kw h1 = Some (Ret y, h1).
Proof.
  destruct (chain_of [] h) as [[[c|e] h1]|] eqn:E;
    try (by rewrite chain_of_run in E).
  exists c, h1. split; [done|].
  rewrite Transform_apply_no_hook by done.
  by rewrite !(chain_of_apply _ _ _ _ _ _ _ E).
Qed.

(** C6.  [TransformChain([a, b])] maps an array [p], with any keyword
    arguments, to [b._apply(a._apply(p))]; [compose_before_inplace] with a
    transform [c] makes its list [[a, b, c]] and [compose_after_inplace] with
    a transform [d] makes it [[d, a, b]], and from then on the chain applies
    as a new [TransformChain] over that list does; the chain takes any
    [Transform] for composition in place. *)
Theorem chain_flattening `{W : World}
    (a b c d : val) (tc td : pytype klass) (h : heap) :
  transform_in h c tc → transform_in h d td →
  ∃ ch l h1,
    chain_of [a; b] h = Some (Ret (VChain ch), h1) ∧
    chains h1 !! ch = Some (VList l) ∧
    (∀ n p kw,
       Transform_apply (S n) (VChain ch) (VArr p) kw h1 =
       (let! q := call__apply n a (VArr p) [] in call__apply n b q []) h1) ∧
    (∃ h2,
       ComposableTransform_compose_before_inplace (VChain ch) c h1 =
       Some (Ret VNone, h2) ∧
       h2 = set_lists <[l:=[a; b; c]]> h1 ∧
       ∀ ch' h3, chain_of [a; b; c] h2 = Some (Ret ch', h3) →
         ∀ n x kw, call__apply n (VChain ch) x kw h3 = call__apply n ch' x kw h3) ∧
    (∃ h2,
       ComposableTransform_compose_after_inplace (VChain ch) d h1 =
       Some (Ret VNone, h2) ∧
       h2 = set_lists <[l:=[d; a; b]]> h1 ∧
       ∀ ch' h3, chain_of [d; a; b] h2 = Some (Ret ch', h3) →
         ∀ n x kw, call__apply n (VChain ch) x kw h3 = call__apply n ch' x kw h3) ∧
    (∀ t ty h', transform_in h' t ty →
       isinstance_composes (VChain ch) t h' = Some (Ret true, h')).
Proof.
  intros [Hc Hc'] [Hd Hd'].
  pose proof (chain_of_run [a; b] h) as E. simpl in E.
  set (l := fresh (dom (lists h))) in E.
  set (ch := fresh (dom (chains h))) in E.
  set (h1 := set_chains _ _) in E.
  assert (chains h1 !! ch = Some (VList l)) as Hch by apply lookup_insert_eq.
  assert (lists h1 !! l = Some [a; b]) as Hl by apply lookup_insert_eq.
  assert (transform_in h1 c tc) as Hc1
    by (split; [by apply (type_of_same_insts _ h)|done]).
  assert (transform_in h1 d td) as Hd1
    by (split; [by apply (type_of_same_insts _ h)|done]).
  exists ch, l, h1. split_and!; try done.
  - intros n p kw. rewrite Transform_apply_no_hook by done.
    by apply pair_chain__apply with h.
  - eexists. split; [by eapply chain_compose_before_inplace|].
    split; [done|]. intros ch' h3 E3 n x kw.
    eapply chain_behaves_as; [| |exact E3]; simpl; [done|].
    apply lookup_insert_eq.
  - eexists. split; [by eapply chain_compose_after_inplace|].
    split; [done|]. intros ch' h3 E3 n x kw.
    eapply chain_behaves_as; [| |exact E3]; simpl; [done|].
    apply lookup_insert_eq.
  - intros t ty h'. apply chain_isinstance.
Qed.

Lemma chain_flattening_witness :
  transform_in Toy.h0 (VInst 2%positive) (TyInst Toy.Translation) ∧
  transform_in Toy.h0 (VInst 3%positive) (TyInst Toy.Scale) ∧
  ∃ ch l h1,
    chain_of [VInst 1%positive; VInst 3%positive] Toy.h0 = Some (Ret (VChain ch), h1) ∧
    chains h1 !! ch = Some (VList l) ∧
    ComposableTransform_compose_before_inplace (VChain ch) (VInst 2%positive) h1 =
    Some (Ret VNone,
          set_lists <[l:=[VInst 1%positive; VInst 3%positive; VInst 2%positive]]> h1) ∧
    ComposableTransform_compose_after_inplace (VChain ch) (VInst 3%positive) h1 =
    Some (Ret VNone,
          set_lists <[l:=[VInst 3%positive; VInst 1%positive; VInst 3%positive]]> h1).
Proof.
  assert (transform_in Toy.h0 (VInst 2%positive) (TyInst Toy.Translation)) as H2
    by (split; reflexivity).
  assert (transform_in Toy.h0 (VInst 3%positive) (TyInst Toy.Scale)) as H3
    by (split; reflexivity).
  split; [exact H2|]. split; [exact H3|].
  destruct (chain_flattening (VInst 1%positive) (VInst 3%positive) _ _ _ _ _ H2 H3)
    as (ch & l & h1 & E & Hch & _ & (h2 & E2 & -> & _) & (h2' & E2' & -> & _) & _).
  exists ch, l, h1. by split_and!.
Defined.

(** C2.  For a [ComposableTransform] [self] and an object [t] of type [ty]:
    where [ty] is not among [self.composes_inplace_with],
    [compose_before_inplace] and [compose_after_inplace] raise [ValueError]
    and leave the whole store, and so [self], as it was; where it is, the
    check raises nothing and the outcome of the call is the outcome of the
    hook [_compose_before_inplace], respectively [_compose_after_inplace]. *)
Theorem inplace_capability_check `{W : World}
    (self t : val) (classes : pytype klass → bool) (ty : pytype klass) (h : heap) :
  call_composes_inplace_with self h = Some (Ret classes, h) →
  type_of t h = Some (Ret ty, h) →
  ComposableTransform_compose_before_inplace self t h =
    (if classes ty
     then (run! call__compose_before_inplace self t in ret VNone) h
     else Some (Raise ValueError, h)) ∧
  ComposableTransform_compose_after_inplace self t h =
    (if classes ty
     then (run! call__compose_after_inplace self t in ret VNone) h
     else Some (Raise ValueError, h)).
Proof.
  intros Hs Ht.
  assert (isinstance_composes self t h = Some (Ret (classes ty), h)) as Hi.
  { unfold isinstance_composes, bind. by rewrite Hs, Ht. }
  split.
  - unfold ComposableTransform_compose_before_inplace.
    unfold bind at 1. rewrite Hi. destruct (classes ty); reflexivity.
  - unfold ComposableTransform_compose_after_inplace.
    unfold bind at 1. rewrite Hi. destruct (classes ty); reflexivity.
Qed.

Lemma inplace_capability_check_witness :
  ComposableTransform_compose_before_inplace
    (VInst 1%positive) (VInst 3%positive) Toy.h0 = Some (Raise ValueError, Toy.h0) ∧
  ComposableTransform_compose_after_inplace
    (VInst 1%positive) (VInst 3%positive) Toy.h0 = Some (Raise ValueError, Toy.h0) ∧
  ComposableTransform_compose_before_inplace
    (VInst 1%positive) (VInst 2%positive) Toy.h0 =
  Some (Ret VNone,
        set_insts <[1%positive:=Inst Toy.Translation [11; 22]%Z VNone VNone]> Toy.h0).
Proof.
  pose proof (inplace_capability_check (W:=Toy.toy)
                (VInst 1%positive) (VInst 3%positive)
                (λ ty, bool_decide (ty = TyInst Toy.Translation))
                (TyInst Toy.Scale) Toy.h0 eq_refl eq_refl) as [H1 H2].
  pose proof (inplace_capability_check (W:=Toy.toy)
                (VInst 1%positive) (VInst 2%positive)
                (λ ty, bool_decide (ty = TyInst Toy.Translation))
                (TyInst Toy.Translation) Toy.h0 eq_refl eq_refl) as [H3 _].
  split; [exact H1|]. split; [exact H2|].
  rewrite H3. reflexivity.
Defined.

(** C9.  For an object [x] without the hooks of [Transformable]: [apply(x)]
    is the primitive mapping [_apply(x)], with its result or its exception,
    and changes no object of the store, so not [x]; [apply_inplace(x)]
    assigns the result of the primitive mapping to [x[...]]; and when [x] is
    an array and numpy takes the result [ar] as its new contents, [x] holds
    [ar] afterwards and [apply_inplace] returns [None]. *)
Theorem no_hook_fallback `{W : World}
    (self x : val) (kw : Kw) (n : nat) (h : heap) :
  has_transform_hook x = false →
  Transform_apply n self x kw h = call__apply n self x kw h ∧
  (∀ r h', Transform_apply n self x kw h = Some (r, h') → more_arrays h h') ∧
  Transform_apply_inplace n self x kw h =
    (let! r := call__apply n self x kw in setitem_ellipsis x r) h ∧
  (∀ l r ax ar h1,
     x = VArr l →
     call__apply n self x kw h = Some (Ret (VArr r), h1) →
     arrays h !! l = Some ax → arrays h1 !! r = Some ar →
     np_setitem_ellipsis ax ar = Some ar →
     Transform_apply_inplace n self x kw h =
     Some (Ret VNone, set_arrays <[l:=ar]> h1)).
Proof.
  intros Hx. split_and!.
  - by apply Transform_apply_no_hook.
  - intros r h'. rewrite Transform_apply_no_hook by done.
    apply call__apply_more_arrays.
  - by apply Transform_apply_inplace_no_hook.
  - intros l r ax ar h1 -> Hr Hl Har Hset.
    rewrite Transform_apply_inplace_no_hook by done.
    unfold bind at 1. rewrite Hr. simpl.
    assert (arrays h1 !! l = Some ax) as Hl1.
    { apply call__apply_more_arrays in Hr as [Hsub _].
      by eapply lookup_weaken. }
    unfold bind, get_array. rewrite Hl1, Har. simpl. by rewrite Hset.
Qed.

Lemma no_hook_fallback_witness :
  has_transform_hook (VArr 1%positive) = false ∧
  Transform_apply 1 (VInst 1%positive) (VArr 1%positive) [] Toy.h0 =
    Some (Ret (VArr 5%positive),
          set_arrays <[5%positive:=[[1; 2]; [3; 4]]%Z]> Toy.h0) ∧
  Transform_apply_inplace 1 (VInst 1%positive) (VArr 1%positive) [] Toy.h0 =
    Some (Ret VNone,
          set_arrays <[1%positive:=[[1; 2]; [3; 4]]%Z]>
            (set_arrays <[5%positive:=[[1; 2]; [3; 4]]%Z]> Toy.h0)).
Proof.
  destruct (no_hook_fallback (W:=Toy.toy) (VInst 1%positive) (VArr 1%positive)
              [] 1 Toy.h0 eq_refl) as (H1 & _ & _ & H4).
  split; [reflexivity|]. split; [rewrite H1; reflexivity|].
  apply (H4 1%positive 5%positive [[0; 0]; [2; 2]]%Z [[1; 2]; [3; 4]]%Z);
    reflexivity.
Defined.

(** C4.  For point clouds [source] and [target]: [align(source, target)]
    raises [ValueError], the store untouched, when their dimensions or
    their numbers of points differ, and is [_align(source, target)]
    otherwise.  For a transform bound to a source and to the target
    [target]: assigning a point cloud [value] to [target] raises
    [ValueError], the store untouched, when the dimensions or the numbers of
    points of [value] and of [target] differ, and is [_target_setter(value)]
    otherwise. *)
Theorem alignment_validation `{W : World}
    (c : klass) (self : loc) (o : inst) (source target value : val)
    (sa ta va : Arr) (kw : Kw) (h : heap) :
  cloud_at h source sa → cloud_at h target ta → cloud_at h value va →
  insts h !! self = Some o →
  is_not_None (_source o) = true → _target o = target →
  Alignable_align c source target kw h =
    (if same_dims_and_points sa ta then call__align c source target kw h
     else Some (Raise ValueError, h)) ∧
  Alignable_target_setter self value h =
    (if same_dims_and_points va ta then call__target_setter self value h
     else Some (Raise ValueError, h)).
Proof.
  intros Hs Ht Hv Ho Hsrc Htgt. split.
  - unfold Alignable_align, bind. rewrite (verify_clouds _ _ _ _ _ Hs Ht).
    by destruct (same_dims_and_points sa ta).
  - assert (is_not_None (_target o) = true) as Hnn.
    { rewrite Htgt. by destruct Ht as (?&?&->&_). }
    unfold Alignable_target_setter. unfold bind at 1.
    rewrite (is_alignment_transform_run _ _ _ Ho), Hsrc, Hnn. simpl.
    assert (Alignable_target self h = Some (Ret target, h)) as Hget.
    { unfold Alignable_target, bind, get_inst. by rewrite Ho, Htgt. }
    unfold bind. rewrite (call_n_dims_cloud _ _ _ Hv), Hget.
    rewrite (call_n_dims_cloud _ _ _ Ht).
    unfold same_dims_and_points. rewrite n_dims_eqb.
    destruct (shape_n_dims va =? shape_n_dims ta); simpl; [|done].
    rewrite (call_n_points_cloud _ _ _ Hv), Hget.
    rewrite (call_n_points_cloud _ _ _ Ht).
    by destruct (shape_n_points va =? shape_n_points ta).
Qed.

Lemma alignment_validation_witness :
  cloud_at Toy.h0 (VCloud 1%positive) [[1; 1]; [3; 3]]%Z ∧
  cloud_at Toy.h0 (VCloud 2%positive) [[5; 5]; [7; 7]]%Z ∧
  cloud_at Toy.h0 (VCloud 3%positive) [[0; 0; 0]]%Z ∧
  Alignable_align Toy.Translation (VCloud 1%positive) (VCloud 2%positive) [] Toy.h0 =
    Some (Ret (VInst 5%positive),
          set_insts <[5%positive:=Inst Toy.Translation [4; 4]%Z
                                    (VCloud 1%positive) (VCloud 2%positive)]> Toy.h0) ∧
  Alignable_target_setter 4%positive (VCloud 3%positive) Toy.h0 =
    Some (Raise ValueError, Toy.h0) ∧
  Alignable_target_setter 4%positive (VCloud 1%positive) Toy.h0 =
    Some (Ret VNone,
          set_insts <[4%positive:=Inst Toy.Translation [0; 0]%Z
                                    (VCloud 1%positive) (VCloud 1%positive)]> Toy.h0).
Proof.
  assert (cloud_at Toy.h0 (VCloud 1%positive) [[1; 1]; [3; 3]]%Z) as H1
    by (exists 1%positive, 2%positive; split_and!; reflexivity).
  assert (cloud_at Toy.h0 (VCloud 2%positive) [[5; 5]; [7; 7]]%Z) as H2
    by (exists 2%positive, 3%positive; split_and!; reflexivity).
  assert (cloud_at Toy.h0 (VCloud 3%positive) [[0; 0; 0]]%Z) as H3
    by (exists 3%positive, 4%positive; split_and!; reflexivity).
  split; [exact H1|]. split; [exact H2|]. split; [exact H3|].
  destruct (alignment_validation (W:=Toy.toy) Toy.Translation 4%positive _
              _ _ _ _ _ _ [] Toy.h0 H1 H2 H3 eq_refl eq_refl eq_refl) as [Ha Hb].
  destruct (alignment_validation (W:=Toy.toy) Toy.Translation 4%positive _
              _ _ _ _ _ _ [] Toy.h0 H1 H2 H1 eq_refl eq_refl eq_refl) as [_ Hc].
  split; [rewrite Ha; reflexivity|].
  split; [rewrite Hb; reflexivity|].
  rewrite Hc; reflexivity.
Defined.

(** C7.  [PureAlignment.align(source, target, **opts)] is
    [cls(source, target, **opts)].  On two point clouds the constructor
    returns a new instance that holds both when their dimensions and numbers
    of points agree, and raises [ValueError] otherwise.  Whatever it is
    given, an instance it returns is a new object that holds the source and
    the target it was given, neither of them [None], which had the same
    [n_dims] and the same [n_points] when the constructor checked them, and
    it is an alignment transform, every other object as it was; and
    assigning to [target] keeps a bound transform bound, whatever the
    outcome of the assignment. *)
Theorem pure_alignment_bound_at_birth `{W : World}
    (c : klass) (source target : val) (kw : Kw) (h : heap) :
  PureAlignment_align c source target kw h = PureAlignment_new c source target kw h ∧
  (∀ sa ta, cloud_at h source sa → cloud_at h target ta →
     PureAlignment_new c source target [] h =
     let i := fresh (dom (insts h)) in
     if same_dims_and_points sa ta
     then Some (Ret (VInst i),
                set_insts <[i:=Inst c (init_params c) source target]> h)
     else Some (Raise ValueError,
                set_insts <[i:=Inst c (init_params c) VNone VNone]> h)) ∧
  (∀ v h', PureAlignment_new c source target kw h = Some (Ret v, h') →
     ∃ i o d p,
       v = VInst i ∧ insts h !! i = None ∧ insts h' !! i = Some o ∧
       h' = set_insts <[i:=o]> h ∧
       cls o = c ∧ _source o = source ∧ _target o = target ∧
       is_not_None source = true ∧ is_not_None target = true ∧
       Alignable_is_alignment_transform i h' = Some (Ret true, h') ∧
       let hb := set_insts <[i:=Inst c (init_params c) VNone VNone]> h in
       call_n_dims source hb = Some (Ret d, hb) ∧
       call_n_dims target hb = Some (Ret d, hb) ∧
       call_n_points source hb = Some (Ret p, hb) ∧
       call_n_points target hb = Some (Ret p, hb)) ∧
  (∀ i value r h' h'',
     Alignable_is_alignment_transform i h' = Some (Ret true, h') →
     Alignable_target_setter i value h' = Some (r, h'') →
     Alignable_is_alignment_transform i h'' = Some (Ret true, h'')).
Proof.
  split_and!.
  - done.
  - intros sa ta Hs Ht. rewrite PureAlignment_new_run.
    rewrite (verify_clouds _ _ _ sa ta) by done.
    by destruct (same_dims_and_points sa ta).
  - intros v h'. destruct kw as [|k kw]; [|done].
    rewrite PureAlignment_new_run.
    destruct (Alignable__verify_source_and_target _ _ _)
      as [[[b|e] h1]|] eqn:E; [|done..].
    intros [= <- <-].
    apply verify_inv in E as [_ Hb].
    destruct (Hb _ eq_refl) as (_ & d & p & Hsd & Htd & Hsp & Htp).
    pose proof (call_n_dims_not_None _ _ _ _ Hsd) as Hs.
    pose proof (call_n_dims_not_None _ _ _ _ Htd) as Ht.
    eexists _, _, d, p. split_and!; try done.
    + apply fresh_lookup.
    + apply lookup_insert_eq.
    + apply bound_is_alignment_transform. eexists.
      split; [apply lookup_insert_eq|]. by simpl.
  - intros i value r h' h'' Hb Hset.
    apply bound_is_alignment_transform.
    apply bound_is_alignment_transform in Hb.
    by eapply Alignable_target_setter_bound.
Qed.

Lemma pure_alignment_bound_at_birth_witness :
  PureAlignment_align Toy.Translation (VCloud 1%positive) (VCloud 2%positive) [] Toy.h0 =
    Some (Ret (VInst 5%positive),
          set_insts <[5%positive:=Inst Toy.Translation []
                                    (VCloud 1%positive) (VCloud 2%positive)]> Toy.h0) ∧
  PureAlignment_new Toy.Translation (VCloud 1%positive) (VCloud 3%positive) [] Toy.h0 =
    Some (Raise ValueError,
          set_insts <[5%positive:=Inst Toy.Translation [] VNone VNone]> Toy.h0) ∧
  Alignable_is_alignment_transform 5%positive
    (set_insts <[5%positive:=Inst Toy.Translation []
                              (VCloud 1%positive) (VCloud 2%positive)]> Toy.h0) =
    Some (Ret true,
          set_insts <[5%positive:=Inst Toy.Translation []
                                    (VCloud 1%positive) (VCloud 2%positive)]> Toy.h0) ∧
  ∃ h',
    PureAlignment_new Toy.Translation (VInst 4%positive) (VInst 4%positive) [] Toy.h0 =
      Some (Ret (VInst 5%positive), h') ∧
    insts h' !! 5%positive =
      Some (Inst Toy.Translation [] (VInst 4%positive) (VInst 4%positive)) ∧
    Alignable_is_alignment_transform 5%positive h' = Some (Ret true, h').
Proof.
  destruct (pure_alignment_bound_at_birth (W:=Toy.toy) Toy.Translation
              (VCloud 1%positive) (VCloud 2%positive) [] Toy.h0)
    as (Ha & Hnew & Hborn & _).
  destruct (pure_alignment_bound_at_birth (W:=Toy.toy) Toy.Translation
              (VCloud 1%positive) (VCloud 3%positive) [] Toy.h0)
    as (_ & Hbad & _).
  destruct (pure_alignment_bound_at_birth (W:=Toy.toy) Toy.Translation
              (VInst 4%positive) (VInst 4%positive) [] Toy.h0)
    as (_ & _ & Hpa & _).
  assert (PureAlignment_new Toy.Translation (VCloud 1%positive) (VCloud 2%positive)
            [] Toy.h0 =
          Some (Ret (VInst 5%positive),
                set_insts <[5%positive:=Inst Toy.Translation []
                                          (VCloud 1%positive) (VCloud 2%positive)]>
                  Toy.h0)) as Hrun.
  { rewrite (Hnew [[1; 1]; [3; 3]]%Z [[5; 5]; [7; 7]]%Z).
    - reflexivity.
    - exists 1%positive, 2%positive; split_and!; reflexivity.
    - exists 2%positive, 3%positive; split_and!; reflexivity. }
  split; [by rewrite Ha|]. split; [|split].
  - rewrite (Hbad [[1; 1]; [3; 3]]%Z [[0; 0; 0]]%Z).
    + reflexivity.
    + exists 1%positive, 2%positive; split_and!; reflexivity.
    + exists 3%positive, 4%positive; split_and!; reflexivity.
  - destruct (Hborn _ _ Hrun) as (i & o & d & p & [= <-] & _ & _ & _ & _ & _ & _ & _ & _ & Hb & _).
    exact Hb.
  - eexists. split; [reflexivity|].
    split; [reflexivity|].
    destruct (Hpa _ _ eq_refl)
      as (i & o & d & p & [= <-] & _ & _ & _ & _ & _ & _ & _ & _ & Hb & _).
    exact Hb.
Defined.

(** C8.  On a bound transform [aligned_source] is [apply(source)] and
    [alignment_error] is [np.linalg.norm] of
    [target.points - aligned_source.points]; when source and target are
    point clouds, the primitive mapping takes the source points to [r] and
    the target points minus [r] are [d], [aligned_source] is a new point
    cloud with points [r], no object of the store is changed, and
    [alignment_error] is the norm of [d].  On a transform whose source or
    target is [None], [aligned_source] raises [ValueError] and
    [alignment_error] raises as well. *)
Theorem alignment_error_is_norm `{W : World}
    (self : loc) (o : inst) (n : nat) (h : heap) :
  insts h !! self = Some o →
  (is_not_None (_source o) && is_not_None (_target o) = true →
     Alignable_aligned_source n self h =
       Transform_apply n (VInst self) (_source o) [] h ∧
     Alignable_alignment_error n self h =
       (let! tp := call_points (_target o) in
        let! a := Transform_apply n (VInst self) (_source o) [] in
        let! ap := call_points a in
        let! d := subtract tp ap in
        ret (np_linalg_norm d)) h) ∧
  (∀ sa ta r d,
     cloud_at h (_source o) sa → cloud_at h (_target o) ta →
     prim_apply (cls o) (params o) [] sa = Ret r →
     np_subtract ta r = Some d →
     ∃ a h',
       Alignable_aligned_source (S (S n)) self h = Some (Ret a, h') ∧
       fresh_val h a ∧ cloud_at h' a r ∧ heap_incl h h' ∧
       Alignable_alignment_error (S (S n)) self h =
         Some (Ret (np_linalg_norm d), h')) ∧
  (is_not_None (_source o) && is_not_None (_target o) = false →
     (∀ c, _target o = VCloud c → is_Some (clouds h !! c)) →
     Alignable_aligned_source n self h = Some (Raise ValueError, h) ∧
     ∃ e, Alignable_alignment_error n self h = Some (Raise e, h)).
Proof.
  intros Ho.
  assert (Alignable_target self h = Some (Ret (_target o), h)) as Hget.
  { unfold Alignable_target, bind, get_inst. by rewrite Ho. }
  split_and!.
  - intros Hb. split; [by apply (aligned_source_bound _ _ o)|].
    unfold Alignable_alignment_error. unfold bind at 1. rewrite Hget.
    apply bind_ext. intros tp h1 Htp.
    apply (preserves_call_points eq) in Htp as <-.
    unfold bind at 1 3. by rewrite (aligned_source_bound _ _ _ _ Ho Hb).
  - intros sa ta r d (cs & ps & Hsrc & Hcs & Hps) (ct & pt & Htgt & Hct & Hpt) Hr Hd.
    assert (is_not_None (_source o) && is_not_None (_target o) = true) as Hb
      by (by rewrite Hsrc, Htgt).
    pose proof (Transform_apply_cloud n self o cs ps sa r [] h Ho Hcs Hps Hr) as Happ.
    simpl in Happ. rewrite <- Hsrc in Happ.
    set (c' := fresh (dom (clouds h))) in *.
    set (p' := fresh (dom (arrays h))) in *.
    set (p'' := fresh (dom (<[p':=sa]> (arrays h)))) in *.
    set (h' := Heap _ _ _ _ _) in Happ.
    assert (arrays h ⊆ arrays h') as Harr.
    { simpl. etrans; [apply insert_fresh_subseteq|].
      apply insert_fresh_subseteq. }
    exists (VCloud c'), h'.
    rewrite (aligned_source_bound _ _ _ _ Ho Hb). split_and!.
    + done.
    + apply fresh_lookup.
    + exists c', p''. simpl. by rewrite !lookup_insert_eq.
    + split_and!; try done. simpl. rewrite !insert_insert_eq.
      apply insert_fresh_subseteq.
    + unfold Alignable_alignment_error. unfold bind at 1. rewrite Hget.
      rewrite Htgt. unfold bind at 1. simpl. unfold get_cloud at 1. rewrite Hct.
      unfold bind at 1. rewrite (aligned_source_bound _ _ _ _ Ho Hb), Happ.
      unfold bind, call_points, get_cloud, subtract. simpl.
      rewrite lookup_insert_eq. unfold bind, get_array. simpl.
      pose proof (lookup_weaken _ _ _ _ Hpt Harr) as Hpt'. simpl in Hpt'.
      rewrite Hpt'. simpl. rewrite lookup_insert_eq.
      simpl. by rewrite Hd.
  - intros Hb Hwf. split; [by apply (aligned_source_unbound _ _ o)|].
    unfold Alignable_alignment_error. unfold bind at 1. rewrite Hget.
    destruct (_target o) as [| | | | |ct] eqn:Ht;
      try (by exists AttributeError).
    destruct (Hwf ct eq_refl) as [tp Htp].
    exists ValueError. unfold bind at 1. simpl. unfold get_cloud. rewrite Htp.
    unfold bind at 1. rewrite (aligned_source_unbound _ _ _ _ Ho); [done|].
    by rewrite Ht.
Qed.

Lemma alignment_error_is_norm_witness :
  insts Toy.h0 !! 4%positive =
    Some (Inst Toy.Translation [1; 1]%Z (VCloud 1%positive) (VCloud 2%positive)) ∧
  (∃ h', Alignable_aligned_source 2 4%positive Toy.h0 = Some (Ret (VCloud 4%positive), h') ∧
         cloud_at h' (VCloud 4%positive) [[2; 2]; [4; 4]]%Z ∧
         Alignable_alignment_error 2 4%positive Toy.h0 = Some (Ret 6%Z, h')) ∧
  Alignable_aligned_source 2 1%positive Toy.h0 = Some (Raise ValueError, Toy.h0) ∧
  Alignable_alignment_error 2 1%positive Toy.h0 = Some (Raise AttributeError, Toy.h0).
Proof.
  split; [reflexivity|].
  destruct (alignment_error_is_norm (W:=Toy.toy) 4%positive _ 0 Toy.h0 eq_refl)
    as (_ & Hval & _).
  destruct (alignment_error_is_norm (W:=Toy.toy) 1%positive _ 2 Toy.h0 eq_refl)
    as (_ & _ & Hun).
  split.
  - destruct (Hval [[1; 1]; [3; 3]]%Z [[5; 5]; [7; 7]]%Z [[2; 2]; [4; 4]]%Z
                [[3; 3]; [3; 3]]%Z) as (a & h' & Ha & _ & Hc & _ & He).
    + exists 1%positive, 2%positive; split_and!; reflexivity.
    + exists 2%positive, 3%positive; split_and!; reflexivity.
    + reflexivity.
    + reflexivity.
    + assert (a = VCloud 4%positive) as -> by (vm_compute in Ha; congruence).
      exists h'. split_and!; [exact Ha|exact Hc|exact He].
  - destruct Hun as [Hs [e He]]; [reflexivity|intros c [=]|].
    split; [exact Hs|]. rewrite He. vm_compute in He. congruence.
Defined.

(** C3.  For an instance [self] of a class that keeps the laws of
    [vcomposable_laws] and a transform [t] of a vectorizable class that
    [self] composes with: the default [_compose_after_inplace(t)] returns;
    afterwards [self] holds parameters [s] whose primitive mapping is that
    of [t] followed by that of [self] before the call, so on every array [p]
    [self.apply(p)] is [a_orig.apply(t.apply(p))]; every other instance that
    was in the store, so [t] when it is not [self] itself, and all arrays,
    lists, chains and point clouds are as they were. *)
Theorem vcomposable_compose_after_default `{W : World}
    (self tl : loc) (o j : inst) (classes : pytype klass → bool) (h : heap) :
  vcomposable_laws (cls o) →
  insts h !! self = Some o → insts h !! tl = Some j →
  composes_inplace_with (cls o) = Some classes →
  classes (TyInst (cls j)) = true →
  is_Some (as_vector (cls j) (params j)) →
  ∃ s h',
    VComposableTransform__compose_after_inplace self (VInst tl) h =
      Some (Ret VNone, h') ∧
    insts h' !! self = Some (Inst (cls o) s (_source o) (_target o)) ∧
    (∀ kw a, prim_apply (cls o) s kw a =
             res_bind (prim_apply (cls j) (params j) kw a)
                      (prim_apply (cls o) (params o) kw)) ∧
    (∀ n p a kw, arrays h' !! p = Some a →
       Transform_apply (S n) (VInst self) (VArr p) kw h' =
       (let! r := lift_res (res_bind (prim_apply (cls j) (params j) kw a)
                                     (prim_apply (cls o) (params o) kw)) in
        new_array r) h') ∧
    (tl ≠ self → insts h' !! tl = Some j) ∧
    arrays h' = arrays h ∧ lists h' = lists h ∧ chains h' = chains h ∧
    clouds h' = clouds h ∧
    (∀ i oi, i ≠ self → insts h !! i = Some oi → insts h' !! i = Some oi).
Proof.
  intros L Ho Hj Hcl Hadm [vt Hvt].
  destruct (law_as_vector _ L (params o)) as [va Hva].
  destruct (law_update_from_vector _ L classes (params o) _ _ _ Hcl Hadm Hvt)
    as (s1 & Hupd & Hs1).
  destruct (law_from_vector _ L s1 _ _ Hva)
    as (k2 & s2 & classes' & Hfrom & Hcl' & Hadm2 & Hs2).
  rewrite Hcl in Hcl'. injection Hcl' as <-.
  destruct (law_compose_before _ L classes s1 k2 s2 Hcl Hadm2)
    as (s3 & Hhook & Hs3).
  set (o1 := Inst (cls o) s1 (_source o) (_target o)).
  set (h1 := set_insts <[self:=o1]> h).
  set (inew := fresh (dom (insts h1))).
  set (h2 := set_insts <[inew:=Inst k2 s2 VNone VNone]> h1).
  set (o3 := Inst (cls o) s3 (_source o) (_target o)).
  set (h3 := set_insts <[self:=o3]> h2).
  assert (inew ≠ self) as Hne.
  { intros Heq. pose proof (fresh_lookup (insts h1)) as Hf. fold inew in Hf.
    rewrite Heq in Hf. unfold h1 in Hf. simpl in Hf.
    by rewrite lookup_insert_eq in Hf. }
  assert (insts h2 !! self = Some o1) as Hself2.
  { unfold h2; simpl. rewrite lookup_insert_ne by done. apply lookup_insert_eq. }
  assert (insts h2 !! inew = Some (Inst k2 s2 VNone VNone)) as Hnew2.
  { unfold h2; simpl. apply lookup_insert_eq. }
  exists s3, h3.
  assert (VComposableTransform__compose_after_inplace self (VInst tl) h =
          Some (Ret VNone, h3)) as Hrun.
  { unfold VComposableTransform__compose_after_inplace.
    erewrite bind_run by (by eapply call_as_vector_run).
    erewrite bind_run by (by eapply call_as_vector_run).
    erewrite bind_run by (by eapply call_update_from_vector_run).
    fold o1. fold h1.
    unfold VComposableTransform_compose_before_from_vector_inplace.
    erewrite bind_run.
    2:{ eapply call_from_vector_run; [apply lookup_insert_eq|exact Hfrom]. }
    fold inew. fold h2.
    unfold ComposableTransform_compose_before_inplace.
    erewrite bind_run.
    2:{ eapply isinstance_composes_inst; [exact Hself2|exact Hcl|].
        by eapply type_of_inst. }
    simpl. rewrite Hadm2.
    erewrite bind_run.
    2:{ eapply call__compose_before_inplace_inst; [exact Hself2|exact Hnew2|].
        exact Hhook. }
    done. }
  assert (∀ i oi, i ≠ self → insts h !! i = Some oi → insts h3 !! i = Some oi)
    as Hother.
  { intros i oi Hi Hoi. unfold h3; simpl. rewrite lookup_insert_ne by done.
    assert (insts h1 !! i = Some oi) as Hoi1
      by (unfold h1; simpl; by rewrite lookup_insert_ne).
    rewrite lookup_insert_ne; [done|].
    intros Heq. pose proof (fresh_lookup (insts h1)) as Hf. fold inew in Hf.
    rewrite Heq in Hf. by rewrite Hf in Hoi1. }
  assert (∀ kw a, prim_apply (cls o) s3 kw a =
                  res_bind (prim_apply (cls j) (params j) kw a)
                           (prim_apply (cls o) (params o) kw)) as Hfinal.
  { intros kw a. rewrite Hs3, Hs1.
    destruct (prim_apply (cls j) (params j) kw a); simpl; [apply Hs2|done]. }
  split_and!; try done.
  - apply lookup_insert_eq.
  - intros n p a kw Hp.
    rewrite (Transform_apply_inst_array n self o3 p a kw h3);
      [|apply lookup_insert_eq|done].
    simpl. by rewrite Hfinal.
  - intros Hneq. by apply Hother.
Qed.

Lemma vcomposable_compose_after_default_witness :
  let h' := set_insts <[1%positive:=Inst Toy.Translation [11; 22]%Z VNone VNone]>
              (set_insts <[5%positive:=Inst Toy.Translation [1; 2]%Z VNone VNone]>
                 (set_insts <[1%positive:=Inst Toy.Translation [10; 20]%Z VNone VNone]>
                    Toy.h0)) in
  VComposableTransform__compose_after_inplace 1%positive (VInst 2%positive) Toy.h0 =
    Some (Ret VNone, h') ∧
  insts h' !! 2%positive = Some (Inst Toy.Translation [10; 20]%Z VNone VNone) ∧
  Transform_apply 1 (VInst 1%positive) (VArr 1%positive) [] h' =
    Some (Ret (VArr 5%positive), set_arrays <[5%positive:=[[11; 22]; [13; 24]]%Z]> h').
Proof.
  intros h'.
  destruct (vcomposable_compose_after_default (W:=Toy.toy) 1%positive 2%positive
              (@Inst Toy.toy Toy.Translation [1; 2]%Z VNone VNone)
              (@Inst Toy.toy Toy.Translation [10; 20]%Z VNone VNone)
              (λ ty, bool_decide (ty = TyInst Toy.Translation))
              Toy.h0 toy_translation_laws eq_refl eq_refl eq_refl eq_refl
              (ex_intro _ [10; 20]%Z eq_refl))
    as (s & h1 & Hrun & Hself & _ & Happ & Ht & _).
  assert (VComposableTransform__compose_after_inplace
            1%positive (VInst 2%positive) Toy.h0 = Some (Ret VNone, h')) as Hrun'
    by reflexivity.
  rewrite Hrun' in Hrun. injection Hrun as <-.
  split; [exact Hrun'|]. split; [by apply Ht|].
  rewrite (Happ 0 1%positive [[0; 0]; [2; 2]]%Z []) by reflexivity.
  reflexivity.
Defined.

(** C5.  For a [ComposableTransform] [self] and an object [t] of type [ty]:
    where [ty] is among [self.composes_inplace_with], [compose_before] and
    [compose_after] deep-copy [self], run [_compose_before_inplace],
    respectively [_compose_after_inplace], on the copy and return the copy;
    otherwise they are [Transform.compose_before] and
    [Transform.compose_after] and return a [TransformChain] over
    [[self, t]], respectively [[t, self]].  Either way no object of the
    store is changed, so neither [self] nor [t], and what is returned is a
    new object.  For an instance that is not an alignment and whose hook
    returns parameters [s], the native [compose_before] returns a new
    instance of its class with parameters [s]; and on a closed store the
    deep copy returns, with fuel for one call more than there are objects,
    so that the native combine returns whenever the hook does. *)
Theorem native_or_chain_composition `{W : World}
    (self t : val) (classes : pytype klass → bool) (ty : pytype klass)
    (n : nat) (h : heap) :
  call_composes_inplace_with self h = Some (Ret classes, h) →
  type_of t h = Some (Ret ty, h) →
  ComposableTransform_compose_before n self t h =
    (if classes ty
     then (let! new_transform := deepcopy n self in
           run! call__compose_before_inplace new_transform t in
           ret new_transform) h
     else chain_of [self; t] h) ∧
  ComposableTransform_compose_after n self t h =
    (if classes ty
     then (let! new_transform := deepcopy n self in
           run! call__compose_after_inplace new_transform t in
           ret new_transform) h
     else chain_of [t; self] h) ∧
  (∀ r h',
     ComposableTransform_compose_before n self t h = Some (r, h') ∨
     ComposableTransform_compose_after n self t h = Some (r, h') →
     heap_incl h h' ∧ ∀ v, r = Ret v → fresh_val h v) ∧
  (classes ty = false →
     ∃ c l h1 c' l' h2,
       ComposableTransform_compose_before n self t h = Some (Ret (VChain c), h1) ∧
       chains h1 !! c = Some (VList l) ∧ lists h1 !! l = Some [self; t] ∧
       ComposableTransform_compose_after n self t h = Some (Ret (VChain c'), h2) ∧
       chains h2 !! c' = Some (VList l') ∧ lists h2 !! l' = Some [t; self]) ∧
  (∀ i o tl j s,
     self = VInst i → t = VInst tl →
     insts h !! i = Some o → insts h !! tl = Some j →
     _source o = VNone → _target o = VNone → classes ty = true →
     compose_before_hook (cls o) (params o) (Some (cls j, params j)) = Ret s →
     ComposableTransform_compose_before (S (S n)) self t h =
     Some (Ret (VInst (fresh (dom (insts h)))),
           set_insts <[fresh (dom (insts h)):=Inst (cls o) s VNone VNone]> h)) ∧
  (closed h → val_in h self →
     ∃ new_transform h1,
       deepcopy (S (length (all_objects h))) self h = Some (Ret new_transform, h1)).
Proof.
  intros Hs Ht.
  assert (isinstance_composes self t h = Some (Ret (classes ty), h)) as Hi.
  { unfold isinstance_composes, bind. by rewrite Hs, Ht. }
  assert (∀ m, ComposableTransform_compose_before m self t h =
          (if classes ty
           then (let! new_transform := deepcopy m self in
                 run! call__compose_before_inplace new_transform t in
                 ret new_transform) h
           else chain_of [self; t] h)) as Hbefore.
  { intros m. unfold ComposableTransform_compose_before.
    rewrite (bind_run _ _ _ _ _ Hi). by destruct (classes ty). }
  assert (ComposableTransform_compose_after n self t h =
          (if classes ty
           then (let! new_transform := deepcopy n self in
                 run! call__compose_after_inplace new_transform t in
                 ret new_transform) h
           else chain_of [t; self] h)) as Hafter.
  { unfold ComposableTransform_compose_after.
    rewrite (bind_run _ _ _ _ _ Hi). by destruct (classes ty). }
  split_and!; [apply Hbefore|exact Hafter| | | |apply deepcopy_returns].
  - intros r h'. rewrite Hbefore, Hafter. destruct (classes ty).
    + intros [H|H].
      * by apply (native_combine_incl n true self t).
      * by apply (native_combine_incl n false self t).
    + intros [H|H].
      * destruct r as [c|e]; [|by rewrite chain_of_run in H].
        apply chain_of_incl in H as (?&_&_&_&?). split; [done|].
        by intros v [= <-].
      * destruct r as [c|e]; [|by rewrite chain_of_run in H].
        apply chain_of_incl in H as (?&_&_&_&?). split; [done|].
        by intros v [= <-].
  - intros Hno. rewrite Hbefore, Hafter, Hno. rewrite !chain_of_run.
    eexists _, _, _, _, _, _. split_and!; try done; simpl;
      apply lookup_insert_eq.
  - intros i o tl j s -> -> Ho Hj Hsrc Htgt Hyes Hhook.
    rewrite Hbefore, Hyes.
    assert (deepcopy (S (S n)) (VInst i) h =
            Some (Ret (VInst (fresh (dom (insts h)))),
                  set_insts <[fresh (dom (insts h)):=
                                Inst (cls o) (params o) VNone VNone]> h)) as Hcopy.
    { unfold deepcopy. cbn [deepcopy_memo memo_get]. rewrite Ho.
      cbn [mbind option_bind]. rewrite Hsrc, Htgt.
      cbn [deepcopy_memo memo_get].
      destruct (decide (VInst i = VNone)) as [?|_]; [done|].
      cbn [mbind option_bind memo_get].
      destruct (decide (VInst i = VNone)) as [?|_]; [done|].
      cbn [mbind option_bind]. by rewrite insert_twice_insts. }
    rewrite (bind_run _ _ _ _ _ Hcopy).
    set (i' := fresh (dom (insts h))).
    erewrite bind_run.
    2:{ eapply (call__compose_before_inplace_inst i' _ tl j s).
        - simpl. apply lookup_insert_eq.
        - simpl. rewrite lookup_insert_ne; [exact Hj|].
          intros Heq. pose proof (fresh_lookup (insts h)) as Hf. fold i' in Hf.
          rewrite Heq in Hf. by rewrite Hf in Hj.
        - exact Hhook. }
    simpl. by rewrite insert_twice_insts.
Qed.

Lemma native_or_chain_composition_witness :
  ComposableTransform_compose_before 2 (VInst 1%positive) (VInst 2%positive) Toy.h0 =
    Some (Ret (VInst 5%positive),
          set_insts <[5%positive:=Inst Toy.Translation [11; 22]%Z VNone VNone]> Toy.h0) ∧
  ComposableTransform_compose_before 2 (VInst 1%positive) (VInst 3%positive) Toy.h0 =
    Some (Ret (VChain 1%positive),
          set_chains <[1%positive:=VList 1%positive]>
            (set_lists <[1%positive:=[VInst 1%positive; VInst 3%positive]]> Toy.h0)) ∧
  ComposableTransform_compose_after 2 (VInst 1%positive) (VInst 3%positive) Toy.h0 =
    Some (Ret (VChain 1%positive),
          set_chains <[1%positive:=VList 1%positive]>
            (set_lists <[1%positive:=[VInst 3%positive; VInst 1%positive]]> Toy.h0)).
Proof.
  destruct (native_or_chain_composition (W:=Toy.toy)
              (VInst 1%positive) (VInst 2%positive)
              (λ ty, bool_decide (ty = TyInst Toy.Translation))
              (TyInst Toy.Translation) 0 Toy.h0 eq_refl eq_refl)
    as (_ & _ & _ & _ & Hnative & _).
  destruct (native_or_chain_composition (W:=Toy.toy)
              (VInst 1%positive) (VInst 3%positive)
              (λ ty, bool_decide (ty = TyInst Toy.Translation))
              (TyInst Toy.Scale) 2 Toy.h0 eq_refl eq_refl)
    as (Hb & Ha & _ & _ & _).
  split; [|split].
  - apply (Hnative 1%positive (@Inst Toy.toy Toy.Translation [1; 2]%Z VNone VNone)
             2%positive (@Inst Toy.toy Toy.Translation [10; 20]%Z VNone VNone)
             [11; 22]%Z); reflexivity.
  - rewrite Hb. reflexivity.
  - rewrite Ha. reflexivity.
Defined.

(** * Further properties *)

(** X1.  In-place composition of a chain over any list: after
    [compose_before_inplace(t)] the list of the chain is the old one with
    [t] at its end, and the chain maps [x] to what [t._apply] gives on the
    result of the old transforms; after [compose_after_inplace(t)] the list
    has [t] in front, and the old transforms are applied to what [t._apply]
    gives on [x].  Only the list is written. *)
Theorem chain_inplace_composition `{W : World}
    (c l : loc) (items : list val) (t : val) (ty : pytype klass) (h : heap) :
  chains h !! c = Some (VList l) → lists h !! l = Some items →
  transform_in h t ty →
  (∃ h1,
     ComposableTransform_compose_before_inplace (VChain c) t h = Some (Ret VNone, h1) ∧
     h1 = set_lists <[l:=items ++ [t]]> h ∧
     ∀ n x kw, call__apply (S n) (VChain c) x kw h1 =
               (let! q := apply_items n items x in call__apply n t q []) h1) ∧
  (∃ h2,
     ComposableTransform_compose_after_inplace (VChain c) t h = Some (Ret VNone, h2) ∧
     h2 = set_lists <[l:=t :: items]> h ∧
     ∀ n x kw, call__apply (S n) (VChain c) x kw h2 =
               (let! q := call__apply n t x [] in apply_items n items q) h2).
Proof.
  intros Hc Hl Ht. split.
  - eexists. split; [by eapply chain_compose_before_inplace|]. split; [done|].
    intros n x kw.
    rewrite (chain_apply_items n c l (items ++ [t])); [|done|apply lookup_insert_eq].
    unfold apply_items. rewrite reduce_app. apply bind_ext. intros q h1 _.
    simpl. apply bind_ret_r.
  - eexists. split; [by eapply chain_compose_after_inplace|]. split; [done|].
    intros n x kw.
    by rewrite (chain_apply_items n c l (t :: items)); [|done|apply lookup_insert_eq].
Qed.

Lemma chain_inplace_composition_witness :
  ComposableTransform_compose_before_inplace (VChain 1%positive) (VInst 2%positive)
    ToyStores.h_chain =
  Some (Ret VNone,
        set_lists <[1%positive:=[VInst 1%positive; VInst 3%positive; VInst 2%positive]]>
          ToyStores.h_chain) ∧
  ComposableTransform_compose_after_inplace (VChain 1%positive) (VInst 2%positive)
    ToyStores.h_chain =
  Some (Ret VNone,
        set_lists <[1%positive:=[VInst 2%positive; VInst 1%positive; VInst 3%positive]]>
          ToyStores.h_chain).
Proof.
  destruct (chain_inplace_composition (W:=Toy.toy) 1%positive 1%positive
              [VInst 1%positive; VInst 3%positive] (VInst 2%positive)
              (TyInst Toy.Translation) ToyStores.h_chain)
    as [(h1 & E1 & -> & _) (h2 & E2 & -> & _)];
    [reflexivity|reflexivity|split; reflexivity|].
  split; [exact E1|exact E2].
Defined.

(** X2.  [TransformChain(transforms)] keeps the list it is given: two chains
    built over one list are two objects that share it, so composing one of
    them in place composes the other, which then applies the new transform
    as well. *)
Theorem chains_share_their_list `{W : World}
    (l : loc) (items : list val) (t : val) (ty : pytype klass) (h : heap) :
  lists h !! l = Some items → transform_in h t ty →
  ∃ c1 c2 h1 h2,
    (let! a := TransformChain_init (VList l) in
     let! b := TransformChain_init (VList l) in
     ret (a, b)) h = Some (Ret (VChain c1, VChain c2), h1) ∧
    c1 ≠ c2 ∧
    ComposableTransform_compose_before_inplace (VChain c1) t h1 = Some (Ret VNone, h2) ∧
    chains h2 !! c2 = Some (VList l) ∧
    lists h2 !! l = Some (items ++ [t]) ∧
    ∀ n x kw,
      call__apply (S n) (VChain c2) x kw h2 =
      (let! q := apply_items n items x in call__apply n t q []) h2 ∧
      call__apply n (VChain c2) x kw h2 = call__apply n (VChain c1) x kw h2.
Proof.
  intros Hl [Ht Ht'].
  set (c1 := fresh (dom (chains h))).
  set (ha := set_chains <[c1:=VList l]> h).
  set (c2 := fresh (dom (chains ha))).
  set (h1 := set_chains <[c2:=VList l]> ha).
  assert (c1 ≠ c2) as Hne.
  { intros Heq. pose proof (fresh_lookup (chains ha)) as Hf. fold c2 in Hf.
    rewrite <- Heq in Hf. unfold ha in Hf. simpl in Hf.
    by rewrite lookup_insert_eq in Hf. }
  assert (chains h1 !! c1 = Some (VList l)) as Hc1.
  { unfold h1, ha. simpl. rewrite lookup_insert_ne by done. apply lookup_insert_eq. }
  assert (chains h1 !! c2 = Some (VList l)) as Hc2 by apply lookup_insert_eq.
  assert (transform_in h1 t ty) as Ht1.
  { split; [|done]. by apply (type_of_same_insts _ h). }
  exists c1, c2, h1, (set_lists <[l:=items ++ [t]]> h1).
  split_and!; [done|done|by eapply chain_compose_before_inplace|done
              |apply lookup_insert_eq|].
  intros n x kw. split.
  - rewrite (chain_apply_items n c2 l (items ++ [t])); [|done|apply lookup_insert_eq].
    unfold apply_items. rewrite reduce_app. apply bind_ext. intros q h' _.
    simpl. apply bind_ret_r.
  - eapply chain_apply_same; [exact Hc2| |exact Hc1|]; apply lookup_insert_eq.
Qed.

Lemma chains_share_their_list_witness :
  ∃ c1 c2 h1 h2,
    (let! a := TransformChain_init (VList 1%positive) in
     let! b := TransformChain_init (VList 1%positive) in
     ret (a, b)) ToyStores.h_chain = Some (Ret (VChain c1, VChain c2), h1) ∧
    c1 ≠ c2 ∧
    ComposableTransform_compose_before_inplace (VChain c1) (VInst 2%positive) h1 =
      Some (Ret VNone, h2) ∧
    chains h2 !! c2 = Some (VList 1%positive) ∧
    lists h2 !! 1%positive =
      Some [VInst 1%positive; VInst 3%positive; VInst 2%positive].
Proof.
  destruct (chains_share_their_list (W:=Toy.toy) 1%positive
              [VInst 1%positive; VInst 3%positive] (VInst 2%positive)
              (TyInst Toy.Translation) ToyStores.h_chain)
    as (c1 & c2 & h1 & h2 & E & Hne & E2 & Hc & Hl & _);
    [reflexivity|split; reflexivity|].
  exists c1, c2, h1, h2. by split_and!.
Defined.

(** X4.  A chain stops at the first transform that raises: when the
    transforms before [t] in the list return [q] and [t._apply(q)] raises,
    the chain raises the same exception, the transforms after [t] are not
    applied, and the store has only gained the arrays made until then. *)
Theorem chain_stops_at_first_error `{W : World}
    (c l : loc) (pre post : list val) (t x q : val) (e : exn)
    (n : nat) (kw : Kw) (h h1 h2 : heap) :
  chains h !! c = Some (VList l) → lists h !! l = Some (pre ++ t :: post) →
  apply_items n pre x h = Some (Ret q, h1) →
  call__apply n t q [] h1 = Some (Raise e, h2) →
  call__apply (S n) (VChain c) x kw h = Some (Raise e, h2) ∧
  more_arrays h h2.
Proof.
  intros Hc Hl Hpre Ht. split.
  - rewrite (chain_apply_items _ _ _ _ _ _ _ Hc Hl). unfold apply_items.
    rewrite reduce_app. erewrite bind_run by exact Hpre.
    simpl. unfold bind. by rewrite Ht.
  - etrans; [by eapply apply_items_more_arrays|].
    by eapply call__apply_more_arrays.
Qed.

Lemma chain_stops_at_first_error_witness :
  call__apply 2 (VChain 1%positive) (VArr 1%positive) [] ToyStores.h_broken =
  Some (Raise AttributeError,
        set_arrays <[5%positive:=[[1; 2]; [3; 4]]%Z]> ToyStores.h_broken).
Proof.
  eapply (chain_stops_at_first_error (W:=Toy.toy) 1%positive 1%positive
            [VInst 1%positive] [VInst 3%positive] (VArr 1%positive));
    reflexivity.
Defined.

(** X5.  A chain accepts itself as the operand of an in-place composition,
    and a chain that is an element of its own list returns from no call:
    neither [_apply] nor [apply], on no object and with no number of nested
    calls. *)
Theorem chain_in_itself_never_returns `{W : World}
    (c l : loc) (items : list val) (h : heap) :
  chains h !! c = Some (VList l) → lists h !! l = Some items →
  ∃ h1,
    ComposableTransform_compose_before_inplace (VChain c) (VChain c) h =
      Some (Ret VNone, h1) ∧
    lists h1 !! l = Some (items ++ [VChain c]) ∧
    ∀ n x kw v h',
      call__apply n (VChain c) x kw h1 ≠ Some (Ret v, h') ∧
      Transform_apply n (VChain c) x kw h1 ≠ Some (Ret v, h').
Proof.
  intros Hc Hl.
  exists (set_lists <[l:=items ++ [VChain c]]> h).
  split; [by eapply (chain_compose_before_inplace _ _ _ _ TyTransformChain)|].
  split; [apply lookup_insert_eq|].
  set (h1 := set_lists _ h).
  assert (∀ h2, heap_incl h1 h2 → ∀ n x kw v h',
            call__apply n (VChain c) x kw h2 ≠ Some (Ret v, h')) as Hnever.
  { intros h2 (_ & Hl2 & Hc2 & _) n x kw v h'.
    eapply (chain_in_own_list n c l (items ++ [VChain c])).
    - eapply lookup_weaken; [|exact Hc2]. exact Hc.
    - eapply lookup_weaken; [|exact Hl2]. apply lookup_insert_eq.
    - set_solver. }
  intros n x kw v h'. split; [by apply Hnever|].
  unfold Transform_apply, try_except_AttributeError.
  destruct (call__transform n x _ h1) as [[[y|e] h2]|] eqn:E; [| |done].
  - intros [= -> ->]. destruct x as [| | | | |cx]; try done.
    simpl in E. unfold Transformable__transform in E.
    apply bind_inv in E as [(y & h3 & Hcopy & Hrest)|(e & _ & [=])].
    apply deepcopy_cloud_is_cloud in Hcopy as (c' & -> & _ & Hincl).
    apply bind_inv in Hrest as [(u & h4 & Hrun & _)|(e & _ & [=])].
    simpl in Hrun. unfold cloud__transform_inplace in Hrun.
    apply bind_inv in Hrun as [(p & ? & [-> _]%get_cloud_inv & Hr)|(e & _ & [=])].
    apply bind_inv in Hr as [(r & h5 & Hr & _)|(e & _ & [=])].
    by eapply Hnever.
  - destruct e; try done. apply Hnever.
    eapply call__transform_incl; [|exact E].
    intros y. apply call__apply_more_arrays.
Qed.

Lemma chain_in_itself_never_returns_witness :
  ∃ h1,
    ComposableTransform_compose_before_inplace (VChain 1%positive) (VChain 1%positive)
      ToyStores.h_chain = Some (Ret VNone, h1) ∧
    lists h1 !! 1%positive =
      Some [VInst 1%positive; VInst 3%positive; VChain 1%positive] ∧
    Transform_apply 5 (VChain 1%positive) (VArr 1%positive) [] h1 = None.
Proof.
  destruct (chain_in_itself_never_returns (W:=Toy.toy) 1%positive 1%positive
              [VInst 1%positive; VInst 3%positive] ToyStores.h_chain)
    as (h1 & E & Hl & Hnever); [reflexivity|reflexivity|].
  exists h1. split; [exact E|]. split; [exact Hl|].
  injection E as <-. reflexivity.
Defined.

(** X6.  [TransformChain(transforms)] takes any object: with one that is
    not a list the chain is built all the same and the error shows on use.
    Both in-place compositions, whose check every transform passes, raise
    [AttributeError] from [append] and [insert]; and unless the object is an
    array, [_apply] raises [TypeError].  The store is left as it was. *)
Theorem chain_over_no_list `{W : World}
    (v t : val) (ty : pytype klass) (h : heap) :
  (∀ l, v ≠ VList l) → transform_in h t ty →
  ∃ c h1,
    TransformChain_init v h = Some (Ret (VChain c), h1) ∧
    chains h !! c = None ∧ h1 = set_chains <[c:=v]> h ∧
    ComposableTransform_compose_before_inplace (VChain c) t h1 =
      Some (Raise AttributeError, h1) ∧
    ComposableTransform_compose_after_inplace (VChain c) t h1 =
      Some (Raise AttributeError, h1) ∧
    ((∀ l, v ≠ VArr l) →
     ∀ n x kw, call__apply (S n) (VChain c) x kw h1 = Some (Raise TypeError, h1)).
Proof.
  intros Hv [Ht Ht'].
  set (c := fresh (dom (chains h))). set (h1 := set_chains <[c:=v]> h).
  assert (chains h1 !! c = Some v) as Hc by apply lookup_insert_eq.
  assert (transform_in h1 t ty) as Ht1.
  { split; [|done]. by apply (type_of_same_insts _ h). }
  exists c, h1. split_and!; [done|apply fresh_lookup|done| | |].
  - unfold ComposableTransform_compose_before_inplace.
    erewrite bind_run by (by eapply chain_isinstance).
    unfold bind, call__compose_before_inplace,
      TransformChain__compose_before_inplace, bind, get_chain. rewrite Hc.
    destruct v; try done. by destruct (Hv l).
  - unfold ComposableTransform_compose_after_inplace.
    erewrite bind_run by (by eapply chain_isinstance).
    unfold bind, call__compose_after_inplace,
      TransformChain__compose_after_inplace, bind, get_chain. rewrite Hc.
    destruct v; try done. by destruct (Hv l).
  - intros Hv' n x kw. simpl.
    unfold TransformChain__apply, bind, get_chain. rewrite Hc.
    destruct v; try done; [by destruct (Hv' l)|by destruct (Hv l)].
Qed.

Lemma chain_over_no_list_witness :
  ∃ c h1,
    TransformChain_init VNone Toy.h0 = Some (Ret (VChain c), h1) ∧
    ComposableTransform_compose_before_inplace (VChain c) (VInst 1%positive) h1 =
      Some (Raise AttributeError, h1) ∧
    call__apply 1 (VChain c) (VArr 1%positive) [] h1 = Some (Raise TypeError, h1).
Proof.
  destruct (chain_over_no_list (W:=Toy.toy) VNone (VInst 1%positive)
              (TyInst Toy.Translation) Toy.h0)
    as (c & h1 & E & _ & _ & Eb & _ & Eapp); [done|split; reflexivity|].
  exists c, h1. split_and!; [exact E|exact Eb|by apply Eapp].
Defined.

(** X7.  [apply] changes no object: whatever [x] is, an array, a point
    cloud or anything else, and however the call ends, every object that was
    in the store is afterwards as it was. *)
Theorem apply_changes_no_object `{W : World}
    (n : nat) (self x : val) (kw : Kw) (h : heap) (r : res val) (h' : heap) :
  Transform_apply n self x kw h = Some (r, h') → heap_incl h h'.
Proof. apply Transform_apply_incl. Qed.

Lemma apply_changes_no_object_witness :
  ∃ r h',
    Transform_apply 2 (VInst 1%positive) (VCloud 1%positive) [] Toy.h0 = Some (r, h') ∧
    heap_incl Toy.h0 h'.
Proof.
  eexists _, _. split; [reflexivity|].
  eapply (apply_changes_no_object (W:=Toy.toy) 2 (VInst 1%positive)
            (VCloud 1%positive) []).
  reflexivity.
Defined.

(** X8.  [apply_inplace] writes to its argument only and returns [None]:
    however the call ends, every array and point cloud other than [x] and
    every list, chain and transform is as it was, and when the call returns
    it returns [None], not the transformed object. *)
Theorem apply_inplace_writes_its_argument `{W : World}
    (n : nat) (self x : val) (kw : Kw) (h : heap) (r : res val) (h' : heap) :
  Transform_apply_inplace n self x kw h = Some (r, h') →
  writes_only x h h' ∧ ∀ v, r = Ret v → v = VNone.
Proof.
  intros Hrun. split; [by eapply Transform_apply_inplace_writes_only|].
  intros v ->. revert Hrun.
  unfold Transform_apply_inplace, try_except_AttributeError.
  destruct (bind (call__transform_inplace x _) _ h) as [[[y|e] h1]|] eqn:E;
    [| |done].
  - intros [= -> ->].
    by apply bind_inv in E as [(u & h2 & _ & [= <- _])|(e & _ & [=])].
  - assert (∀ h2, (let! r := call__apply n self x kw in setitem_ellipsis x r) h2 =
                  Some (Ret v, h') → v = VNone) as Hh.
    { intros h2 [(q & h3 & _ & Hset)|(e' & _ & [=])]%bind_inv.
      destruct x as [|l| | | |]; try done. destruct q as [|r| | | |]; try done.
      simpl in Hset.
      apply bind_inv in Hset as [(ax & ? & _ & Hset)|(e' & _ & [=])].
      apply bind_inv in Hset as [(av & ? & _ & Hset)|(e' & _ & [=])].
      apply bind_inv in Hset as [(a & ? & _ & Hset)|(e' & _ & [=])].
      by apply bind_inv in Hset as [(u & ? & _ & [= <- _])|(e' & _ & [=])]. }
    destruct e; try done. apply Hh.
Qed.

Lemma apply_inplace_writes_its_argument_witness :
  ∃ h',
    Transform_apply_inplace 1 (VInst 1%positive) (VCloud 1%positive) [] Toy.h0 =
      Some (Ret VNone, h') ∧
    writes_only (VCloud 1%positive) Toy.h0 h' ∧
    clouds h' !! 1%positive = Some (VArr 5%positive) ∧
    arrays h' !! 5%positive = Some [[2; 3]; [4; 5]]%Z ∧
    arrays h' !! 2%positive = Some [[1; 1]; [3; 3]]%Z.
Proof.
  eexists. split; [reflexivity|]. split; [|by split_and!].
  eapply (apply_inplace_writes_its_argument (W:=Toy.toy) 1 (VInst 1%positive)
            (VCloud 1%positive) []).
  reflexivity.
Defined.

(** X9.  On a [Transformable] the two methods hand the work to the object:
    [apply_inplace] gives the object the result of [_apply] on its points as
    its new points; and whenever [apply_inplace] on a deep copy of the
    object returns, [apply] returns that copy, a new object, from the same
    store, in which the object itself still has the points it had.  For a
    concrete transform whose primitive mapping returns, [apply] returns. *)
Theorem apply_to_a_transformable `{W : World}
    (n : nat) (self : val) (c : loc) (pts : val) (kw : Kw) (h : heap) :
  clouds h !! c = Some pts →
  (∀ q h1, call__apply n self pts kw h = Some (Ret q, h1) →
     Transform_apply_inplace n self (VCloud c) kw h =
     Some (Ret VNone, set_clouds <[c:=q]> h1)) ∧
  (∀ v h',
     (let! copy := deepcopy n (VCloud c) in
      run! Transform_apply_inplace n self copy kw in
      ret copy) h = Some (Ret v, h') →
     Transform_apply n self (VCloud c) kw h = Some (Ret v, h') ∧
     fresh_val h v ∧ clouds h' !! c = Some pts) ∧
  (∀ i o p a r m, self = VInst i → n = S (S m) →
     insts h !! i = Some o → pts = VArr p → arrays h !! p = Some a →
     prim_apply (cls o) (params o) kw a = Ret r →
     ∃ c' h', Transform_apply n self (VCloud c) kw h = Some (Ret (VCloud c'), h') ∧
              cloud_at h' (VCloud c') r ∧ cloud_at h' (VCloud c) a).
Proof.
  intros Hc. split_and!.
  - intros q h1 Hq.
    unfold Transform_apply_inplace, try_except_AttributeError. simpl.
    unfold cloud__transform_inplace, bind, get_cloud. rewrite Hc.
    by rewrite Hq.
  - intros v h' Hrun.
    apply bind_inv in Hrun as [(y & h1 & Hcopy & Hrest)|(e & _ & [=])].
    pose proof (deepcopy_new _ _ _ _ _ Hcopy) as (? & [= <-] & _ & Hfresh).
    pose proof (deepcopy_cloud_is_cloud _ _ _ _ _ Hcopy) as (c' & -> & Hc' & Hincl).
    apply bind_inv in Hrest as [(u & h2 & Hin & [= <- <-])|(e & _ & [=])].
    assert (Transform_apply n self (VCloud c) kw h = Some (Ret (VCloud c'), h2)) as E.
    { set (f := λ x_, call__apply n self x_ kw).
      assert (Transformable__transform n c f h =
              (run! cloud__transform_inplace c' f in ret (VCloud c')) h1) as Et.
      { unfold Transformable__transform. by erewrite bind_run by exact Hcopy. }
      revert Hin.
      unfold Transform_apply_inplace, Transform_apply, try_except_AttributeError.
      cbn [call__transform call__transform_inplace]. fold f. rewrite Et.
      unfold bind.
      destruct (cloud__transform_inplace c' f h1) as [[[y|e] h3]|]; [| |done].
      - by intros [= _ <-].
      - destruct e; try done.
        destruct (call__apply n self (VCloud c') kw h3) as [[[q|e] h4]|]; done. }
    split_and!; [exact E|exact Hfresh|].
    apply Transform_apply_incl in E as (_ & _ & _ & _ & Hp).
    by eapply lookup_weaken.
  - intros i o p a r m -> -> Ho -> Hp Hr.
    eexists _, _. split; [by eapply Transform_apply_cloud|].
    split.
    + eexists _, _. split_and!; [done|apply lookup_insert_eq|apply lookup_insert_eq].
    + exists c, p. split_and!; [done| |].
      * simpl. rewrite !lookup_insert_ne; [done|..];
          intros Heq; pose proof (fresh_lookup (clouds h)) as Hf;
          rewrite Heq in Hf; by rewrite Hf in Hc.
      * simpl.
        assert (arrays h ⊆ <[fresh (dom (arrays h)):=a]> (arrays h)) as Hs
          by apply insert_fresh_subseteq.
        eapply lookup_weaken; [|apply insert_fresh_subseteq].
        by eapply lookup_weaken.
Qed.

Lemma apply_to_a_transformable_witness :
  ∃ c' h',
    Transform_apply 2 (VInst 1%positive) (VCloud 1%positive) [] Toy.h0 =
      Some (Ret (VCloud c'), h') ∧
    cloud_at h' (VCloud c') [[2; 3]; [4; 5]]%Z ∧
    cloud_at h' (VCloud 1%positive) [[1; 1]; [3; 3]]%Z.
Proof.
  destruct (apply_to_a_transformable (W:=Toy.toy) 2 (VInst 1%positive) 1%positive
              (VArr 2%positive) [] Toy.h0 eq_refl) as (_ & _ & Hret).
  eapply (Hret 1%positive _ 2%positive [[1; 1]; [3; 3]]%Z); reflexivity.
Defined.

(** X3.  Building chains is associative: of three transforms,
    [a.compose_before(b).compose_before(c)] and
    [a.compose_before(b.compose_before(c))], both built by [Transform]'s
    method, change no object, and each of the two chains gives on every [x]
    the outcome that [a._apply], [b._apply] and [c._apply] give one after
    the other, with two levels of calls more. *)
Theorem chain_nesting_is_associative `{W : World} (a b c : val) (h : heap) :
  ∃ l r h',
    (let! ab := Transform_compose_before a b in
     let! l := Transform_compose_before ab c in
     let! bc := Transform_compose_before b c in
     let! r := Transform_compose_before a bc in
     ret (l, r)) h = Some (Ret (l, r), h') ∧
    heap_incl h h' ∧ arrays h' = arrays h ∧ insts h' = insts h ∧
    ∀ n x kw o,
      (let! q := call__apply n a x [] in
       let! q' := call__apply n b q [] in
       call__apply n c q' []) h' = Some o →
      call__apply (S (S n)) l x kw h' = Some o ∧
      call__apply (S (S n)) r x kw h' = Some o.
Proof.
  change Transform_compose_before with (λ s t, chain_of [s; t]).
  destruct (chain_of [a; b] h) as [[[ab|?] h1]|] eqn:E1;
    try (by rewrite chain_of_run in E1).
  destruct (chain_of [ab; c] h1) as [[[l|?] h2]|] eqn:E2;
    try (by rewrite chain_of_run in E2).
  destruct (chain_of [b; c] h2) as [[[bc|?] h3]|] eqn:E3;
    try (by rewrite chain_of_run in E3).
  destruct (chain_of [a; bc] h3) as [[[r|?] h4]|] eqn:E4;
    try (by rewrite chain_of_run in E4).
  exists l, r, h4.
  pose proof (chain_of_incl _ _ _ _ E1) as (I1 & A1 & N1 & _).
  pose proof (chain_of_incl _ _ _ _ E2) as (I2 & A2 & N2 & _).
  pose proof (chain_of_incl _ _ _ _ E3) as (I3 & A3 & N3 & _).
  pose proof (chain_of_incl _ _ _ _ E4) as (I4 & A4 & N4 & _).
  apply chain_of_lookup in E1 as E1'. destruct E1' as (cab & lab & -> & Hcab & Hlab & _).
  apply chain_of_lookup in E2 as E2'. destruct E2' as (cl & ll & -> & Hcl & Hll & _).
  apply chain_of_lookup in E3 as E3'. destruct E3' as (cbc & lbc & -> & Hcbc & Hlbc & _).
  apply chain_of_lookup in E4 as E4'. destruct E4' as (cr & lr & -> & Hcr & Hlr & _).
  split_and!.
  - simpl. erewrite bind_run by exact E1. erewrite bind_run by exact E2.
    erewrite bind_run by exact E3. by erewrite bind_run by exact E4.
  - by repeat (etrans; [eassumption|]).
  - congruence.
  - congruence.
  - intros n x kw o.
    assert (heap_incl h1 h4) as (_ & L14 & C14 & _) by (by repeat (etrans; [eassumption|])).
    assert (heap_incl h2 h4) as (_ & L24 & C24 & _) by (by repeat (etrans; [eassumption|])).
    destruct I4 as (_ & L34 & C34 & _).
    apply (nested_chains_apply n a b c x kw h4 cab lab cl ll cbc lbc cr lr o);
      [by eapply lookup_weaken, C14|by eapply lookup_weaken, L14
      |by eapply lookup_weaken, C24|by eapply lookup_weaken, L24
      |by eapply lookup_weaken, C34|by eapply lookup_weaken, L34
      |done|done].
Qed.

(** X10.  [compose_before_from_vector_inplace], in a class that keeps the
    contracts of its docstrings, with the vector of the parameters [sb] of
    the class: the call returns [None]; afterwards [self] holds parameters
    whose primitive mapping is that of [self] before the call followed by
    that of [sb], so [self.apply(p)] is [b.apply(a_orig.apply(p))] for
    [b = self.from_vector(vector)]; nothing but [self] is changed. *)
Theorem compose_before_from_vector_contract `{W : World}
    (self : loc) (o : inst) (sb : St) (v : Vec) (h : heap) :
  vcomposable_laws (cls o) → insts h !! self = Some o →
  as_vector (cls o) sb = Some v →
  ∃ s h',
    VComposableTransform_compose_before_from_vector_inplace self v h =
      Some (Ret VNone, h') ∧
    insts h' !! self = Some (Inst (cls o) s (_source o) (_target o)) ∧
    (∀ kw a, prim_apply (cls o) s kw a =
             res_bind (prim_apply (cls o) (params o) kw a)
                      (prim_apply (cls o) sb kw)) ∧
    (∀ n p a kw, arrays h' !! p = Some a →
       Transform_apply (S n) (VInst self) (VArr p) kw h' =
       (let! r := lift_res (res_bind (prim_apply (cls o) (params o) kw a)
                                     (prim_apply (cls o) sb kw)) in
        new_array r) h') ∧
    touches_inst self h h'.
Proof.
  intros L Ho Hv.
  destruct (compose_before_from_vector_run self o sb v h L Ho Hv)
    as (classes & k2 & s2 & s3 & _ & _ & _ & _ & Hrun & Hs3).
  match type of Hrun with _ = Some (_, ?hh) => set (h' := hh) in * end.
  assert (insts h' !! self = Some (Inst (cls o) s3 (_source o) (_target o))) as Hs
    by apply lookup_insert_eq.
  exists s3, h'. split_and!; [exact Hrun|exact Hs|exact Hs3| |].
  - intros n p a kw Hp.
    rewrite (Transform_apply_inst_array n self _ p a kw h' Hs Hp).
    simpl. by rewrite Hs3.
  - by eapply touches_before_from_vector.
Qed.

Lemma compose_before_from_vector_contract_witness :
  ∃ h',
    VComposableTransform_compose_before_from_vector_inplace (W:=Toy.toy)
      1%positive [10; 20]%Z Toy.h0 = Some (Ret VNone, h') ∧
    insts h' !! 1%positive =
      Some (@Inst Toy.toy Toy.Translation [11; 22]%Z VNone VNone) ∧
    insts h' !! 2%positive =
      Some (@Inst Toy.toy Toy.Translation [10; 20]%Z VNone VNone).
Proof.
  destruct (compose_before_from_vector_contract (W:=Toy.toy) 1%positive
              (@Inst Toy.toy Toy.Translation [1; 2]%Z VNone VNone)
              [10; 20]%Z [10; 20]%Z Toy.h0 toy_translation_laws eq_refl eq_refl)
    as (s & h' & E & Hs & _).
  exists h'. split; [exact E|].
  vm_compute in E. injection E as <-. split; reflexivity.
Defined.

(** X11.  [compose_after_from_vector_inplace], in a class that keeps the
    contracts of its docstrings, inherits the default
    [_compose_after_inplace] and builds instances of itself from vectors,
    with the vector of the parameters [sb] of the class: the call returns
    [None]; afterwards [self] holds parameters whose primitive mapping is
    that of [sb] followed by that of [self] before the call, so
    [self.apply(p)] is [a_orig.apply(b.apply(p))] for
    [b = self.from_vector(vector)]; nothing but [self] is changed. *)
Theorem compose_after_from_vector_contract `{W : World}
    (self : loc) (o : inst) (sb : St) (v : Vec) (h : heap) :
  vcomposable_laws (cls o) → compose_after_hook (cls o) = None →
  (∀ s0 v0 k2 s2, from_vector (cls o) s0 v0 = Ret (k2, s2) → k2 = cls o) →
  insts h !! self = Some o →
  as_vector (cls o) sb = Some v →
  ∃ s h',
    VComposableTransform_compose_after_from_vector_inplace self v h =
      Some (Ret VNone, h') ∧
    insts h' !! self = Some (Inst (cls o) s (_source o) (_target o)) ∧
    (∀ kw a, prim_apply (cls o) s kw a =
             res_bind (prim_apply (cls o) sb kw a)
                      (prim_apply (cls o) (params o) kw)) ∧
    (∀ n p a kw, arrays h' !! p = Some a →
       Transform_apply (S n) (VInst self) (VArr p) kw h' =
       (let! r := lift_res (res_bind (prim_apply (cls o) sb kw a)
                                     (prim_apply (cls o) (params o) kw)) in
        new_array r) h') ∧
    touches_inst self h h'.
Proof.
  intros L Hhook Hsame Ho Hv.
  destruct (law_from_vector _ L (params o) _ _ Hv)
    as (k2 & s2 & classes & Hfrom & Hcl & Hadm & Hs2).
  pose proof (Hsame _ _ _ _ Hfrom) as ->.
  set (inew := fresh (dom (insts h))).
  set (j := Inst (cls o) s2 VNone VNone).
  set (h1 := set_insts <[inew:=j]> h).
  assert (inew ≠ self) as Hne by (by eapply fresh_inst_ne).
  assert (insts h1 !! self = Some o) as Hself1.
  { unfold h1; simpl. by rewrite lookup_insert_ne. }
  assert (insts h1 !! inew = Some j) as Hnew1 by apply lookup_insert_eq.
  destruct (default_compose_after_run self inew o j classes h1 L Hself1 Hnew1 Hcl Hadm
              (law_as_vector _ L s2))
    as (s & h' & Hrun & Hs & Hprim & _).
  assert (VComposableTransform_compose_after_from_vector_inplace self v h =
          Some (Ret VNone, h')) as E.
  { unfold VComposableTransform_compose_after_from_vector_inplace.
    erewrite bind_run by (by eapply call_from_vector_run).
    fold inew. fold j. fold h1.
    unfold ComposableTransform_compose_after_inplace.
    erewrite bind_run.
    2:{ eapply isinstance_composes_inst; [exact Hself1|exact Hcl|].
        by eapply type_of_inst. }
    simpl. rewrite Hadm.
    unfold bind at 1. unfold bind at 1. unfold get_inst. rewrite Hself1, Hhook.
    by rewrite Hrun. }
  assert (∀ kw a, prim_apply (cls o) s kw a =
                  res_bind (prim_apply (cls o) sb kw a)
                           (prim_apply (cls o) (params o) kw)) as Hfinal.
  { intros kw a. rewrite Hprim. simpl. by rewrite Hs2. }
  exists s, h'. split_and!; [exact E|exact Hs|exact Hfinal| |].
  - intros n p a kw Hp.
    rewrite (Transform_apply_inst_array n self _ p a kw h' Hs Hp).
    simpl. by rewrite Hfinal.
  - by eapply touches_after_from_vector.
Qed.

Lemma compose_after_from_vector_contract_witness :
  ∃ h',
    VComposableTransform_compose_after_from_vector_inplace (W:=Toy.toy)
      1%positive [10; 20]%Z Toy.h0 = Some (Ret VNone, h') ∧
    insts h' !! 1%positive =
      Some (@Inst Toy.toy Toy.Translation [11; 22]%Z VNone VNone) ∧
    insts h' !! 2%positive =
      Some (@Inst Toy.toy Toy.Translation [10; 20]%Z VNone VNone).
Proof.
  destruct (compose_after_from_vector_contract (W:=Toy.toy) 1%positive
              (@Inst Toy.toy Toy.Translation [1; 2]%Z VNone VNone)
              [10; 20]%Z [10; 20]%Z Toy.h0 toy_translation_laws eq_refl)
    as (s & h' & E & Hs & _); [by intros ? ? ? ? [= <- _]|reflexivity|reflexivity|].
  exists h'. split; [exact E|].
  vm_compute in E. injection E as <-. split; reflexivity.
Defined.

(** X12.  The default [_compose_after_inplace] is not atomic.  When
    [compose_after_inplace(t)] of a class that inherits it raises, [self] is
    either untouched, with the whole store, or it is left with the
    parameters of [t], which [update_from_vector] gave it before the
    composition failed; every other object of the store is as it was. *)
Theorem compose_after_inplace_failure `{W : World}
    (self : loc) (o : inst) (t : val) (e : exn) (h h' : heap) :
  insts h !! self = Some o → compose_after_hook (cls o) = None →
  ComposableTransform_compose_after_inplace (VInst self) t h = Some (Raise e, h') →
  h' = h ∨
  ∃ v s1,
    call_as_vector t h = Some (Ret v, h) ∧
    update_from_vector (cls o) (params o) v = Ret s1 ∧
    insts h' !! self = Some (Inst (cls o) s1 (_source o) (_target o)) ∧
    touches_inst self h h'.
Proof.
  intros Ho Hhook Hrun.
  pose proof (touches_compose_after_inplace _ _ _ _ _ Hrun) as Htouch.
  revert Hrun. unfold ComposableTransform_compose_after_inplace.
  intros [(b & ? & ->%isinstance_composes_same & Hr)
         |(e' & ->%isinstance_composes_same & _)]%bind_inv; [|by left].
  destruct b; [|left; by injection Hr as _ <-].
  apply bind_inv in Hr as [(u & ? & _ & [=])|(e' & Hr & [= <-])].
  simpl in Hr. unfold bind at 1 in Hr. unfold get_inst in Hr.
  rewrite Ho, Hhook in Hr.
  unfold VComposableTransform__compose_after_inplace in Hr.
  apply bind_inv in Hr as [(sv & ? & ->%call_as_vector_same & Hr)
                          |(e' & ->%call_as_vector_same & _)]; [|by left].
  apply bind_inv in Hr as [(v & h1 & Hv & Hr)|(e' & ->%call_as_vector_same & _)];
    [|by left].
  pose proof (call_as_vector_same _ _ _ _ Hv) as ->.
  apply bind_inv in Hr as [(u & h2 & Hupd & Hr)|(e' & Hupd & _)].
  - apply call_update_from_vector_inv in Hupd as (o' & Ho' & Hupd).
    rewrite Ho in Ho'. injection Ho' as <-.
    destruct (update_from_vector (cls o) (params o) v) as [s1|] eqn:Eu;
      destruct Hupd as [[=] ->].
    right. exists v, s1. split_and!; [done|done| |done].
    eapply compose_before_from_vector_raise; [exact Hr|]. apply lookup_insert_eq.
  - apply call_update_from_vector_inv in Hupd as (o' & Ho' & Hupd).
    destruct (update_from_vector _ _ _); destruct Hupd as [? ->]; by left.
Qed.

Lemma compose_after_inplace_failure_witness :
  ∃ h',
    ComposableTransform_compose_after_inplace (W:=Capped.capped)
      (VInst 1%positive) (VInst 2%positive) Capped.h0 = Some (Raise ValueError, h') ∧
    insts Capped.h0 !! 1%positive = Some (@Inst Capped.capped () 3 VNone VNone) ∧
    insts h' !! 1%positive = Some (@Inst Capped.capped () 9 VNone VNone).
Proof.
  eexists. split; [reflexivity|]. split; [reflexivity|].
  destruct (compose_after_inplace_failure (W:=Capped.capped) 1%positive
              (@Inst Capped.capped () 3 VNone VNone) (VInst 2%positive) ValueError
              Capped.h0 _ eq_refl eq_refl eq_refl)
    as [Heq|(v & s1 & Hv & Hu & Hs & _)].
  - discriminate (f_equal (λ h : @heap Capped.capped, insts h !! 3%positive) Heq).
  - injection Hv as <-. injection Hu as <-. exact Hs.
Defined.

(** X13.  The setter of [target] keeps the pair it holds compatible: on a
    transform whose source and target are point clouds of the same
    dimensions with as many points, however the assignment ends the source
    and the target are again such a pair.  When it returns, the target is
    the assigned object itself and class and source are as they were; when
    it raises, the store is as it was. *)
Theorem target_setter_keeps_compatibility `{W : World}
    (self : loc) (value : val) (h : heap) (r : res val) (h' : heap) :
  compatible self h →
  Alignable_target_setter self value h = Some (r, h') →
  compatible self h' ∧
  match r with
  | Ret _ => ∃ o o', insts h !! self = Some o ∧ insts h' !! self = Some o' ∧
                     cls o' = cls o ∧ _source o' = _source o ∧ _target o' = value
  | Raise _ => h' = h
  end.
Proof.
  intros (o & sa & ta & Ho & Hs & Ht & Hsame) Hrun.
  pose proof (Alignable_target_setter_inv _ _ _ _ _ Hrun) as Hinv.
  destruct r as [u|e]; [|subst h'; split; [|done]; by exists o, sa, ta].
  destruct Hinv as (o2 & s & va & Ho2 & Hva & ->).
  rewrite Ho in Ho2. injection Ho2 as <-.
  rewrite (Alignable_target_setter_run _ _ _ _ _ _ _ Ho Hs Ht Hva) in Hrun.
  destruct (same_dims_and_points va ta) eqn:Hvt; [|done].
  split.
  - exists (Inst (cls o) s (_source o) value), sa, va.
    split_and!; [apply lookup_insert_eq|by eapply (cloud_at_same h)
                |by eapply (cloud_at_same h)|].
    eapply same_dims_and_points_trans; [exact Hsame|].
    by rewrite same_dims_and_points_sym.
  - eexists o, _. split_and!; [done|apply lookup_insert_eq|done..].
Qed.

Lemma target_setter_keeps_compatibility_witness :
  compatible 4%positive Toy.h0 ∧
  ∃ h', Alignable_target_setter 4%positive (VCloud 1%positive) Toy.h0 =
          Some (Ret VNone, h') ∧
        compatible 4%positive h'.
Proof.
  assert (compatible 4%positive Toy.h0) as Hc.
  { exists (@Inst Toy.toy Toy.Translation [1; 1]%Z (VCloud 1%positive) (VCloud 2%positive)),
      [[1; 1]; [3; 3]]%Z, [[5; 5]; [7; 7]]%Z.
    split_and!; [reflexivity| | |reflexivity].
    - exists 1%positive, 2%positive. by split_and!.
    - exists 2%positive, 3%positive. by split_and!. }
  split; [exact Hc|]. eexists. split; [reflexivity|].
  eapply (target_setter_keeps_compatibility (W:=Toy.toy) 4%positive
            (VCloud 1%positive) Toy.h0 (Ret VNone)); [exact Hc|reflexivity].
Defined.

(** X14.  [n_dims] and [n_points] of a [PureAlignment] are those of its
    source: on an instance of a class that inherits them, [x.n_dims] and
    [x.n_points] are [self.source.n_dims] and [self.source.n_points],
    whatever the source is.  A transform the constructor returns for two
    point clouds holds a compatible pair, and on every transform that holds
    one the two are the dimensions and the number of points of the target as
    well. *)
Theorem pure_alignment_dims `{W : World}
    (c : klass) (source target : val) (sa ta : Arr) (kw : Kw)
    (h : heap) (v : val) (h' : heap) :
  cloud_at h source sa → cloud_at h target ta →
  PureAlignment_new c source target kw h = Some (Ret v, h') →
  ∃ i, v = VInst i ∧ compatible i h' ∧
    (∀ h2, compatible i h2 →
       ∃ o sa ta, insts h2 !! i = Some o ∧
         cloud_at h2 (_source o) sa ∧ cloud_at h2 (_target o) ta ∧
         shape_n_dims sa = shape_n_dims ta ∧
         shape_n_points sa = shape_n_points ta ∧
         PureAlignment_n_dims i h2 = Some (Ret (Some (shape_n_dims ta)), h2) ∧
         PureAlignment_n_points i h2 = Some (Ret (shape_n_points ta), h2)) ∧
    (∀ j o h2, insts h2 !! j = Some o → pure_alignment (cls o) = true →
       call_n_dims (VInst j) h2 = PureAlignment_n_dims j h2 ∧
       call_n_points (VInst j) h2 = PureAlignment_n_points j h2).
Proof.
  intros Hs Ht Hnew.
  destruct (PureAlignment_new_compatible _ _ _ _ _ _ _ _ _ Hs Ht Hnew)
    as (i & -> & _ & Hc & _).
  exists i. split; [done|]. split; [done|]. split.
  - intros h2. apply compatible_dims.
  - intros j o h2 Ho Hp. split.
    + by eapply call_n_dims_pure_alignment.
    + by eapply call_n_points_pure_alignment.
Qed.

Lemma pure_alignment_dims_witness :
  ∃ h', PureAlignment_new Toy.Translation (VCloud 1%positive) (VCloud 2%positive) []
          Toy.h0 = Some (Ret (VInst 5%positive), h') ∧
        compatible 5%positive h' ∧
        PureAlignment_n_dims 5%positive h' = Some (Ret (Some 2), h') ∧
        PureAlignment_n_points 5%positive h' = Some (Ret 2, h') ∧
        call_n_dims (VInst 5%positive) h' = Some (Ret (Some 2), h').
Proof.
  assert (cloud_at Toy.h0 (VCloud 1%positive) [[1; 1]; [3; 3]]%Z) as H1
    by (exists 1%positive, 2%positive; by split_and!).
  assert (cloud_at Toy.h0 (VCloud 2%positive) [[5; 5]; [7; 7]]%Z) as H2
    by (exists 2%positive, 3%positive; by split_and!).
  eexists. split; [reflexivity|].
  destruct (pure_alignment_dims (W:=Toy.toy) Toy.Translation (VCloud 1%positive)
              (VCloud 2%positive) _ _ [] Toy.h0 _ _ H1 H2 eq_refl)
    as (i & [= <-] & Hc & _ & _).
  split; [exact Hc|]. split; [reflexivity|]. split; reflexivity.
Defined.

(** X17.  [_sync_target] does nothing on a transform that is not an
    alignment.  On one bound to point clouds it applies the transform to the
    source and assigns the result, a new point cloud, as the target: the
    transform is refitted by [_target_setter] to the source and its own
    image of the source, and the assignment raises [ValueError], the
    transform as it was, when that image has not the shape of the target. *)
Theorem sync_target_retargets `{W : World}
    (n : nat) (self : loc) (o : inst) (h : heap) :
  insts h !! self = Some o →
  (is_not_None (_source o) && is_not_None (_target o) = false →
   Alignable__sync_target n self h = Some (Ret VNone, h)) ∧
  (∀ sa ta r,
     cloud_at h (_source o) sa → cloud_at h (_target o) ta →
     prim_apply (cls o) (params o) [] sa = Ret r →
     ∃ t h1,
       Transform_apply (S (S n)) (VInst self) (_source o) [] h = Some (Ret t, h1) ∧
       fresh_val h t ∧ cloud_at h1 t r ∧ heap_incl h h1 ∧
       Alignable__sync_target (S (S n)) self h =
       if same_dims_and_points r ta then
         match target_setter_hook (cls o) (params o) sa r with
         | Ret s => Some (Ret VNone,
                          set_insts <[self:=Inst (cls o) s (_source o) t]> h1)
         | Raise e => Some (Raise e, h1)
         end
       else Some (Raise ValueError, h1)).
Proof.
  intros Ho. split.
  - intros Hb. unfold Alignable__sync_target. unfold bind at 1.
    by rewrite (is_alignment_transform_run _ _ _ Ho), Hb.
  - intros sa ta r Hs Ht Hr.
    pose proof Hs as (c & p & Esrc & Hc & Hp).
    pose proof (Transform_apply_cloud n self o c p sa r [] h Ho Hc Hp Hr) as Happ.
    simpl in Happ. rewrite <- Esrc in Happ.
    match type of Happ with _ = Some (Ret ?tt, ?hh) =>
      set (t := tt) in *; set (h1 := hh) in * end.
    assert (heap_incl h h1) as Hincl by (by eapply Transform_apply_incl).
    assert (cloud_at h1 t r) as Ht1.
    { eexists _, _. split_and!; [done|apply lookup_insert_eq|apply lookup_insert_eq]. }
    exists t, h1. split_and!; [exact Happ|apply fresh_lookup|exact Ht1|exact Hincl|].
    unfold Alignable__sync_target. unfold bind at 1.
    rewrite (is_alignment_transform_run _ _ _ Ho).
    rewrite (cloud_at_not_None _ _ _ Hs), (cloud_at_not_None _ _ _ Ht). simpl.
    unfold bind at 1. unfold Alignable_source at 1. unfold bind at 1.
    unfold get_inst. rewrite Ho. simpl.
    unfold bind. rewrite Happ.
    apply (Alignable_target_setter_run self o t sa ta r h1); [done|..|done].
    + by eapply cloud_at_incl.
    + by eapply cloud_at_incl.
Qed.

Lemma sync_target_retargets_witness :
  ∃ h',
    Alignable__sync_target 2 4%positive Toy.h0 = Some (Ret VNone, h') ∧
    insts h' !! 4%positive =
      Some (@Inst Toy.toy Toy.Translation [1; 1]%Z (VCloud 1%positive) (VCloud 4%positive)) ∧
    cloud_at h' (VCloud 4%positive) [[2; 2]; [4; 4]]%Z ∧
    Alignable__sync_target 2 1%positive Toy.h0 = Some (Ret VNone, Toy.h0).
Proof.
  eexists. split; [reflexivity|]. split; [reflexivity|]. split.
  - destruct (sync_target_retargets (W:=Toy.toy) 0 4%positive _ Toy.h0 eq_refl)
      as [_ Hb].
    destruct (Hb [[1; 1]; [3; 3]]%Z [[5; 5]; [7; 7]]%Z [[2; 2]; [4; 4]]%Z)
      as (t & h1 & Happ & _ & Hc & _ & _).
    + exists 1%positive, 2%positive. by split_and!.
    + exists 2%positive, 3%positive. by split_and!.
    + reflexivity.
    + injection Happ as <- <-.
      destruct Hc as (c & p & Ec & Hc & Hp). exists c, p. split_and!; try done.
  - by destruct (sync_target_retargets (W:=Toy.toy) 2 1%positive _ Toy.h0 eq_refl)
      as [Hu _]; apply Hu.
Defined.

(** X15.  [from_target] copies the whole transform: on a transform bound to
    point clouds it returns a new transform of the same class whose target
    is the given object itself and whose source is a new point cloud with
    the contents of the old source, its parameters refitted by
    [_target_setter]; it raises [ValueError] when the new target has not the
    shape of the old one.  Either way the receiver and every other object
    of the store are as they were: the store has only gained the copy. *)
Theorem from_target_copies `{W : World}
    (n : nat) (self : loc) (o : inst) (value : val) (sa ta va : Arr) (h : heap) :
  insts h !! self = Some o →
  cloud_at h (_source o) sa → cloud_at h (_target o) ta → cloud_at h value va →
  ∃ i src h1,
    insts h !! i = None ∧ fresh_val h src ∧ cloud_at h1 src sa ∧ heap_incl h h1 ∧
    (∀ s, heap_incl h (set_insts <[i:=Inst (cls o) s src value]> h1)) ∧
    Alignable_from_target (S (S (S n))) self value h =
    if same_dims_and_points va ta then
      match target_setter_hook (cls o) (params o) sa va with
      | Ret s => Some (Ret (VInst i),
                       set_insts <[i:=Inst (cls o) s src value]> h1)
      | Raise e => Some (Raise e, h1)
      end
    else Some (Raise ValueError, h1).
Proof.
  intros Ho Hs Ht Hv.
  destruct (deepcopy_alignment n self o sa ta h Ho Hs Ht)
    as (i & s' & t' & h1 & Hcopy & Hi & Hincl & Hi1 & Hs1 & Ht1 & Hfresh).
  exists i, s', h1. split_and!; try done.
  - intros s. destruct Hincl as (?&?&?&?&?). split_and!; try done.
    simpl. by apply subseteq_write.
  - unfold Alignable_from_target. erewrite bind_run by exact Hcopy.
    unfold bind.
    rewrite (Alignable_target_setter_run i _ value sa ta va h1 Hi1);
      [|done|done|by eapply cloud_at_incl].
    simpl. destruct (same_dims_and_points va ta); [|done].
    by destruct (target_setter_hook _ _ _ _).
Qed.

Lemma from_target_copies_witness :
  ∃ h',
    Alignable_from_target 3 4%positive (VCloud 1%positive) Toy.h0 =
      Some (Ret (VInst 5%positive), h') ∧
    insts h' !! 5%positive =
      Some (@Inst Toy.toy Toy.Translation [0; 0]%Z (VCloud 4%positive) (VCloud 1%positive)) ∧
    insts h' !! 4%positive =
      Some (@Inst Toy.toy Toy.Translation [1; 1]%Z (VCloud 1%positive) (VCloud 2%positive)) ∧
    cloud_at h' (VCloud 4%positive) [[1; 1]; [3; 3]]%Z.
Proof.
  destruct (from_target_copies (W:=Toy.toy) 0 4%positive _ (VCloud 1%positive)
              [[1; 1]; [3; 3]]%Z [[5; 5]; [7; 7]]%Z [[1; 1]; [3; 3]]%Z Toy.h0 eq_refl)
    as (i & src & h1 & _ & _ & Hsrc & _ & _ & E).
  - exists 1%positive, 2%positive. by split_and!.
  - exists 2%positive, 3%positive. by split_and!.
  - exists 1%positive, 2%positive. by split_and!.
  - eexists. split; [reflexivity|]. split; [reflexivity|]. split; [reflexivity|].
    exists 4%positive, 5%positive. by split_and!.
Defined.

(** X16.  [from_target] on a transform that is not an alignment raises
    [NotImplementedError], and does so after it has copied the transform:
    the store has gained the copy, and every object it held is as it was.
    On a closed store the call has this outcome. *)
Theorem from_target_unbound `{W : World}
    (self : loc) (o : inst) (value : val) (h : heap) :
  insts h !! self = Some o →
  is_not_None (_source o) && is_not_None (_target o) = false →
  (∀ n r h', Alignable_from_target n self value h = Some (r, h') →
     r = Raise NotImplementedError ∧ heap_incl h h' ∧ h' ≠ h) ∧
  (closed h →
   ∃ h', Alignable_from_target (S (length (all_objects h))) self value h =
         Some (Raise NotImplementedError, h')).
Proof.
  intros Ho Hb.
  assert (∀ n y h1, deepcopy n (VInst self) h = Some (Ret y, h1) →
            Alignable_from_target n self value h =
              Some (Raise NotImplementedError, h1) ∧
            heap_incl h h1 ∧ h1 ≠ h) as Hrun.
  { intros n y h1 Hcopy.
    destruct (deepcopy_unbound _ _ _ _ _ _ Ho Hb Hcopy)
      as (i' & o' & -> & Hi' & Ho' & Hb' & Hincl).
    split_and!; [|done|].
    - unfold Alignable_from_target. erewrite bind_run by exact Hcopy.
      unfold bind. by rewrite (Alignable_target_setter_unbound _ _ _ _ Ho' Hb').
    - intros ->. by rewrite Hi' in Ho'. }
  split.
  - intros n r h' E.
    destruct (deepcopy n (VInst self) h) as [[[y|e] h1]|] eqn:Hcopy.
    + destruct (Hrun _ _ _ Hcopy) as (E' & ? & ?). rewrite E' in E.
      by injection E as <- <-.
    + by apply deepcopy_new in Hcopy as (? & ? & _).
    + unfold Alignable_from_target, bind in E. by rewrite Hcopy in E.
  - intros Hclosed.
    destruct (deepcopy_returns h (VInst self) Hclosed) as (y & h1 & Hcopy);
      [by simpl; eexists|].
    exists h1. by apply (Hrun _ _ _ Hcopy).
Qed.

Lemma from_target_unbound_witness :
  ∃ h',
    Alignable_from_target (S (length (all_objects Toy.h0))) 1%positive
      (VCloud 1%positive) Toy.h0 = Some (Raise NotImplementedError, h') ∧
    heap_incl Toy.h0 h' ∧ h' ≠ Toy.h0.
Proof.
  destruct (from_target_unbound (W:=Toy.toy) 1%positive _ (VCloud 1%positive) Toy.h0
              eq_refl eq_refl) as [Hany Hret].
  destruct (Hret toy_h0_closed) as (h' & E). exists h'. split; [exact E|].
  by destruct (Hany _ _ _ E) as (_ & ? & ?).
Defined.

(** X18.  The native combine of a chain of concrete transforms keeps the
    contract of the docstrings.  On a closed store
    [chain.compose_before(t)] returns a new chain [d], every object of the
    store as it was, and [d] maps every [x] to what [t._apply] gives on the
    result of the chain: the copies that [deepcopy] makes of the transforms
    apply as the transforms do, and [t] itself is appended.
    [chain.compose_after(t)] returns a new chain that applies the chain to
    what [t._apply] gives on [x]. *)
Theorem native_combine_of_a_chain_applies `{W : World}
    (c l : loc) (items : list val) (t : val) (ty : pytype klass) (h : heap) :
  chains h !! c = Some (VList l) → lists h !! l = Some items →
  Forall (is_instance h) items → transform_in h t ty → closed h →
  (∃ d h',
     ComposableTransform_compose_before (S (length (all_objects h))) (VChain c) t h =
       Some (Ret d, h') ∧
     heap_incl h h' ∧ fresh_val h d ∧
     ∀ n x kw, call__apply (S n) d x kw h' =
               (let! q := call__apply (S n) (VChain c) x [] in
                call__apply n t q []) h') ∧
  (∃ d h',
     ComposableTransform_compose_after (S (length (all_objects h))) (VChain c) t h =
       Some (Ret d, h') ∧
     heap_incl h h' ∧ fresh_val h d ∧
     ∀ n x kw, call__apply (S n) d x kw h' =
               (let! q := call__apply n t x [] in
                call__apply (S n) (VChain c) q []) h').
Proof.
  intros Hc Hl Hall Ht Hclosed.
  destruct (deepcopy_returns h (VChain c) Hclosed) as (d & h1 & Hcopy);
    [by simpl; eexists|].
  destruct (deepcopy_chain_over_list _ _ _ _ _ _ _ Hc Hl Hcopy)
    as (c' & l' & items' & -> & Hc' & Hl' & Hc1 & Hl1 & Hits & Hincl).
  pose proof Hincl as (Ha & Hli & Hch & Hin & Hcl).
  assert (∀ new, heap_incl h (set_lists <[l':=new]> h1)) as Hincl'.
  { intros new. split_and!; try done. simpl. by apply subseteq_write. }
  assert (∀ new n x kw,
            call__apply (S n) (VChain c) x kw (set_lists <[l':=new]> h1) =
            apply_items n items x (set_lists <[l':=new]> h1)) as Hold.
  { intros new n x kw. destruct (Hincl' new) as (_ & Hli' & Hch' & _).
    apply chain_apply_items with l; by eapply lookup_weaken. }
  assert (∀ n x h2, insts h2 = insts h1 →
            apply_items n items' x h2 = apply_items n items x h2) as Hsame.
  { intros n x h2 E. by eapply (apply_items_copies n h h1). }
  split.
  - exists (VChain c'), (set_lists <[l':=items' ++ [t]]> h1).
    split_and!; [|done|done|].
    + unfold ComposableTransform_compose_before.
      erewrite bind_run by (by eapply chain_isinstance).
      unfold ComposableTransform__compose_before.
      erewrite bind_run by exact Hcopy.
      unfold bind, call__compose_before_inplace,
        TransformChain__compose_before_inplace, bind, get_chain.
      rewrite Hc1. simpl. unfold bind, get_list. by rewrite Hl1.
    + intros n x kw.
      rewrite (chain_apply_items n c' l' (items' ++ [t]));
        [|done|apply lookup_insert_eq].
      unfold apply_items at 1. rewrite reduce_app.
      fold (apply_items n items' x).
      unfold bind at 1 2. rewrite Hold, (Hsame n x (set_lists <[l':=items' ++ [t]]> h1) eq_refl).
      destruct (apply_items n items x _) as [[[q|e] h2]|]; [|done..].
      simpl. apply bind_ret_r.
  - exists (VChain c'), (set_lists <[l':=t :: items']> h1).
    split_and!; [|done|done|].
    + unfold ComposableTransform_compose_after.
      erewrite bind_run by (by eapply chain_isinstance).
      unfold ComposableTransform__compose_after.
      erewrite bind_run by exact Hcopy.
      unfold bind, call__compose_after_inplace,
        TransformChain__compose_after_inplace, bind, get_chain.
      rewrite Hc1. simpl. unfold bind, get_list. by rewrite Hl1.
    + intros n x kw.
      rewrite (chain_apply_items n c' l' (t :: items'));
        [|done|apply lookup_insert_eq].
      unfold apply_items at 1. cbn [reduce].
      apply bind_ext. intros q h2 Hq.
      apply call__apply_more_arrays in Hq as (_ & El & Ech & Ei & _).
      fold (apply_items n items' q). rewrite (Hsame n q h2 Ei).
      destruct (Hincl' (t :: items')) as (_ & Hli' & Hch' & _).
      symmetry. apply chain_apply_items with l.
      * rewrite Ech. by eapply lookup_weaken.
      * rewrite El. by eapply lookup_weaken.
Qed.

Lemma native_combine_of_a_chain_applies_witness :
  ∃ d h',
    ComposableTransform_compose_before (S (length (all_objects ToyStores.h_chain)))
      (VChain 1%positive) (VInst 2%positive) ToyStores.h_chain = Some (Ret d, h') ∧
    heap_incl ToyStores.h_chain h' ∧
    call__apply 2 d (VArr 1%positive) [] h' =
    (let! q := call__apply 2 (VChain 1%positive) (VArr 1%positive) [] in
     call__apply 1 (VInst 2%positive) q []) h'.
Proof.
  destruct (native_combine_of_a_chain_applies (W:=Toy.toy) 1%positive 1%positive
              [VInst 1%positive; VInst 3%positive] (VInst 2%positive)
              (TyInst Toy.Translation) ToyStores.h_chain)
    as [(d & h' & E & Hincl & _ & Happ) _];
    [reflexivity|reflexivity| |split; reflexivity|exact toy_h_chain_closed|].
  - repeat constructor; eexists; (split; [reflexivity|by eexists]).
  - exists d, h'. split_and!; [exact E|exact Hincl|apply Happ].
Defined.

(** X19.  The native combine of a concrete transform keeps the contract of
    the docstrings.  For a transform [a] of a class that keeps the contracts
    of its hooks and a transform [b] it composes with, on a closed store:
    [a.compose_before(b)] returns a new transform of the class of [a] whose
    primitive mapping is that of [a] followed by that of [b]; and where the
    class inherits the default [_compose_after_inplace] and [b] is
    vectorizable, [a.compose_after(b)] returns a new transform whose
    primitive mapping is that of [b] followed by that of [a].  Every object
    of the store, [a] and [b] among them, is as it was. *)
Theorem native_combine_of_an_instance `{W : World}
    (i tl : loc) (o j : inst) (classes : pytype klass → bool) (h : heap) :
  vcomposable_laws (cls o) →
  insts h !! i = Some o → insts h !! tl = Some j →
  composes_inplace_with (cls o) = Some classes →
  classes (TyInst (cls j)) = true → closed h →
  (∃ i' o' h',
     ComposableTransform_compose_before (S (length (all_objects h)))
       (VInst i) (VInst tl) h = Some (Ret (VInst i'), h') ∧
     insts h !! i' = None ∧ heap_incl h h' ∧
     insts h' !! i' = Some o' ∧ cls o' = cls o ∧
     ∀ kw a, prim_apply (cls o) (params o') kw a =
             res_bind (prim_apply (cls o) (params o) kw a)
                      (prim_apply (cls j) (params j) kw)) ∧
  (compose_after_hook (cls o) = None →
   is_Some (as_vector (cls j) (params j)) →
   ∃ i' o' h',
     ComposableTransform_compose_after (S (length (all_objects h)))
       (VInst i) (VInst tl) h = Some (Ret (VInst i'), h') ∧
     insts h !! i' = None ∧ heap_incl h h' ∧
     insts h' !! i' = Some o' ∧ cls o' = cls o ∧
     ∀ kw a, prim_apply (cls o) (params o') kw a =
             res_bind (prim_apply (cls j) (params j) kw a)
                      (prim_apply (cls o) (params o) kw)).
Proof.
  intros L Ho Hj Hcl Hadm Hclosed.
  destruct (deepcopy_returns h (VInst i) Hclosed) as (d & h1 & Hcopy);
    [by simpl; eexists|].
  destruct (deepcopy_inst _ _ _ _ _ Hcopy)
    as (i' & o0 & s' & t' & [= ->] & Ho0 & Hi' & Hi1 & Hincl).
  rewrite Ho in Ho0. injection Ho0 as <-.
  pose proof Hincl as (Ha & Hli & Hch & Hin & Hclo).
  assert (insts h1 !! tl = Some j) as Hj1 by (by eapply lookup_weaken).
  assert (isinstance_composes (VInst i) (VInst tl) h = Some (Ret true, h)) as Hisin.
  { rewrite <- Hadm. eapply isinstance_composes_inst; [exact Ho|exact Hcl|].
    by apply type_of_inst. }
  split.
  - destruct (law_compose_before _ L classes (params o) _ (params j) Hcl Hadm)
      as (s3 & Hhook & Hs3).
    eexists i', _, _. split_and!.
    + unfold ComposableTransform_compose_before.
      erewrite bind_run by exact Hisin.
      unfold ComposableTransform__compose_before.
      erewrite bind_run by exact Hcopy.
      erewrite bind_run;
        [|by eapply (call__compose_before_inplace_inst i' _ tl j s3 h1)].
      reflexivity.
    + done.
    + split_and!; try done. simpl. by apply subseteq_write.
    + apply lookup_insert_eq.
    + done.
    + exact Hs3.
  - intros Hhook Hvec.
    destruct (default_compose_after_run i' tl (Inst (cls o) (params o) s' t') j
                classes h1 L Hi1 Hj1 Hcl Hadm Hvec)
      as (s & h' & Hrun & Hs & Hprim & Htouch).
    eexists i', _, h'. split_and!.
    + unfold ComposableTransform_compose_after.
      erewrite bind_run by exact Hisin.
      unfold ComposableTransform__compose_after.
      erewrite bind_run by exact Hcopy.
      unfold bind at 1. unfold call__compose_after_inplace.
      unfold bind at 1. unfold get_inst. rewrite Hi1. simpl. rewrite Hhook.
      by rewrite Hrun.
    + done.
    + by eapply touches_inst_incl.
    + exact Hs.
    + done.
    + exact Hprim.
Qed.

Lemma native_combine_of_an_instance_witness :
  ∃ i' h',
    ComposableTransform_compose_after (S (length (all_objects Toy.h0)))
      (VInst 1%positive) (VInst 2%positive) Toy.h0 = Some (Ret (VInst i'), h') ∧
    heap_incl Toy.h0 h' ∧
    insts h' !! i' = Some (@Inst Toy.toy Toy.Translation [11; 22]%Z VNone VNone).
Proof.
  destruct (native_combine_of_an_instance (W:=Toy.toy) 1%positive 2%positive
              (@Inst Toy.toy Toy.Translation [1; 2]%Z VNone VNone)
              (@Inst Toy.toy Toy.Translation [10; 20]%Z VNone VNone)
              (λ ty, bool_decide (ty = TyInst Toy.Translation)) Toy.h0
              toy_translation_laws eq_refl eq_refl eq_refl eq_refl toy_h0_closed)
    as [_ Hafter].
  destruct (Hafter eq_refl) as (i' & o' & h' & E & _ & Hincl & Ho' & _);
    [by eexists|].
  exists i', h'. split_and!; [exact E|exact Hincl|].
  vm_compute in E. injection E as <- <-. reflexivity.
Defined.

(** X20.  The validation compares [n_dims] and [n_points] as every object
    has them.  A chain has the [n_dims] of [Transform], which is [None], and
    no [n_points]: aligning a point cloud to a chain or a chain to a point
    cloud, and assigning a chain as the target of a transform bound to a
    point cloud, raise [ValueError]; aligning a chain to a chain passes the
    comparison of [n_dims] and raises [AttributeError] at [n_points]; and
    [None] has no [n_dims], so aligning it raises [AttributeError].  The
    store is untouched each time. *)
Theorem validation_of_a_chain `{W : World}
    (c : klass) (k k' : loc) (source : val) (sa : Arr) (kw : Kw) (h : heap) :
  cloud_at h source sa →
  Alignable_align c source (VChain k) kw h = Some (Raise ValueError, h) ∧
  Alignable_align c (VChain k) source kw h = Some (Raise ValueError, h) ∧
  Alignable_align c (VChain k) (VChain k') kw h = Some (Raise AttributeError, h) ∧
  Alignable_align c VNone source kw h = Some (Raise AttributeError, h) ∧
  (∀ self o, insts h !! self = Some o → is_not_None (_source o) = true →
     _target o = source →
     Alignable_target_setter self (VChain k) h = Some (Raise ValueError, h)) ∧
  Transform_n_dims_output (VChain k) h = Some (Ret None, h).
Proof.
  intros Hs.
  assert (∀ x y e, Alignable__verify_source_and_target x y h = Some (Raise e, h) →
            Alignable_align c x y kw h = Some (Raise e, h)) as Halign.
  { intros x y e E. unfold Alignable_align, bind. by rewrite E. }
  split_and!.
  - apply Halign. unfold Alignable__verify_source_and_target.
    erewrite bind_run by (by apply call_n_dims_cloud).
    by erewrite bind_run by apply call_n_dims_chain.
  - apply Halign. unfold Alignable__verify_source_and_target.
    erewrite bind_run by apply call_n_dims_chain.
    by erewrite bind_run by (by apply call_n_dims_cloud).
  - apply Halign. unfold Alignable__verify_source_and_target.
    erewrite bind_run by apply call_n_dims_chain.
    erewrite bind_run by apply call_n_dims_chain.
    simpl. unfold bind. by rewrite call_n_points_chain.
  - apply Halign. unfold Alignable__verify_source_and_target, bind, call_n_dims.
    by destruct (size _).
  - intros self o Ho Hsrc Htgt.
    unfold Alignable_target_setter. unfold bind at 1.
    rewrite (is_alignment_transform_run _ _ _ Ho), Hsrc, Htgt.
    rewrite (cloud_at_not_None _ _ _ Hs). simpl.
    erewrite bind_run by apply call_n_dims_chain.
    erewrite bind_run.
    2:{ unfold Alignable_target, bind, get_inst. by rewrite Ho, Htgt. }
    by erewrite bind_run by (by apply call_n_dims_cloud).
  - apply call_n_dims_chain.
Qed.

Lemma validation_of_a_chain_witness :
  Alignable_align Toy.Translation (VCloud 1%positive) (VChain 1%positive) []
    ToyStores.h_chain = Some (Raise ValueError, ToyStores.h_chain) ∧
  Alignable_target_setter 4%positive (VChain 1%positive) ToyStores.h_chain =
    Some (Raise ValueError, ToyStores.h_chain) ∧
  call_n_dims (VInst 4%positive) ToyStores.h_chain =
    Some (Ret (Some 2), ToyStores.h_chain).
Proof.
  destruct (validation_of_a_chain (W:=Toy.toy) Toy.Translation 1%positive 1%positive
              (VCloud 1%positive) [[1; 1]; [3; 3]]%Z [] ToyStores.h_chain)
    as (Ha & _ & _ & _ & _).
  { exists 1%positive, 2%positive. by split_and!. }
  destruct (validation_of_a_chain (W:=Toy.toy) Toy.Translation 1%positive 1%positive
              (VCloud 2%positive) [[5; 5]; [7; 7]]%Z [] ToyStores.h_chain)
    as (_ & _ & _ & _ & Hset & _).
  { exists 2%positive, 3%positive. by split_and!. }
  split; [exact Ha|]. split; [|reflexivity].
  eapply Hset; reflexivity.
Defined.
